(** * Graph_Tools: cycle detection and topological sorting (DAG_utils.py)

    A graph is a Python [dict<T, set<T>>]: a key [a] whose set contains [b]
    is the edge "a depends on b".  The functions of [DAG_utils.py] are
    embedded twice.

    - [DAG_utils]: functions over stdpp's [gmap] and [gset], with the local
      state of each call (working sets, counters, the [defaultdict]
      wrappers) passed explicitly.  What the functions compute is proved
      here.
    - [Heap]: the same functions over a store in which dicts and sets are
      objects reached by reference, as Python has them.  That a call leaves
      the objects of its caller alone is proved here, together with the
      agreement of the two embeddings.

    The definitions come first, then the facts about them, then the
    properties of the specification, further properties of the code, and
    the test suite of the repository. *)

From stdpp Require Import gmap list fin_sets fin_maps relations.

(** ** Outcomes of running a piece of Python code *)

(** [KeyError]: a missing key in a plain dict, [set.remove] of a missing
    element, [set.pop] on an empty set.  [TypeError]: in the store, a set
    operation on a reference that is not a set, or a dict operation on one
    that is not a dict. *)
Inductive exn := KeyError | TypeError.

(** [Ret v]: the code returns [v]; [Raise e]: it raises [e]; [OutOfFuel]:
    the recursion depth (DFS helper) or the iteration count (frontier loop)
    allotted to the run was used up before the code finished. *)
Inductive res (A : Type) : Type :=
  | Ret (a : A)
  | Raise (e : exn)
  | OutOfFuel.
Arguments Ret {A} a.
Arguments Raise {A} e.
Arguments OutOfFuel {A}.

Global Instance res_ret : MRet res := @Ret.
Global Instance res_bind : MBind res := λ A B f m,
  match m with
  | Ret a => f a
  | Raise e => Raise e
  | OutOfFuel => OutOfFuel
  end.
Global Instance res_fmap : FMap res := λ A B f m,
  match m with
  | Ret a => Ret (f a)
  | Raise e => Raise e
  | OutOfFuel => OutOfFuel
  end.

(** [for x in l: s = body(s, x)] *)
Fixpoint for_each `{MBind M, MRet M} {A S : Type} (body : S → A → M S)
    (l : list A) (s : S) : M S :=
  match l with
  | [] => mret s
  | x :: l' => s' ← body s x; for_each body l' s'
  end.

(** [for x in l: if not body(x): return False] followed by [return True];
    this is also [all(map(body, l))].  The state [s] is what [body]
    mutates. *)
Fixpoint for_all `{MBind M, MRet M} {A S : Type}
    (body : S → A → M (bool * S)%type) (l : list A) (s : S)
    : M (bool * S)%type :=
  match l with
  | [] => mret (true, s)
  | x :: l' =>
      '(ok, s') ← body s x;
      if ok : bool then for_all body l' s' else mret (false, s')
  end.

(** [d[k]] on a plain [dict]: a missing key raises [KeyError]. *)
Definition dict_getitem `{Countable K} {V} (d : gmap K V) (k : K) : res V :=
  match d !! k with
  | Some v => Ret v
  | None => Raise KeyError
  end.

(** A [defaultdict(set)] holding the items [dd_items]; [DefaultDict m] is
    also [defaultdict(set, m)], a new dictionary with the items of [m]. *)
Record defaultdict (K : Type) `{Countable K} :=
  DefaultDict { dd_items : gmap K (gset K) }.
Arguments DefaultDict {K _ _} dd_items.
Arguments dd_items {K _ _} d.

(** [d[k]] on a [defaultdict(set)]: a missing key is inserted with a fresh
    empty set, which is returned. *)
Definition defaultdict_getitem `{Countable K}
    (d : defaultdict K) (k : K) : gset K * defaultdict K :=
  match dd_items d !! k with
  | Some s => (s, d)
  | None => (∅, DefaultDict (<[k := ∅]> (dd_items d)))
  end.

(** [d[k] = v] *)
Definition defaultdict_setitem `{Countable K}
    (d : defaultdict K) (k : K) (v : gset K) : defaultdict K :=
  DefaultDict (<[k := v]> (dd_items d)).

(** Position of the first occurrence, [l.index(x)]. *)
Fixpoint index `{EqDecision A} (x : A) (l : list A) : option nat :=
  match l with
  | [] => None
  | y :: l' => if decide (x = y) then Some 0 else S <$> index x l'
  end.

Module DAG_utils.

Section dag_utils.
Context `{Countable T}.

Abbreviation graph := (gmap T (gset T)).

(** The order in which Python visits the elements of a set or the keys of a
    dict, and the element [set.pop()] removes, are left to the
    implementation.  They are parameters of the embedding: [dict_keys ks] is
    the order in which a dict with the keys [ks] is visited, and
    [set_pop n s] is the element taken by the [n]-th pop of a run when the
    set holds [s]. *)
Record py_order := PyOrder {
  set_iter : gset T → list T;
  set_iter_perm s : set_iter s ≡ₚ elements s;
  dict_keys : gset T → list T;
  dict_keys_perm ks : dict_keys ks ≡ₚ elements ks;
  set_pop : nat → gset T → option T;
  set_pop_Some n s x : set_pop n s = Some x → x ∈ s;
  set_pop_None n s : set_pop n s = None → s = ∅;
}.

(** [d.items()] *)
Definition dict_items (O : py_order) {V : Type} (d : gmap T V) : list (T * V) :=
  omap (λ k, pair k <$> d !! k) (dict_keys O (dom d)).

(** The order stdpp enumerates sets in; pop takes the first element. *)
Definition first_element (_ : nat) (s : gset T) : option T :=
  head (elements s).

Lemma first_element_Some n s x : first_element n s = Some x → x ∈ s.
Proof.
  unfold first_element. intros Hx. apply elem_of_elements.
  destruct (elements s); simplify_eq/=. left.
Qed.

Lemma first_element_None n s : first_element n s = None → s = ∅.
Proof.
  unfold first_element. intros Hx. apply leibniz_equiv, elements_empty_inv.
  destruct (elements s); by simplify_eq/=.
Qed.

Definition canonical_order : py_order :=
  {| set_iter := elements;
     set_iter_perm := λ s, reflexivity (elements s);
     dict_keys := elements;
     dict_keys_perm := λ s, reflexivity (elements s);
     set_pop := first_element;
     set_pop_Some := first_element_Some;
     set_pop_None := first_element_None |}.

(** The opposite order; pop takes the last element. *)
Definition last_element (_ : nat) (s : gset T) : option T :=
  last (elements s).

Lemma last_element_Some n s x : last_element n s = Some x → x ∈ s.
Proof.
  unfold last_element. intros Hx%last_Some_elem_of. by apply elem_of_elements.
Qed.

Lemma last_element_None n s : last_element n s = None → s = ∅.
Proof.
  unfold last_element. intros Hx%last_None.
  by apply leibniz_equiv, elements_empty_inv.
Qed.

Definition reversed_order : py_order :=
  {| set_iter := λ s, reverse (elements s);
     set_iter_perm := λ s, reverse_Permutation (elements s);
     dict_keys := λ s, reverse (elements s);
     dict_keys_perm := λ s, reverse_Permutation (elements s);
     set_pop := last_element;
     set_pop_Some := last_element_Some;
     set_pop_None := last_element_None |}.

(** The local variables of [topological_sort] that its frontier loop reads
    and writes; [pops] counts the calls of [frontier.pop()] so far. *)
Record ts_state := TsState {
  edge_dictionary : defaultdict T;
  inverted_edge_dict : defaultdict T;
  frontier : gset T;
  node_to_num_dependencies_met : gmap T nat;
  node_to_is_added : gmap T bool;
  sorted_ordering : list T;
  pops : nat;
}.

Variable O : py_order.

(** ** edge_dict_to_node_set *)
Definition edge_dict_to_node_set (edge_dictionary : graph) : gset T :=
  foldl (λ all_nodes '(from_node, to_node_set),
           all_nodes ∪ ({[from_node]} ∪ to_node_set))
        ∅ (dict_items O edge_dictionary).

(** ** invert_edge_dict *)

(** Body of [for to_node in to_nodes]. *)
Definition invert_edge (from_node : T) (new_dict : defaultdict T) (to_node : T)
    : defaultdict T :=
  match dd_items new_dict !! to_node with
  | Some s => (* to_node in new_dict *)
      defaultdict_setitem new_dict to_node (s ∪ {[from_node]})
  | None => defaultdict_setitem new_dict to_node {[from_node]}
  end.

Definition invert_edge_dict (edge_dictionary : graph) : defaultdict T :=
  let new_dict := DefaultDict ∅ in
  foldl (λ new_dict '(from_node, to_nodes),
           foldl (invert_edge from_node) new_dict (set_iter O to_nodes))
        new_dict (dict_items O edge_dictionary).

(** ** is_graph_acylic_DFS

    The state of the helper is the set [set_seen_so_far], which it
    mutates in place, and the [defaultdict] wrapper of the graph, into
    which a lookup of a node without outgoing edges inserts a key.  One
    unit of fuel is one level of recursion. *)
Fixpoint is_graph_acylic_helper (fuel : nat) (st : gset T * defaultdict T)
    (current_node : T) : res (bool * (gset T * defaultdict T)) :=
  match fuel with
  | 0 => OutOfFuel
  | S fuel =>
      let '(set_seen_so_far, edge_dictionary) := st in
      if decide (current_node ∈ set_seen_so_far) then Ret (false, st)
      else
        let set_seen_so_far := set_seen_so_far ∪ {[current_node]} in
        let '(next_nodes, edge_dictionary) :=
          defaultdict_getitem edge_dictionary current_node in
        '(ok, (set_seen_so_far, edge_dictionary)) ←
          for_all (is_graph_acylic_helper fuel) (set_iter O next_nodes)
                  (set_seen_so_far, edge_dictionary);
        if ok : bool then
          if decide (current_node ∈ set_seen_so_far)
          then Ret (true, (set_seen_so_far ∖ {[current_node]}, edge_dictionary))
          else Raise KeyError
        else Ret (false, (set_seen_so_far, edge_dictionary))
  end.

Definition is_graph_acylic_DFS (fuel : nat) (edge_dictionary : graph)
    : res bool :=
  let edge_dictionary := DefaultDict edge_dictionary in
  let all_nodes_set := edge_dict_to_node_set (dd_items edge_dictionary) in
  '(ok, _) ←
    for_all (λ edge_dictionary start_node,
               '(ok, (_, edge_dictionary)) ←
                 is_graph_acylic_helper fuel (∅, edge_dictionary) start_node;
               Ret (ok, edge_dictionary))
            (set_iter O all_nodes_set) edge_dictionary;
  Ret ok.

(** ** topological_sort *)

(** Body of [for dependant_node in inverted_edge_dict[current_node]]. *)
Definition add_dependant (st : gset T * gmap T nat) (dependant_node : T)
    : res (gset T * gmap T nat) :=
  let '(frontier, node_to_num_dependencies_met) := st in
  let frontier := frontier ∪ {[dependant_node]} in
  n ← dict_getitem node_to_num_dependencies_met dependant_node;
  Ret (frontier, <[dependant_node := n + 1]> node_to_num_dependencies_met).

(** Body of [while frontier]. *)
Definition frontier_step (st : ts_state) : res ts_state :=
  match set_pop O (pops st) (frontier st) with
  | None => Raise KeyError
  | Some current_node =>
      let frontier' := frontier st ∖ {[current_node]} in
      num_met ← dict_getitem (node_to_num_dependencies_met st) current_node;
      let '(dependencies, edge_dictionary') :=
        defaultdict_getitem (edge_dictionary st) current_node in
      if decide (num_met < size dependencies) then
        (* continue *)
        Ret {| edge_dictionary := edge_dictionary';
               inverted_edge_dict := inverted_edge_dict st;
               frontier := frontier';
               node_to_num_dependencies_met := node_to_num_dependencies_met st;
               node_to_is_added := node_to_is_added st;
               sorted_ordering := sorted_ordering st;
               pops := S (pops st) |}
      else
        let sorted_ordering' := sorted_ordering st ++ [current_node] in
        let '(dependants, inverted_edge_dict') :=
          defaultdict_getitem (inverted_edge_dict st) current_node in
        '(frontier'', node_to_num_dependencies_met') ←
          for_each add_dependant (set_iter O dependants)
                   (frontier', node_to_num_dependencies_met st);
        Ret {| edge_dictionary := edge_dictionary';
               inverted_edge_dict := inverted_edge_dict';
               frontier := frontier'';
               node_to_num_dependencies_met := node_to_num_dependencies_met';
               node_to_is_added := <[current_node := true]> (node_to_is_added st);
               sorted_ordering := sorted_ordering';
               pops := S (pops st) |}
  end.

(** [while frontier: ...]; one unit of fuel is one iteration. *)
Fixpoint frontier_loop (fuel : nat) (st : ts_state) : res ts_state :=
  if decide (frontier st = ∅) then Ret st
  else match fuel with
       | 0 => OutOfFuel
       | S fuel => st' ← frontier_step st; frontier_loop fuel st'
       end.

(** Body of the loop that builds [terminal_node_set]. *)
Definition collect_terminal (st : gset T * defaultdict T) (node : T)
    : gset T * defaultdict T :=
  let '(terminal_node_set, edge_dictionary) := st in
  let '(dependencies, edge_dictionary) :=
    defaultdict_getitem edge_dictionary node in
  (if decide (dependencies = ∅)
   then terminal_node_set ∪ {[node]} else terminal_node_set,
   edge_dictionary).

(** Body of the loop that fills the two dictionaries. *)
Definition init_counters (st : gmap T bool * gmap T nat) (node : T)
    : gmap T bool * gmap T nat :=
  let '(node_to_is_added, node_to_num_dependencies_met) := st in
  (<[node := false]> node_to_is_added,
   <[node := 0]> node_to_num_dependencies_met).

(** The local state with which [topological_sort] enters its loop. *)
Definition ts_init (edge_dictionary : graph) : ts_state :=
  let sorted_ordering := [] in
  let edge_dictionary := DefaultDict edge_dictionary in
  let inverted_edge_dict := invert_edge_dict (dd_items edge_dictionary) in
  let all_nodes_set := edge_dict_to_node_set (dd_items edge_dictionary) in
  let '(terminal_node_set, edge_dictionary) :=
    foldl collect_terminal (∅, edge_dictionary) (set_iter O all_nodes_set) in
  let '(node_to_is_added, node_to_num_dependencies_met) :=
    foldl init_counters (∅, ∅) (set_iter O all_nodes_set) in
  {| edge_dictionary := edge_dictionary;
     inverted_edge_dict := inverted_edge_dict;
     frontier := terminal_node_set;
     node_to_num_dependencies_met := node_to_num_dependencies_met;
     node_to_is_added := node_to_is_added;
     sorted_ordering := sorted_ordering;
     pops := 0 |}.

(** The result is [Some l] for the list [l] and [None] for Python's
    [None]. *)
Definition topological_sort (fuel : nat) (edge_dictionary : graph)
    : res (option (list T)) :=
  st ← frontier_loop fuel (ts_init edge_dictionary);
  if forallb id (dict_items O (node_to_is_added st)).*2
  then Ret (Some (sorted_ordering st))
  else Ret None.

(** ** is_graph_acyclic_toplogical *)
Definition is_graph_acyclic_toplogical (fuel : nat) (edge_dictionary : graph)
    : res bool :=
  r ← topological_sort fuel edge_dictionary;
  Ret (if r is None then false else true).

(** ** The notions the specification is worded in *)

(** Edge "a depends on b". *)
Definition depends_on (G : graph) (a b : T) : Prop :=
  ∃ s, G !! a = Some s ∧ b ∈ s.

(** Membership in the derived Node Set: a key, or a member of a value. *)
Definition is_node (G : graph) (x : T) : Prop :=
  x ∈ dom G ∨ ∃ a, depends_on G a x.

(** Some node lies on a directed cycle (a self-loop is a cycle). *)
Definition cyclic (G : graph) : Prop := ∃ n, tc (depends_on G) n n.
Definition acyclic (G : graph) : Prop := ∀ n, ¬ tc (depends_on G) n n.

(** Recursion depth that suffices for the DFS helper, and number of
    iterations that suffices for the frontier loop. *)
Definition dfs_fuel (G : graph) : nat := S (size (edge_dict_to_node_set G)).
Definition ts_fuel (G : graph) : nat :=
  let n := size (edge_dict_to_node_set G) in (n + 1) * (n + 1).

End dag_utils.

End DAG_utils.

Export DAG_utils.

(** * The same functions over a store of objects

    Python passes dicts and sets by reference: the dict a caller hands to
    these functions and the sets it holds are objects the callee could
    mutate.  Here the sets and the dicts of sets live in a store, a dict
    holds references to its sets, and every function is a computation over
    the store.  The dicts of counters and flags and the result list are
    created by the call, hold immutable values and are never passed on; they
    stay ordinary values. *)

Module Heap.

(** References. *)
Abbreviation loc := positive.

Section objects.
Context `{Countable T}.

Inductive pyobj :=
  | PySet (s : gset T)
  | PyDict (default_factory : bool) (items : gmap T loc).

Abbreviation heap := (gmap loc pyobj).

(** A computation that reads and writes the store. *)
Definition M (A : Type) : Type := heap → res (A * heap).

Global Instance M_ret : MRet M := λ A a h, Ret (a, h).
Global Instance M_bind : MBind M := λ A B f m h,
  match m h with
  | Ret (a, h') => f a h'
  | Raise e => Raise e
  | OutOfFuel => OutOfFuel
  end.

Definition raise {A} (e : exn) : M A := λ _, Raise e.
Definition out_of_fuel {A} : M A := λ _, OutOfFuel.
Definition lift {A} (r : res A) : M A := λ h, a ← r; Ret (a, h).

(** ** Objects

    A loop over a set or over the items of a dict visits the elements the
    object holds when the loop starts; no loop of [DAG_utils.py] changes
    the object it iterates over. *)

Definition alloc (o : pyobj) : M loc := λ h,
  let l := fresh (dom h) in Ret (l, <[l := o]> h).

Definition set_get (l : loc) : M (gset T) := λ h,
  match h !! l with
  | Some (PySet s) => Ret (s, h)
  | _ => Raise TypeError
  end.

Definition set_put (l : loc) (s : gset T) : M () := λ h,
  match h !! l with
  | Some (PySet _) => Ret ((), <[l := PySet s]> h)
  | _ => Raise TypeError
  end.

Definition dict_get (l : loc) : M (bool * gmap T loc) := λ h,
  match h !! l with
  | Some (PyDict default_factory items) => Ret ((default_factory, items), h)
  | _ => Raise TypeError
  end.

Definition dict_put (l : loc) (items : gmap T loc) : M () := λ h,
  match h !! l with
  | Some (PyDict default_factory _) =>
      Ret ((), <[l := PyDict default_factory items]> h)
  | _ => Raise TypeError
  end.

(** [set()], [{x}] *)
Definition set_new (s : gset T) : M loc := alloc (PySet s).

(** [s.add(x)] *)
Definition set_add (l : loc) (x : T) : M () :=
  s ← set_get l; set_put l (s ∪ {[x]}).

(** [s.remove(x)] *)
Definition set_remove (l : loc) (x : T) : M () :=
  s ← set_get l;
  if decide (x ∈ s) then set_put l (s ∖ {[x]}) else raise KeyError.

(** [defaultdict(set)] *)
Definition defaultdict_new : M loc := alloc (PyDict true ∅).

(** [defaultdict(set, d)]: a new dict that refers to the same sets. *)
Definition defaultdict_of (d : loc) : M loc :=
  '(_, items) ← dict_get d; alloc (PyDict true items).

(** [d[k]] *)
Definition getitem (d : loc) (k : T) : M loc :=
  '(default_factory, items) ← dict_get d;
  match items !! k with
  | Some v => mret v
  | None =>
      if default_factory : bool then
        v ← set_new ∅; dict_put d (<[k := v]> items);; mret v
      else raise KeyError
  end.

(** [d[k] = v] *)
Definition setitem (d : loc) (k : T) (v : loc) : M () :=
  '(_, items) ← dict_get d; dict_put d (<[k := v]> items).

(** ** What a store holds *)

Definition is_set (h : heap) (l : loc) (s : gset T) : Prop :=
  h !! l = Some (PySet s).

(** The references [items] lead to the sets [m], key by key. *)
Definition items_rep (h : heap) (items : gmap T loc) (m : gmap T (gset T))
    : Prop :=
  ∀ k, option_Forall2 (is_set h) (items !! k) (m !! k).

(** The object at [g] is a dict (or defaultdict) of sets that holds the
    graph [G]. *)
Definition represents (h : heap) (g : loc) (G : gmap T (gset T)) : Prop :=
  ∃ default_factory items,
    h !! g = Some (PyDict default_factory items) ∧ items_rep h items G.

Variable O : @py_order T _ _.

(** ** edge_dict_to_node_set *)

(** Body of [for from_node, to_node_set in edge_dictionary.items()]. *)
Definition update_all_nodes (all_nodes : loc) (_ : ()) (item : T * loc)
    : M () :=
  let '(from_node, to_node_set) := item in
  s ← set_get to_node_set;
  (* {from_node} | to_node_set *)
  union ← set_new ({[from_node]} ∪ s);
  u ← set_get union;
  (* all_nodes.update(...) *)
  a ← set_get all_nodes;
  set_put all_nodes (a ∪ u).

Definition edge_dict_to_node_set (edge_dictionary : loc) : M loc :=
  all_nodes ← set_new ∅;
  '(_, items) ← dict_get edge_dictionary;
  for_each (update_all_nodes all_nodes) (dict_items O items) ();;
  mret all_nodes.

(** ** invert_edge_dict *)
Definition invert_edge (new_dict : loc) (from_node : T) (_ : ()) (to_node : T)
    : M () :=
  '(_, new_items) ← dict_get new_dict;
  if decide (to_node ∈ dom new_items) then
    s ← getitem new_dict to_node; set_add s from_node
  else
    s ← set_new {[from_node]}; setitem new_dict to_node s.

Definition invert_edge_dict (edge_dictionary : loc) : M loc :=
  new_dict ← defaultdict_new;
  '(_, items) ← dict_get edge_dictionary;
  for_each (λ _ '(from_node, to_nodes),
              s ← set_get to_nodes;
              for_each (invert_edge new_dict from_node) (set_iter O s) ())
           (dict_items O items) ();;
  mret new_dict.

(** ** is_graph_acylic_DFS *)
Fixpoint is_graph_acylic_helper (fuel : nat) (edge_dictionary : loc)
    (set_seen_so_far : loc) (current_node : T) : M bool :=
  match fuel with
  | 0 => out_of_fuel
  | S fuel =>
      seen ← set_get set_seen_so_far;
      if decide (current_node ∈ seen) then mret false
      else
        set_add set_seen_so_far current_node;;
        next_nodes ← getitem edge_dictionary current_node;
        s ← set_get next_nodes;
        '(ok, _) ←
          for_all (λ _ next_node,
                     ok ← is_graph_acylic_helper fuel edge_dictionary
                            set_seen_so_far next_node;
                     mret (ok, ()))
                  (set_iter O s) ();
        if ok : bool then set_remove set_seen_so_far current_node;; mret true
        else mret false
  end.

Definition is_graph_acylic_DFS (fuel : nat) (edge_dictionary : loc) : M bool :=
  edge_dictionary ← defaultdict_of edge_dictionary;
  all_nodes_set ← edge_dict_to_node_set edge_dictionary;
  s ← set_get all_nodes_set;
  '(ok, _) ←
    for_all (λ _ start_node,
               set_seen_so_far ← set_new ∅;
               ok ← is_graph_acylic_helper fuel edge_dictionary
                      set_seen_so_far start_node;
               mret (ok, ()))
            (set_iter O s) ();
  mret ok.

(** ** topological_sort *)

(** The local variables of the frontier loop that are not references. *)
Record ts_locals := TsLocals {
  node_to_num_dependencies_met : gmap T nat;
  node_to_is_added : gmap T bool;
  sorted_ordering : list T;
  pops : nat;
}.

Definition collect_terminal (edge_dictionary terminal_node_set : loc)
    (_ : ()) (node : T) : M () :=
  dependencies ← getitem edge_dictionary node;
  s ← set_get dependencies;
  if decide (s = ∅) then set_add terminal_node_set node else mret ().

Definition add_dependant (frontier : loc)
    (node_to_num_dependencies_met : gmap T nat) (dependant_node : T)
    : M (gmap T nat) :=
  set_add frontier dependant_node;;
  n ← lift (dict_getitem node_to_num_dependencies_met dependant_node);
  mret (<[dependant_node := n + 1]> node_to_num_dependencies_met).

Definition frontier_step (edge_dictionary inverted_edge_dict frontier : loc)
    (st : ts_locals) : M ts_locals :=
  s ← set_get frontier;
  match set_pop O (pops st) s with
  | None => raise KeyError
  | Some current_node =>
      set_put frontier (s ∖ {[current_node]});;
      num_met ← lift (dict_getitem (node_to_num_dependencies_met st) current_node);
      dependencies ← getitem edge_dictionary current_node;
      deps ← set_get dependencies;
      if decide (num_met < size deps) then
        mret {| node_to_num_dependencies_met := node_to_num_dependencies_met st;
                node_to_is_added := node_to_is_added st;
                sorted_ordering := sorted_ordering st;
                pops := S (pops st) |}
      else
        let sorted_ordering' := sorted_ordering st ++ [current_node] in
        dependants ← getitem inverted_edge_dict current_node;
        dts ← set_get dependants;
        node_to_num_dependencies_met' ←
          for_each (add_dependant frontier) (set_iter O dts)
                   (node_to_num_dependencies_met st);
        mret {| node_to_num_dependencies_met := node_to_num_dependencies_met';
                node_to_is_added := <[current_node := true]> (node_to_is_added st);
                sorted_ordering := sorted_ordering';
                pops := S (pops st) |}
  end.

Fixpoint frontier_loop (fuel : nat)
    (edge_dictionary inverted_edge_dict frontier : loc) (st : ts_locals)
    : M ts_locals :=
  s ← set_get frontier;
  if decide (s = ∅) then mret st
  else match fuel with
       | 0 => out_of_fuel
       | S fuel =>
           st' ← frontier_step edge_dictionary inverted_edge_dict frontier st;
           frontier_loop fuel edge_dictionary inverted_edge_dict frontier st'
       end.

Definition topological_sort (fuel : nat) (edge_dictionary : loc)
    : M (option (list T)) :=
  edge_dictionary ← defaultdict_of edge_dictionary;
  inverted_edge_dict ← invert_edge_dict edge_dictionary;
  all_nodes_set ← edge_dict_to_node_set edge_dictionary;
  terminal_node_set ← set_new ∅;
  s ← set_get all_nodes_set;
  for_each (collect_terminal edge_dictionary terminal_node_set)
           (set_iter O s) ();;
  let '(node_to_is_added, node_to_num_dependencies_met) :=
    foldl init_counters (∅, ∅) (set_iter O s) in
  let frontier := terminal_node_set in
  '(TsLocals _ node_to_is_added sorted_ordering _) ←
    frontier_loop fuel edge_dictionary inverted_edge_dict frontier
      {| node_to_num_dependencies_met := node_to_num_dependencies_met;
         node_to_is_added := node_to_is_added;
         sorted_ordering := [];
         pops := 0 |};
  if forallb id (dict_items O node_to_is_added).*2
  then mret (Some sorted_ordering)
  else mret None.

(** ** is_graph_acyclic_toplogical *)
Definition is_graph_acyclic_toplogical (fuel : nat) (edge_dictionary : loc)
    : M bool :=
  r ← topological_sort fuel edge_dictionary;
  mret (if r is None then false else true).

End objects.

End Heap.

(** * The graphs of the test suite, with integer nodes *)

Module Tests.

Definition chain1 : gmap Z (gset Z) := {[ 0 := {[1]} ]}%Z.
Definition chain2 : gmap Z (gset Z) := {[ 0 := {[1]}; 1 := {[2]} ]}%Z.
Definition fork : gmap Z (gset Z) := {[ 0 := {[1]}; 1 := {[2; 3]} ]}%Z.
Definition merge1 : gmap Z (gset Z) :=
  {[ 0 := {[1]}; 2 := {[1]}; 1 := {[3]} ]}%Z.
Definition merge2 : gmap Z (gset Z) :=
  {[ 0 := {[1]}; 1 := {[2; 3]}; 2 := {[4]}; 3 := {[4]} ]}%Z.
Definition merge2_disjoint : gmap Z (gset Z) :=
  {[ 0 := {[1]}; 1 := {[2; 3]}; 2 := {[4]}; 3 := {[4]}; 5 := {[6]} ]}%Z.

Definition cycle1 : gmap Z (gset Z) := {[ 0 := {[0]} ]}%Z.
Definition cycle2 : gmap Z (gset Z) := {[ 0 := {[1]}; 1 := {[0]} ]}%Z.
Definition cycle2_extra : gmap Z (gset Z) :=
  {[ 0 := {[1; 2]}; 1 := {[0; 3]} ]}%Z.
Definition cycle2_disjoint : gmap Z (gset Z) :=
  {[ 0 := {[1]}; 1 := {[0]}; 3 := {[4; 5]} ]}%Z.
Definition cycle4 : gmap Z (gset Z) :=
  {[ 0 := {[1]}; 1 := {[2]}; 2 := {[3]}; 3 := {[0]} ]}%Z.
Definition cycle4_tails : gmap Z (gset Z) :=
  {[ -1 := {[0]}; 0 := {[1]}; 1 := {[2]}; 2 := {[3]}; 3 := {[0; 4]} ]}%Z.

Definition acyclic_graphs : list (gmap Z (gset Z)) :=
  [∅; chain1; chain2; merge1; merge2; merge2_disjoint].
Definition cyclic_graphs : list (gmap Z (gset Z)) :=
  [cycle1; cycle2; cycle2_extra; cycle2_disjoint; cycle4; cycle4_tails].

(** A store in which a caller holds [chain2], [{0: {1}, 1: {2}}], as the
    dict at reference 3. *)
Definition chain2_store : gmap Heap.loc (@Heap.pyobj Z _ _) :=
  {[ 1%positive := Heap.PySet {[1%Z]};
     2%positive := Heap.PySet {[2%Z]};
     3%positive := Heap.PyDict false {[ 0%Z := 1%positive; 1%Z := 2%positive ]} ]}.

(** A store in which the caller's dict is itself a [defaultdict], as in
    [test_cycle_check_random]. *)
Definition defaultdict_store : gmap Heap.loc (@Heap.pyobj Z _ _) :=
  {[ 1%positive := Heap.PySet {[1%Z]};
     3%positive := Heap.PyDict true {[ 0%Z := 1%positive ]} ]}.

Definition order : @py_order Z _ _ := canonical_order.
Definition order' : @py_order Z _ _ := reversed_order.

End Tests.

(** * The graphs of the random test *)

Module RandomTests.

(** The maximum degree in a random graph *)
Definition MAX_DEGREE : nat := 5.

(** Body of [for _ in range(MAX_DEGREE)]: [randint k] is the number the
    [k]-th call of [np.random.randint(low=0, high=number_of_nodes)] for
    this graph returns, and the state counts the calls made. *)
Definition add_random_edge (randint : nat → nat) (from_node : nat)
    (st : nat * defaultdict nat) (_ : nat) : nat * defaultdict nat :=
  let '(calls, graph) := st in
  let to_node := randint calls in
  (* graph[from_node].add(to_node) *)
  let '(to_nodes, graph) := defaultdict_getitem graph from_node in
  (S calls, defaultdict_setitem graph from_node (to_nodes ∪ {[to_node]})).

(** The graph one round of [test_cycle_check_random] builds. *)
Definition random_graph (randint : nat → nat) (number_of_nodes : nat)
    : defaultdict nat :=
  let graph := DefaultDict ∅ in
  (foldl (λ st from_node,
            foldl (add_random_edge randint from_node) st (seq 0 MAX_DEGREE))
         (0, graph) (seq 0 number_of_nodes)).2.

End RandomTests.

(** * Facts about the functions on values *)

Section dag_utils_facts.
Context `{Countable T}.
Variable O : @py_order T _ _.

Abbreviation graph := (gmap T (gset T)).
Abbreviation ts_state := (@DAG_utils.ts_state T _ _).

(** ** Facts about the loops' building blocks *)

(** The dependencies of a node, none for a node that is not a key; this is
    what a lookup in a [defaultdict] holding the graph returns. *)
Definition successors (G : graph) (k : T) : gset T := default ∅ (G !! k).
Definition dd_lookup (d : defaultdict T) (k : T) : gset T :=
  successors (dd_items d) k.

Lemma depends_on_successors G a b : depends_on G a b ↔ b ∈ successors G a.
Proof.
  unfold depends_on, successors. split.
  - intros (s & -> & ?). done.
  - destruct (G !! a) as [s|]; simpl; [eauto | set_solver].
Qed.

Lemma defaultdict_getitem_fst (d : defaultdict T) k :
  (defaultdict_getitem d k).1 = dd_lookup d k.
Proof.
  unfold defaultdict_getitem, dd_lookup, successors.
  by destruct (dd_items d !! k).
Qed.

Lemma defaultdict_getitem_snd (d : defaultdict T) k k' :
  dd_lookup (defaultdict_getitem d k).2 k' = dd_lookup d k'.
Proof.
  unfold defaultdict_getitem, dd_lookup, successors.
  destruct (dd_items d !! k) eqn:Hk; simpl; [done|].
  destruct (decide (k = k')) as [->|].
  - by rewrite lookup_insert_eq, Hk.
  - by rewrite lookup_insert_ne.
Qed.

Lemma elem_of_set_iter s x : x ∈ set_iter O s ↔ x ∈ s.
Proof. by rewrite set_iter_perm, elem_of_elements. Qed.

Lemma NoDup_set_iter s : NoDup (set_iter O s).
Proof. rewrite set_iter_perm. apply NoDup_elements. Qed.

Lemma elem_of_dict_items {V} (m : gmap T V) k v :
  (k, v) ∈ dict_items O m ↔ m !! k = Some v.
Proof.
  unfold dict_items. rewrite list_elem_of_omap. split.
  - intros (k'&_&Hk). destruct (m !! k') eqn:?; by simplify_eq/=.
  - intros Hk. exists k. rewrite Hk. split; [|done].
    rewrite dict_keys_perm, elem_of_elements, elem_of_dom. eauto.
Qed.

Lemma dict_items_empty {V} : dict_items O (∅ : gmap T V) = [].
Proof.
  unfold dict_items. rewrite dom_empty_L.
  replace (dict_keys O ∅) with (@nil T); [done|]. symmetry.
  apply Permutation_nil_r. by rewrite dict_keys_perm, elements_empty.
Qed.

Lemma set_iter_empty : set_iter O ∅ = [].
Proof.
  apply Permutation_nil_r. by rewrite set_iter_perm, elements_empty.
Qed.

(** *** edge_dict_to_node_set *)

Lemma node_set_fold (l : list (T * gset T)) (acc : gset T) x :
  x ∈ foldl (λ all_nodes '(from_node, to_node_set),
               all_nodes ∪ ({[from_node]} ∪ to_node_set)) acc l
  ↔ x ∈ acc ∨ ∃ k s, (k, s) ∈ l ∧ (x = k ∨ x ∈ s).
Proof.
  revert acc. induction l as [|[k s] l IH]; intros acc; simpl.
  - split; [auto|]. intros [?|(?&?&Hin&_)]; [done|]. by apply elem_of_nil in Hin.
  - rewrite IH. setoid_rewrite elem_of_cons. split.
    + intros [Hx|(k'&s'&?&?)]; [|by eauto 10].
      apply elem_of_union in Hx as [?|Hx]; [by left|]. right. exists k, s.
      split; [by left|]. set_solver.
    + intros [?|(k'&s'&[?|?]&Hx)]; [set_solver| |by eauto 10].
      simplify_eq. left. set_solver.
Qed.

Lemma elem_of_edge_dict_to_node_set G x :
  x ∈ edge_dict_to_node_set O G ↔ is_node G x.
Proof.
  unfold edge_dict_to_node_set, is_node, depends_on.
  rewrite node_set_fold. setoid_rewrite elem_of_dict_items.
  rewrite elem_of_dom. split.
  - intros [?|(k&s&Hk&[->|?])]; [set_solver|by left; eauto|by right; eauto].
  - intros [[s ?]|(a&s&?&?)]; right; eauto 10.
Qed.

(** *** invert_edge_dict *)

Lemma invert_edge_lookup from_node (nd : defaultdict T) to_node a b :
  a ∈ dd_lookup (invert_edge from_node nd to_node) b
  ↔ a ∈ dd_lookup nd b ∨ (a = from_node ∧ b = to_node).
Proof.
  unfold invert_edge, defaultdict_setitem, dd_lookup, successors.
  destruct (decide (to_node = b)) as [->|Hne].
  - destruct (dd_items nd !! b) as [s|]; simpl; rewrite lookup_insert_eq; simpl;
      set_solver.
  - destruct (dd_items nd !! to_node) as [s|]; simpl;
      rewrite lookup_insert_ne by done; naive_solver.
Qed.

Lemma invert_edge_dom from_node (nd : defaultdict T) to_node b :
  b ∈ dom (dd_items (invert_edge from_node nd to_node))
  ↔ b ∈ dom (dd_items nd) ∨ b = to_node.
Proof.
  unfold invert_edge, defaultdict_setitem.
  destruct (dd_items nd !! to_node) as [s|] eqn:Hs; simpl;
    rewrite dom_insert, elem_of_union, elem_of_singleton; naive_solver.
Qed.

Lemma invert_inner_lookup from_node l (nd : defaultdict T) a b :
  a ∈ dd_lookup (foldl (invert_edge from_node) nd l) b
  ↔ a ∈ dd_lookup nd b ∨ (a = from_node ∧ b ∈ l).
Proof.
  revert nd. induction l as [|to_node l IH]; intros nd; simpl.
  - rewrite elem_of_nil. naive_solver.
  - rewrite IH, invert_edge_lookup, elem_of_cons. naive_solver.
Qed.

Lemma invert_inner_dom from_node l (nd : defaultdict T) b :
  b ∈ dom (dd_items (foldl (invert_edge from_node) nd l))
  ↔ b ∈ dom (dd_items nd) ∨ b ∈ l.
Proof.
  revert nd. induction l as [|to_node l IH]; intros nd; simpl.
  - rewrite elem_of_nil. naive_solver.
  - rewrite IH, invert_edge_dom, elem_of_cons. naive_solver.
Qed.

Lemma invert_fold_lookup (l : list (T * gset T)) (nd : defaultdict T) a b :
  a ∈ dd_lookup
        (foldl (λ new_dict '(from_node, to_nodes),
                  foldl (invert_edge from_node) new_dict (set_iter O to_nodes))
               nd l) b
  ↔ a ∈ dd_lookup nd b ∨ ∃ s, (a, s) ∈ l ∧ b ∈ s.
Proof.
  revert nd. induction l as [|[k s] l IH]; intros nd; simpl.
  - setoid_rewrite elem_of_nil. naive_solver.
  - rewrite IH, invert_inner_lookup, elem_of_set_iter.
    setoid_rewrite elem_of_cons. naive_solver.
Qed.

Lemma invert_fold_dom (l : list (T * gset T)) (nd : defaultdict T) b :
  b ∈ dom (dd_items
             (foldl (λ new_dict '(from_node, to_nodes),
                       foldl (invert_edge from_node) new_dict
                             (set_iter O to_nodes)) nd l))
  ↔ b ∈ dom (dd_items nd) ∨ ∃ a s, (a, s) ∈ l ∧ b ∈ s.
Proof.
  revert nd. induction l as [|[k s] l IH]; intros nd; simpl.
  - setoid_rewrite elem_of_nil. naive_solver.
  - rewrite IH, invert_inner_dom, elem_of_set_iter.
    setoid_rewrite elem_of_cons. naive_solver.
Qed.

Lemma invert_edge_dict_lookup G a b :
  a ∈ dd_lookup (invert_edge_dict O G) b ↔ depends_on G a b.
Proof.
  unfold invert_edge_dict. rewrite invert_fold_lookup.
  setoid_rewrite elem_of_dict_items.
  unfold dd_lookup at 1, successors. simpl. rewrite lookup_empty. simpl.
  unfold depends_on. set_solver.
Qed.

Lemma invert_edge_dict_dom G b :
  b ∈ dom (dd_items (invert_edge_dict O G)) ↔ ∃ a, depends_on G a b.
Proof.
  unfold invert_edge_dict. rewrite invert_fold_dom.
  setoid_rewrite elem_of_dict_items. simpl.
  rewrite dom_empty. unfold depends_on. set_solver.
Qed.

(** *** The state on entry to the frontier loop *)

Lemma collect_terminal_fold l (acc : gset T) (ed : defaultdict T) :
  (∀ x, x ∈ (foldl collect_terminal (acc, ed) l).1
        ↔ x ∈ acc ∨ (x ∈ l ∧ dd_lookup ed x = ∅)) ∧
  (∀ k, dd_lookup (foldl collect_terminal (acc, ed) l).2 k = dd_lookup ed k).
Proof.
  revert acc ed. induction l as [|node l IH]; intros acc ed; simpl.
  - split; [|done]. intros x. rewrite elem_of_nil. naive_solver.
  - pose proof (defaultdict_getitem_fst ed node) as H1.
    pose proof (defaultdict_getitem_snd ed node) as H2.
    destruct (defaultdict_getitem ed node) as [deps ed']. simpl in *. subst deps.
    destruct (IH (if decide (dd_lookup ed node = ∅) then acc ∪ {[node]} else acc)
                ed') as [IH1 IH2]. clear IH.
    split.
    + intros x. rewrite IH1, elem_of_cons, H2. clear IH1 IH2.
      case_decide; set_solver.
    + intros k. by rewrite IH2, H2.
Qed.

Lemma init_counters_fold l (a : gmap T bool) (m : gmap T nat) x :
  (foldl init_counters (a, m) l).1 !! x
    = (if decide (x ∈ l) then Some false else a !! x) ∧
  (foldl init_counters (a, m) l).2 !! x
    = (if decide (x ∈ l) then Some 0 else m !! x).
Proof.
  revert a m. induction l as [|node l IH]; intros a m; cbn [foldl].
  - by rewrite !decide_False by apply not_elem_of_nil.
  - change (init_counters (a, m) node)
      with (<[node:=false]> a, <[node:=0]> m).
    destruct (IH (<[node:=false]> a) (<[node:=0]> m)) as [-> ->]. clear IH.
    destruct (decide (x ∈ l)).
    + by rewrite !decide_True by (by right).
    + destruct (decide (x = node)) as [->|].
      * rewrite !decide_True by left. by rewrite !lookup_insert_eq.
      * rewrite !decide_False by (by rewrite elem_of_cons; intros [?|?]).
        by rewrite !lookup_insert_ne.
Qed.

(** *** The dependants loop *)

Lemma add_dependants l (fr : gset T) (met : gmap T nat) :
  NoDup l →
  (∀ x, x ∈ l → is_Some (met !! x)) →
  ∃ fr' met',
    for_each add_dependant l (fr, met) = Ret (fr', met') ∧
    (∀ x, x ∈ fr' ↔ x ∈ fr ∨ x ∈ l) ∧
    (∀ x, met' !! x = (λ n, if decide (x ∈ l) then n + 1 else n) <$> met !! x).
Proof.
  revert fr met. induction l as [|d l IH]; intros fr met Hnd Hdom; simpl.
  - exists fr, met. split; [done|]. split.
    + intros x. rewrite elem_of_nil. naive_solver.
    + intros x. by destruct (met !! x).
  - apply NoDup_cons in Hnd as [Hd Hnd].
    destruct (Hdom d) as [n Hn]; [left|].
    unfold dict_getitem. rewrite Hn. simpl.
    destruct (IH (fr ∪ {[d]}) (<[d:=n + 1]> met) Hnd) as (fr'&met'&->&Hfr&Hmet).
    { intros x Hx. rewrite lookup_insert_ne; [apply Hdom; by right|].
      intros ->. done. }
    exists fr', met'. split; [done|]. split.
    + intros x. rewrite Hfr, elem_of_cons. set_solver.
    + intros x. rewrite Hmet. destruct (decide (x = d)) as [->|Hne].
      * rewrite lookup_insert_eq, Hn. simpl.
        rewrite decide_False by done. by rewrite decide_True by left.
      * rewrite lookup_insert_ne by done. destruct (met !! x); simpl; [|done].
        f_equal. destruct (decide (x ∈ l)).
        -- by rewrite decide_True by (by right).
        -- by rewrite decide_False by (rewrite elem_of_cons; naive_solver).
Qed.

(** *** The invariant of the frontier loop *)

Section frontier_loop.
Variable G : graph.

Definition placed (st : ts_state) : gset T := list_to_set (sorted_ordering st).

Record ts_inv (st : ts_state) : Prop := TsInv {
  (* the wrappers still answer every lookup as on entry *)
  inv_ed k : dd_lookup (edge_dictionary st) k = successors G k;
  inv_inverted a b :
    a ∈ dd_lookup (inverted_edge_dict st) b ↔ depends_on G a b;
  (* no node is appended twice *)
  inv_nodup : NoDup (sorted_ordering st);
  inv_placed_nodes : placed st ⊆ edge_dict_to_node_set O G;
  inv_frontier_nodes : frontier st ⊆ edge_dict_to_node_set O G;
  inv_frontier_new : frontier st ## placed st;
  (* the counter of a node counts its dependencies placed so far *)
  inv_met n :
    node_to_num_dependencies_met st !! n =
      if decide (n ∈ edge_dict_to_node_set O G)
      then Some (size (successors G n ∩ placed st)) else None;
  inv_added n :
    node_to_is_added st !! n =
      if decide (n ∈ edge_dict_to_node_set O G)
      then Some (bool_decide (n ∈ placed st)) else None;
  (* a placed node comes after all its dependencies *)
  inv_before j a b :
    sorted_ordering st !! j = Some a → depends_on G a b →
    ∃ i, i < j ∧ sorted_ordering st !! i = Some b;
  (* a node all of whose dependencies are placed is placed or waiting *)
  inv_ready n :
    n ∈ edge_dict_to_node_set O G → n ∉ placed st →
    successors G n ⊆ placed st → n ∈ frontier st;
}.

(** Strictly decreases with every iteration of the loop. *)
Definition potential (st : ts_state) : nat :=
  size (frontier st)
  + (size (edge_dict_to_node_set O G) + 1)
    * size (edge_dict_to_node_set O G ∖ placed st).

Lemma successors_nodes a b :
  b ∈ successors G a →
  a ∈ edge_dict_to_node_set O G ∧ b ∈ edge_dict_to_node_set O G.
Proof.
  intros Hab%depends_on_successors. rewrite !elem_of_edge_dict_to_node_set.
  split; [left|right; eauto]. destruct Hab as (s&?&?). apply elem_of_dom. eauto.
Qed.

Lemma ts_init_inv : ts_inv (ts_init O G).
Proof.
  unfold ts_init.
  pose proof (collect_terminal_fold (set_iter O (edge_dict_to_node_set O G)) ∅
                (DefaultDict G)) as [Hterm Hed].
  pose proof (init_counters_fold (set_iter O (edge_dict_to_node_set O G)) ∅ ∅)
    as Hcnt.
  destruct (foldl collect_terminal _ _) as [terminal ed].
  destruct (foldl init_counters _ _) as [added met]. simpl in *.
  split; simpl; unfold placed; simpl.
  - done.
  - apply invert_edge_dict_lookup.
  - constructor.
  - set_solver.
  - intros x. rewrite Hterm, elem_of_set_iter. set_solver.
  - set_solver.
  - intros n. destruct (Hcnt n) as [_ ->]. rewrite lookup_empty.
    destruct (decide (n ∈ edge_dict_to_node_set O G)).
    + rewrite decide_True by (by apply elem_of_set_iter).
      f_equal. symmetry. apply size_empty_iff. set_solver.
    + by rewrite decide_False by (by rewrite elem_of_set_iter).
  - intros n. destruct (Hcnt n) as [-> _]. rewrite lookup_empty.
    destruct (decide (n ∈ edge_dict_to_node_set O G)).
    + rewrite decide_True by (by apply elem_of_set_iter).
      by rewrite bool_decide_eq_false_2 by set_solver.
    + by rewrite decide_False by (by rewrite elem_of_set_iter).
  - intros j a b Hj. by rewrite lookup_nil in Hj.
  - intros n Hn _ Hsub. apply Hterm. right. rewrite elem_of_set_iter.
    split; [done|]. set_solver.
Qed.

Lemma size_inter_add (D P : gset T) c :
  c ∉ P →
  size (D ∩ (P ∪ {[c]}))
  = (if decide (c ∈ D) then size (D ∩ P) + 1 else size (D ∩ P)).
Proof.
  intros Hc. case_decide.
  - replace (D ∩ (P ∪ {[c]})) with ((D ∩ P) ∪ {[c]}) by set_solver.
    rewrite size_union by set_solver. by rewrite size_singleton.
  - f_equal. set_solver.
Qed.

Lemma inter_full (D P : gset T) : size D ≤ size (D ∩ P) → D ⊆ P.
Proof.
  intros Hle. assert (D ∩ P = D) as <-; [|set_solver].
  apply set_subseteq_size_eq; [set_solver|done].
Qed.

Lemma frontier_step_inv st :
  ts_inv st → frontier st ≠ ∅ →
  ∃ st', frontier_step O st = Ret st' ∧ ts_inv st' ∧
         potential st' < potential st ∧ pops st' = S (pops st).
Proof.
  intros Hinv Hne. unfold frontier_step.
  destruct (set_pop O (pops st) (frontier st)) as [c|] eqn:Hpop;
    [|by apply set_pop_None in Hpop].
  apply set_pop_Some in Hpop.
  assert (c ∈ edge_dict_to_node_set O G) as HcN
    by (by apply (inv_frontier_nodes _ Hinv)).
  assert (c ∉ placed st) as Hcnew.
  { pose proof (inv_frontier_new _ Hinv). set_solver. }
  unfold dict_getitem at 1. rewrite (inv_met _ Hinv), decide_True by done.
  cbn [mbind res_bind].
  pose proof (defaultdict_getitem_fst (edge_dictionary st) c) as Hdeps.
  pose proof (defaultdict_getitem_snd (edge_dictionary st) c) as Hed.
  destruct (defaultdict_getitem (edge_dictionary st) c) as [deps ed'].
  simpl in Hdeps, Hed. rewrite (inv_ed _ Hinv) in Hdeps. subst deps.
  assert (size (frontier st ∖ {[c]}) < size (frontier st)) as Hpopped.
  { apply subset_size. set_solver. }
  case_decide as Hmet.
  - (* not all dependencies placed: the entry is dropped *)
    eexists. split; [done|].
    split; [|split; [unfold potential, placed; simpl; lia|done]].
    destruct Hinv. split; simpl; unfold placed in *; simpl; try done.
    + intros k. by rewrite Hed.
    + set_solver.
    + set_solver.
    + intros n Hn Hnew Hsub. apply elem_of_difference. split; [by auto|].
      intros ->%elem_of_singleton.
      assert (successors G c ∩ list_to_set (sorted_ordering st) = successors G c)
        as Heq by set_solver.
      rewrite Heq in Hmet. lia.
  - (* all dependencies placed: the node is appended *)
    assert (successors G c ⊆ placed st) as Hdone by (apply inter_full; lia).
    assert (c ∉ successors G c) as Hself by set_solver.
    pose proof (defaultdict_getitem_fst (inverted_edge_dict st) c) as Hdts.
    destruct (defaultdict_getitem (inverted_edge_dict st) c) as [dts inv'] eqn:Hget.
    simpl in Hdts. subst dts.
    assert (∀ a b, a ∈ dd_lookup inv' b ↔ depends_on G a b) as Hinv'.
    { intros a b. replace inv' with (defaultdict_getitem (inverted_edge_dict st) c).2
        by (by rewrite Hget).
      rewrite defaultdict_getitem_snd. apply Hinv. }
    clear Hget.
    assert (∀ x, x ∈ dd_lookup (inverted_edge_dict st) c ↔ c ∈ successors G x)
      as Hdts.
    { intros x. by rewrite (inv_inverted _ Hinv), depends_on_successors. }
    destruct (add_dependants (set_iter O (dd_lookup (inverted_edge_dict st) c))
                (frontier st ∖ {[c]}) (node_to_num_dependencies_met st))
      as (fr'&met'&->&Hfr&Hmet').
    { apply NoDup_set_iter. }
    { intros x Hx%elem_of_set_iter%Hdts%successors_nodes.
      rewrite (inv_met _ Hinv), decide_True by tauto. eauto. }
    cbn [mbind res_bind].
    setoid_rewrite elem_of_set_iter in Hfr.
    assert (∀ x, x ∈ fr' → x ∈ edge_dict_to_node_set O G) as HfrN.
    { intros x [Hx|Hx%Hdts%successors_nodes]%Hfr; [|tauto].
      apply (inv_frontier_nodes _ Hinv). set_solver. }
    eexists. split; [done|]. split.
    + assert (list_to_set (sorted_ordering st ++ [c])
              = (list_to_set (sorted_ordering st) ∪ {[c]} : gset T)) as Hpl.
      { set_solver. }
      destruct Hinv. split; simpl; unfold placed in *; simpl;
        rewrite ?Hpl; try done.
      * intros k. by rewrite Hed.
      * apply NoDup_app. split; [done|]. split; [|apply NoDup_singleton].
        intros x Hx ->%list_elem_of_singleton. apply Hcnew.
        by apply elem_of_list_to_set.
      * set_solver.
      * intros x Hx [Hp|Hxc%elem_of_singleton]%elem_of_union; [|subst x].
        -- apply Hfr in Hx as [Hx|Hx%Hdts]; [set_solver|].
           apply elem_of_list_to_set, list_elem_of_lookup in Hp as [j Hj].
           destruct (inv_before0 j x c Hj) as (i&_&Hi);
             [by apply depends_on_successors|].
           apply Hcnew, elem_of_list_to_set, list_elem_of_lookup. eauto.
        -- apply Hfr in Hx as [Hx|Hx%Hdts]; set_solver.
      * intros n. rewrite Hmet', inv_met0, size_inter_add by done.
        destruct (decide (n ∈ edge_dict_to_node_set O G)); [|done]. simpl.
        f_equal.
        destruct (decide (c ∈ successors G n)).
        -- by rewrite decide_True by (by apply elem_of_set_iter, Hdts).
        -- by rewrite decide_False by (by rewrite elem_of_set_iter, Hdts).
      * intros n. destruct (decide (n = c)) as [->|Hnc].
        -- rewrite lookup_insert_eq, decide_True by done.
           by rewrite bool_decide_eq_true_2 by set_solver.
        -- rewrite lookup_insert_ne, inv_added0 by done.
           destruct (decide (n ∈ edge_dict_to_node_set O G)); [|done].
           f_equal. apply bool_decide_ext. set_solver.
      * intros j a b Hj Hab.
        destruct (decide (j < length (sorted_ordering st))) as [Hlt|Hge].
        -- rewrite lookup_app_l in Hj by done.
           destruct (inv_before0 j a b Hj Hab) as (i&?&Hi).
           exists i. split; [done|]. rewrite lookup_app_l by lia. done.
        -- assert (a = c) as ->.
           { rewrite lookup_app_r in Hj by lia.
             by apply list_elem_of_lookup_2, list_elem_of_singleton in Hj. }
           apply depends_on_successors, Hdone, elem_of_list_to_set,
             list_elem_of_lookup in Hab as [i Hi].
           exists i. pose proof (lookup_lt_Some _ _ _ Hi).
           split; [lia|]. by rewrite lookup_app_l.
      * intros n Hn Hnew Hsub. apply Hfr.
        destruct (decide (c ∈ successors G n)); [right; by apply Hdts|left].
        apply elem_of_difference. split; [|set_solver].
        apply inv_ready0; set_solver.
    + split; [|done]. unfold potential, placed in *. simpl.
      replace (list_to_set (sorted_ordering st ++ [c]) : gset T)
        with (list_to_set (sorted_ordering st) ∪ {[c]} : gset T) by set_solver.
      assert (size fr' ≤ size (edge_dict_to_node_set O G)) as Hle
        by (apply subseteq_size; set_solver).
      assert (size (edge_dict_to_node_set O G
                    ∖ (list_to_set (sorted_ordering st) ∪ {[c]}))
              < size (edge_dict_to_node_set O G
                      ∖ list_to_set (sorted_ordering st)))
        as Hlt by (apply subset_size; set_solver).
      nia.
Qed.

Lemma frontier_loop_inv fuel st :
  ts_inv st → potential st ≤ fuel →
  ∃ st', frontier_loop O fuel st = Ret st' ∧ ts_inv st' ∧ frontier st' = ∅ ∧
         pops st' ≤ pops st + potential st.
Proof.
  revert st. induction fuel as [|fuel IH]; intros st Hinv Hfuel; simpl.
  - assert (frontier st = ∅) as Hempty.
    { apply leibniz_equiv, size_empty_iff. unfold potential in Hfuel. lia. }
    rewrite decide_True by done. exists st. split_and!; [done..|lia].
  - case_decide as Hempty; [exists st; split_and!; [done..|lia]|].
    destruct (frontier_step_inv st Hinv Hempty) as (st1&->&Hinv1&Hlt&Hpops).
    cbn [mbind res_bind].
    destruct (IH st1) as (st'&?&?&?&?); [done|lia|].
    exists st'. split_and!; [done..|lia].
Qed.

Lemma ts_init_potential : potential (ts_init O G) ≤ ts_fuel O G.
Proof.
  pose proof (inv_frontier_nodes _ ts_init_inv) as Hfr%subseteq_size.
  unfold potential, ts_fuel.
  assert (size (edge_dict_to_node_set O G ∖ placed (ts_init O G))
          ≤ size (edge_dict_to_node_set O G)) by (apply subseteq_size; set_solver).
  nia.
Qed.

Lemma ts_init_pops : pops (ts_init O G) = 0.
Proof. unfold ts_init. by destruct (foldl _ _ _), (foldl _ _ _). Qed.

(** [all(node_to_is_added.values())] *)
Lemma all_added st :
  ts_inv st →
  forallb id (dict_items O (node_to_is_added st)).*2 = true
  ↔ edge_dict_to_node_set O G ⊆ placed st.
Proof.
  intros Hinv. rewrite forallb_forall. split.
  - intros Hall x Hx. specialize (Hall (bool_decide (x ∈ placed st))).
    pose proof (inv_added _ Hinv x) as Hlook. rewrite decide_True in Hlook by done.
    apply (bool_decide_eq_true_1 (x ∈ placed st)), Hall, list_elem_of_In,
      list_elem_of_fmap.
    exists (x, bool_decide (x ∈ placed st)). split; [done|].
    by apply elem_of_dict_items.
  - intros Hsub b Hb. apply list_elem_of_In, list_elem_of_fmap in Hb
      as ([k b']&->&Hk%elem_of_dict_items). simpl.
    rewrite (inv_added _ Hinv) in Hk. case_decide; simplify_eq.
    apply bool_decide_eq_true. auto.
Qed.

(** A placed node comes after everything it transitively depends on. *)
Lemma before_tc st a b :
  ts_inv st → tc (depends_on G) a b →
  ∀ j, sorted_ordering st !! j = Some a →
       ∃ i, i < j ∧ sorted_ordering st !! i = Some b.
Proof.
  intros Hinv. induction 1 as [a b Hab|a m b Ham _ IH]; intros j Hj.
  - by apply (inv_before _ Hinv j a b).
  - destruct (inv_before _ Hinv j a m Hj Ham) as (k&?&Hk).
    destruct (IH k Hk) as (i&?&?). exists i. split; [lia|done].
Qed.

Lemma all_placed_acyclic st :
  ts_inv st → edge_dict_to_node_set O G ⊆ placed st → acyclic G.
Proof.
  intros Hinv Hall n Hcyc.
  assert (n ∈ edge_dict_to_node_set O G) as Hn.
  { apply elem_of_edge_dict_to_node_set. left.
    inversion Hcyc as [?? (s&?&?)|??? (s&?&?)]; apply elem_of_dom; eauto. }
  apply Hall, elem_of_list_to_set, list_elem_of_lookup in Hn as [j Hj].
  destruct (before_tc st n n Hinv Hcyc j Hj) as (i&Hlt&Hi).
  pose proof (NoDup_lookup _ _ _ _ (inv_nodup _ Hinv) Hi Hj). lia.
Qed.

End frontier_loop.

(** A finite set of nodes each of which has a successor inside the set is
    empty when the relation is a strict order. *)
Lemma no_sink_empty (S : relation T) (U : gset T) :
  Transitive S → Irreflexive S →
  (∀ x, x ∈ U → ∃ y, y ∈ U ∧ S x y) → U = ∅.
Proof.
  intros Htrans Hirr. pattern U. apply set_ind_L; clear U; [done|].
  intros x X Hx IH Hsucc. exfalso.
  destruct (Hsucc x) as (y&Hy&Hxy); [set_solver|].
  assert (y ∈ X) as HyX.
  { apply elem_of_union in Hy as [->%elem_of_singleton|?]; [|done].
    by apply Hirr in Hxy. }
  rewrite IH in HyX; [set_solver|].
  intros z Hz. destruct (Hsucc z) as (y'&Hy'&Hzy'); [set_solver|].
  apply elem_of_union in Hy' as [->%elem_of_singleton|?]; [|by eauto].
  exists y. split; [done|]. by trans x.
Qed.

Lemma stuck_not_acyclic G st :
  ts_inv G st → frontier st = ∅ → acyclic G →
  edge_dict_to_node_set O G ⊆ placed st.
Proof.
  intros Hinv Hempty Hacyc.
  assert (edge_dict_to_node_set O G ∖ placed st = ∅) as Hnone; [|set_solver].
  apply (no_sink_empty (tc (depends_on G))).
  - apply _.
  - exact Hacyc.
  - intros x [HxN Hx]%elem_of_difference.
    destruct (decide (successors G x ∖ placed st = ∅)) as [Hsub|Hsome].
    { assert (x ∈ frontier st) as Hfr
        by (apply (inv_ready _ _ Hinv); [done|done|set_solver]).
      rewrite Hempty in Hfr. by apply not_elem_of_empty in Hfr. }
    apply set_choose_L in Hsome as [y Hy].
    apply elem_of_difference in Hy as [Hy Hynew].
    exists y. split.
    + apply elem_of_difference. split; [|done]. by apply (successors_nodes G x y).
    + by apply tc_once, depends_on_successors.
Qed.

(** What [topological_sort] returns, given enough iterations. *)
Lemma topological_sort_spec G fuel :
  ts_fuel O G ≤ fuel →
  (∃ l, topological_sort O fuel G = Ret (Some l) ∧ acyclic G ∧ NoDup l ∧
        (∀ x, x ∈ l ↔ is_node G x) ∧
        (∀ j a b, l !! j = Some a → depends_on G a b →
                  ∃ i, i < j ∧ l !! i = Some b)) ∨
  (topological_sort O fuel G = Ret None ∧ ¬ acyclic G).
Proof.
  intros Hfuel. unfold topological_sort.
  destruct (frontier_loop_inv G fuel (ts_init O G)) as (st&->&Hinv&Hempty&_).
  { apply ts_init_inv. }
  { pose proof (ts_init_potential G). lia. }
  cbn [mbind res_bind].
  destruct (forallb id _) eqn:Hall.
  - apply (all_added G st Hinv) in Hall. left. eexists. split; [done|].
    split; [by eapply all_placed_acyclic|]. split; [apply Hinv|]. split; [|apply Hinv].
    intros x. rewrite <-elem_of_edge_dict_to_node_set.
    pose proof (inv_placed_nodes _ _ Hinv). unfold placed in *. set_solver.
  - right. split; [done|]. intros Hacyc.
    apply (stuck_not_acyclic G st Hinv Hempty), (all_added G st Hinv) in Hacyc.
    congruence.
Qed.


(** *** The depth-first search *)

Lemma tc_first (R : relation T) a b :
  tc R a b → ∃ c, R a c ∧ rtc R c b.
Proof.
  destruct 1 as [a b ?|a c b ? ?%tc_rtc]; eauto using rtc_refl.
Qed.

Lemma cycle_node G n : tc (depends_on G) n n → n ∈ edge_dict_to_node_set O G.
Proof.
  intros (c&Hc%depends_on_successors&_)%tc_first.
  by apply (successors_nodes G n c).
Qed.

(** With recursion depth left for every node not yet on the active path, the
    helper returns; [True] restores the active path and means that nothing
    reachable from the current node is on the path or on a cycle; [False]
    means a cycle, provided the path leads to the current node. *)
Lemma is_graph_acylic_helper_spec G fuel seen ed cur :
  (∀ k, dd_lookup ed k = successors G k) →
  cur ∈ edge_dict_to_node_set O G →
  size (edge_dict_to_node_set O G ∖ seen) < fuel →
  ∃ b seen' ed',
    is_graph_acylic_helper O fuel (seen, ed) cur = Ret (b, (seen', ed')) ∧
    (∀ k, dd_lookup ed' k = successors G k) ∧
    (b = true → seen' = seen ∧
       ∀ m, rtc (depends_on G) cur m →
            (m ∉ seen) ∧ (¬ tc (depends_on G) m m)) ∧
    (b = false → (∀ s, s ∈ seen → tc (depends_on G) s cur) → cyclic G).
Proof.
  revert seen ed cur.
  induction fuel as [|fuel IH]; intros seen ed cur Hed Hcur Hfuel; [lia|].
  cbn [is_graph_acylic_helper]. case_decide as Hseen.
  { exists false, seen, ed. split; [done|]. split; [done|]. split; [done|].
    intros _ Hpath. exists cur. auto. }
  pose proof (defaultdict_getitem_fst ed cur) as Hnext.
  pose proof (defaultdict_getitem_snd ed cur) as Hed1.
  destruct (defaultdict_getitem ed cur) as [next_nodes ed1].
  simpl in Hnext, Hed1. rewrite Hed in Hnext. subst next_nodes.
  assert (∀ k, dd_lookup ed1 k = successors G k) as Hed1'
    by (intros k; by rewrite Hed1).
  clear Hed1 Hed. revert ed1 Hed1'.
  assert (size (edge_dict_to_node_set O G ∖ (seen ∪ {[cur]})) < fuel) as Hfuel'.
  { assert (edge_dict_to_node_set O G ∖ (seen ∪ {[cur]})
            ⊂ edge_dict_to_node_set O G ∖ seen) as ?%subset_size by set_solver.
    lia. }
  assert (∀ l ed1,
    (∀ c, c ∈ l → c ∈ successors G cur) →
    (∀ k, dd_lookup ed1 k = successors G k) →
    ∃ b seen' ed',
      for_all (is_graph_acylic_helper O fuel) l (seen ∪ {[cur]}, ed1)
        = Ret (b, (seen', ed')) ∧
      (∀ k, dd_lookup ed' k = successors G k) ∧
      (b = true → seen' = seen ∪ {[cur]} ∧
         ∀ c m, c ∈ l → rtc (depends_on G) c m →
                (m ∉ seen ∪ {[cur]}) ∧ (¬ tc (depends_on G) m m)) ∧
      (b = false → (∀ s, s ∈ seen → tc (depends_on G) s cur) → cyclic G))
    as Hloop.
  { induction l as [|c l IHl]; intros ed1 Hl Hed1; simpl.
    - exists true, (seen ∪ {[cur]}), ed1. split; [done|]. split; [done|].
      split; [|done]. intros _. split; [done|]. by intros c m ?%elem_of_nil.
    - destruct (IH (seen ∪ {[cur]}) ed1 c Hed1) as (b&seen'&ed'&->&Hed'&Ht&Hf);
        [|done|].
      { apply (successors_nodes G cur c), Hl. left. }
      cbn [mbind res_bind]. destruct b.
      + destruct Ht as [-> Hc]; [done|].
        destruct (IHl ed') as (b&seen'&ed''&->&Hed''&Ht'&Hf'); [|done|].
        { intros c' ?. apply Hl. by right. }
        exists b, seen', ed''. split; [done|]. split; [done|]. split; [|done].
        intros ->. destruct Ht' as [-> Hl']; [done|]. split; [done|].
        intros c' m [->|?]%elem_of_cons; eauto.
      + exists false, seen', ed'. split; [done|]. split; [done|]. split; [done|].
        intros _ Hpath. apply Hf; [done|].
        assert (depends_on G cur c) by (apply depends_on_successors, Hl; left).
        intros s [?|Hs%elem_of_singleton]%elem_of_union.
        * eapply tc_r; eauto.
        * subst s. by apply tc_once. }
  intros ed1 Hed1.
  destruct (Hloop (set_iter O (successors G cur)) ed1)
    as (b&seen'&ed'&->&Hed'&Ht&Hf); [|done|].
  { intros c. by rewrite elem_of_set_iter. }
  cbn [mbind res_bind]. destruct b.
  - destruct Ht as [-> Hsub]; [done|].
    rewrite decide_True by set_solver.
    exists true, ((seen ∪ {[cur]}) ∖ {[cur]}), ed'. split; [done|]. split; [done|].
    split; [|done]. intros _. split; [set_solver|].
    assert (∀ c m, depends_on G cur c → rtc (depends_on G) c m →
                   (m ∉ seen ∪ {[cur]}) ∧ (¬ tc (depends_on G) m m)) as Hsub'.
    { intros c m Hc. apply Hsub. by apply elem_of_set_iter, depends_on_successors. }
    intros m [<-|(c&Hc&Hcm)]%rtc_inv.
    + split; [done|]. intros (c&Hc&Hback)%tc_first.
      destruct (Hsub' c cur Hc Hback). set_solver.
    + destruct (Hsub' c m Hc Hcm). set_solver.
  - exists false, seen', ed'. split; [done|]. split; [done|]. split; [done|]. auto.
Qed.

(** What [is_graph_acylic_DFS] returns, given enough recursion depth. *)
Lemma is_graph_acylic_DFS_spec G fuel :
  dfs_fuel O G ≤ fuel →
  (is_graph_acylic_DFS O fuel G = Ret true ∧ acyclic G) ∨
  (is_graph_acylic_DFS O fuel G = Ret false ∧ cyclic G).
Proof.
  unfold dfs_fuel. intros Hfuel. unfold is_graph_acylic_DFS. cbn [dd_items].
  assert (∀ l ed,
    (∀ c, c ∈ l → c ∈ edge_dict_to_node_set O G) →
    (∀ k, dd_lookup ed k = successors G k) →
    ∃ b ed',
      for_all (λ edge_dictionary start_node,
                 '(ok, (_, edge_dictionary)) ←
                   is_graph_acylic_helper O fuel (∅, edge_dictionary) start_node;
                 Ret (ok, edge_dictionary)) l ed = Ret (b, ed') ∧
      (b = true → ∀ c, c ∈ l → ¬ tc (depends_on G) c c) ∧
      (b = false → cyclic G)) as Hloop.
  { induction l as [|c l IHl]; intros ed Hl Hed; simpl.
    - exists true, ed. split; [done|]. split; [|done]. by intros _ c ?%elem_of_nil.
    - destruct (is_graph_acylic_helper_spec G fuel ∅ ed c Hed)
        as (b&seen'&ed'&->&Hed'&Ht&Hf).
      { apply Hl. left. }
      { assert (size (edge_dict_to_node_set O G ∖ ∅)
                ≤ size (edge_dict_to_node_set O G))
          by (apply subseteq_size; set_solver).
        lia. }
      cbn [mbind res_bind]. destruct b.
      + destruct (IHl ed') as (b&ed''&->&Ht'&Hf'); [|done|].
        { intros c' ?. apply Hl. by right. }
        exists b, ed''. split; [done|]. split; [|done].
        intros Hb c' [->|?]%elem_of_cons; [|by auto].
        destruct Ht as [_ Hc]; [done|]. by destruct (Hc c).
      + exists false, ed'. split; [done|]. split; [done|].
        intros _. apply Hf; [done|]. set_solver. }
  destruct (Hloop (set_iter O (edge_dict_to_node_set O G)) (DefaultDict G))
    as (b&ed'&->&Ht&Hf); [|done|].
  { intros c. by rewrite elem_of_set_iter. }
  cbn [mbind res_bind]. destruct b; [left|right; by auto].
  split; [done|]. intros n Hn. apply (Ht eq_refl n); [|done].
  by apply elem_of_set_iter, cycle_node.
Qed.

Lemma index_lookup (l : list T) i x :
  NoDup l → l !! i = Some x → index x l = Some i.
Proof.
  revert i. induction l as [|y l IH]; intros i Hnd Hi; [by destruct i|].
  apply NoDup_cons in Hnd as [Hy Hnd]. destruct i as [|i]; simpl in *.
  - simplify_eq. by rewrite decide_True.
  - rewrite decide_False.
    + by rewrite (IH i).
    + intros ->. by apply list_elem_of_lookup_2 in Hi.
Qed.

Lemma acyclic_by_DFS G fuel :
  dfs_fuel O G ≤ fuel → is_graph_acylic_DFS O fuel G = Ret true → acyclic G.
Proof.
  intros [[_ ?]|[? _]]%is_graph_acylic_DFS_spec ?; [done|congruence].
Qed.

Lemma cyclic_by_DFS G fuel :
  dfs_fuel O G ≤ fuel → is_graph_acylic_DFS O fuel G = Ret false → cyclic G.
Proof.
  intros [[? _]|[_ ?]]%is_graph_acylic_DFS_spec ?; [congruence|done].
Qed.

Lemma cyclic_not_acyclic (G : graph) : cyclic G → ¬ acyclic G.
Proof. intros [n Hn] Hacyc. by apply (Hacyc n). Qed.

End dag_utils_facts.

(** * The store computations against the functions on values *)

Module HeapFacts.

Import Heap.

Section refinement.
Context `{Countable T}.
Variable O : @py_order T _ _.

Abbreviation heap := (gmap loc (@pyobj T _ _)).

Implicit Types (h : heap) (l d x v : loc) (s : gset T).
Implicit Types (items : gmap T loc) (m : gmap T (gset T)).

(** The object at [d] is a [defaultdict(set)] that holds [ed]. *)
Definition dd_at h d (ed : defaultdict T) : Prop :=
  ∃ items, h !! d = Some (PyDict true items) ∧ items_rep h items (dd_items ed).

(** The dict at [d] holds no reference to [x]. *)
Definition no_ref h d x : Prop :=
  ∀ default_factory items k,
    h !! d = Some (PyDict default_factory items) → items !! k ≠ Some x.

(** The objects of [h] outside [L] are the same in [h']. *)
Definition modifies (L : gset loc) h h' : Prop :=
  ∀ l, l ∉ L → l ∈ dom h → h' !! l = h !! l.

(** The store computation [c] does what the computation on values [p]
    does: it returns when [p] returns, with results related by [R], and
    stops as [p] stops otherwise. *)
Definition sim {A B} (R : A → heap → B → Prop) (c : res (A * heap)) (p : res B)
    : Prop :=
  match p with
  | Ret b => ∃ a h', c = Ret (a, h') ∧ R a h' b
  | Raise e => c = Raise e
  | OutOfFuel => c = OutOfFuel
  end.

Lemma bind_ret {A B} (c : M A) (k : A → M B) h a h' :
  c h = Ret (a, h') → (c ≫= k) h = k a h'.
Proof. unfold mbind, M_bind. by intros ->. Qed.

Lemma bind_raise {A B} (c : M A) (k : A → M B) h e :
  c h = Raise e → (c ≫= k) h = Raise e.
Proof. unfold mbind, M_bind. by intros ->. Qed.

Lemma sim_bind {A A' B B'} (R : A → heap → B → Prop)
    (R' : A' → heap → B' → Prop) (c : M A) (k : A → M A')
    (p : res B) (kp : B → res B') h :
  sim R (c h) p →
  (∀ a h' b, R a h' b → sim R' (k a h') (kp b)) →
  sim R' ((c ≫= k) h) (p ≫= kp).
Proof.
  unfold sim at 1. destruct p as [b|e|]; simpl.
  - intros (a&h'&Hc&HR) Hk. rewrite (bind_ret _ _ _ _ _ Hc). by apply Hk.
  - intros Hc _. unfold mbind, M_bind. by rewrite Hc.
  - intros Hc _. unfold mbind, M_bind. by rewrite Hc.
Qed.

Lemma sim_post {A A' B} (R : A → heap → B → Prop) (R' : A' → heap → B → Prop)
    (c : M A) (f : A → A') (p : res B) h :
  sim R (c h) p →
  (∀ a h' b, R a h' b → R' (f a) h' b) →
  sim R' ((c ≫= λ a, mret (f a)) h) p.
Proof.
  unfold sim. destruct p as [b|e|]; simpl.
  - intros (a&h'&Hc&HR) Hk. rewrite (bind_ret _ _ _ _ _ Hc). eauto.
  - intros Hc _. unfold mbind, M_bind. by rewrite Hc.
  - intros Hc _. unfold mbind, M_bind. by rewrite Hc.
Qed.

(** *** The store operations *)

Lemma alloc_fresh (o : pyobj) h :
  ∃ l, alloc o h = Ret (l, <[l := o]> h) ∧ h !! l = None.
Proof.
  exists (fresh (dom h)). split; [done|]. apply not_elem_of_dom_1, is_fresh.
Qed.

Lemma set_get_is_set h l s : is_set h l s → set_get l h = Ret (s, h).
Proof. unfold set_get, is_set. by intros ->. Qed.

Lemma set_put_is_set h l s s' :
  is_set h l s → set_put l s' h = Ret ((), <[l := PySet s']> h).
Proof. unfold set_put, is_set. by intros ->. Qed.

Lemma set_add_is_set h l s (e : T) :
  is_set h l s → set_add l e h = Ret ((), <[l := PySet (s ∪ {[e]})]> h).
Proof.
  intros Hl. unfold set_add. rewrite (bind_ret _ _ _ _ _ (set_get_is_set _ _ _ Hl)).
  by apply set_put_is_set with s.
Qed.

Lemma set_remove_elem h l s (e : T) :
  is_set h l s → e ∈ s →
  set_remove l e h = Ret ((), <[l := PySet (s ∖ {[e]})]> h).
Proof.
  intros Hl He. unfold set_remove.
  rewrite (bind_ret _ _ _ _ _ (set_get_is_set _ _ _ Hl)).
  rewrite decide_True by done. by apply set_put_is_set with s.
Qed.

Lemma set_remove_missing h l s (e : T) :
  is_set h l s → e ∉ s → set_remove l e h = Raise KeyError.
Proof.
  intros Hl He. unfold set_remove.
  rewrite (bind_ret _ _ _ _ _ (set_get_is_set _ _ _ Hl)).
  by rewrite decide_False by done.
Qed.

Lemma dict_get_is_dict h l b items :
  h !! l = Some (PyDict b items) → dict_get l h = Ret ((b, items), h).
Proof. unfold dict_get. by intros ->. Qed.

Lemma dict_put_is_dict h l b items items' :
  h !! l = Some (PyDict b items) →
  dict_put l items' h = Ret ((), <[l := PyDict b items']> h).
Proof. unfold dict_put. by intros ->. Qed.

(** *** Dicts of references *)

Lemma items_rep_Some h items m k v :
  items_rep h items m → items !! k = Some v →
  ∃ s, is_set h v s ∧ m !! k = Some s.
Proof.
  intros Hrep Hk. specialize (Hrep k). rewrite Hk in Hrep.
  inversion Hrep; eauto.
Qed.

Lemma items_rep_None h items m k :
  items_rep h items m → items !! k = None → m !! k = None.
Proof.
  intros Hrep Hk. specialize (Hrep k). rewrite Hk in Hrep. by inversion Hrep.
Qed.

Lemma items_rep_dom h items m : items_rep h items m → dom items = dom m.
Proof.
  intros Hrep. apply set_eq. intros k. rewrite !elem_of_dom.
  specialize (Hrep k). inversion Hrep; split; intros [? ?]; by simplify_eq.
Qed.

Lemma items_rep_modifies L h h' items m :
  items_rep h items m → modifies L h h' →
  (∀ k v, items !! k = Some v → v ∉ L) →
  items_rep h' items m.
Proof.
  intros Hrep Hmod HL k. specialize (Hrep k).
  destruct (items !! k) as [v|] eqn:Hk; inversion Hrep as [?? Hv|]; simplify_eq;
    constructor.
  unfold is_set in *. rewrite Hmod; [done|by eapply HL|].
  apply elem_of_dom. eauto.
Qed.

Lemma items_rep_insert h items m k v s :
  items_rep h items m → is_set h v s →
  items_rep h (<[k := v]> items) (<[k := s]> m).
Proof.
  intros Hrep Hv k'. destruct (decide (k = k')) as [->|].
  - rewrite !lookup_insert_eq. by constructor.
  - rewrite !lookup_insert_ne by done. apply Hrep.
Qed.

Lemma items_rep_dict_items h items m :
  items_rep h items m →
  Forall2 (λ (p : T * loc) (q : T * gset T), p.1 = q.1 ∧ is_set h p.2 q.2)
          (dict_items O items) (dict_items O m).
Proof.
  intros Hrep. unfold dict_items. rewrite (items_rep_dom _ _ _ Hrep).
  induction (dict_keys O (dom m)) as [|k ks IH]; simpl; [constructor|].
  specialize (Hrep k). inversion Hrep; simpl; [|done]. by constructor.
Qed.

Lemma modifies_insert l o h : modifies {[l]} h (<[l := o]> h).
Proof. intros l' Hl' _. apply lookup_insert_ne. set_solver. Qed.

Lemma modifies_alloc L l o h : h !! l = None → modifies L h (<[l := o]> h).
Proof.
  intros Hl l' _ Hl'. apply lookup_insert_ne. intros ->.
  by apply not_elem_of_dom in Hl.
Qed.

Lemma modifies_trans L h1 h2 h3 :
  modifies L h1 h2 → modifies L h2 h3 → modifies L h1 h3.
Proof.
  intros H12 H23 l Hl Hdom. rewrite H23, H12; [done..|].
  apply elem_of_dom. rewrite H12 by done. by apply elem_of_dom.
Qed.

Lemma modifies_subseteq L h0 h h' :
  h0 ⊆ h → modifies L h h' → (∀ l, l ∈ L → h0 !! l = None) → h0 ⊆ h'.
Proof.
  intros Hsub Hmod HL. apply map_subseteq_spec. intros l o Hl.
  rewrite Hmod.
  - by eapply lookup_weaken.
  - intros ?%HL. congruence.
  - apply elem_of_dom. exists o. by eapply lookup_weaken.
Qed.

Lemma set_not_dict h l d s b items :
  is_set h l s → h !! d = Some (PyDict b items) → l ≠ d.
Proof. unfold is_set. intros ? ? ->. congruence. Qed.

Lemma dd_at_alloc h d ed l (o : pyobj) :
  dd_at h d ed → h !! l = None →
  dd_at (<[l := o]> h) d ed ∧ no_ref (<[l := o]> h) d l.
Proof.
  intros (items&Hd&Hrep) Hl.
  assert (l ≠ d) by congruence.
  assert (∀ k, items !! k ≠ Some l) as Hnew.
  { intros k Hk. destruct (items_rep_Some _ _ _ _ _ Hrep Hk) as (s&Hs&_).
    unfold is_set in Hs. congruence. }
  split.
  - exists items. rewrite lookup_insert_ne by done. split; [done|].
    apply (items_rep_modifies {[l]} h); [done|apply modifies_insert|].
    intros k v Hk ->%elem_of_singleton. by eapply Hnew.
  - intros b items' k. rewrite lookup_insert_ne by done. intros ?. by simplify_eq.
Qed.

Lemma dd_at_set_write h d ed x (o : pyobj) s :
  dd_at h d ed → no_ref h d x → is_set h x s →
  dd_at (<[x := o]> h) d ed ∧ no_ref (<[x := o]> h) d x.
Proof.
  intros (items&Hd&Hrep) Hno Hx.
  assert (x ≠ d) by (by eapply set_not_dict).
  split.
  - exists items. rewrite lookup_insert_ne by done. split; [done|].
    apply (items_rep_modifies {[x]} h); [done|apply modifies_insert|].
    intros k v Hk ->%elem_of_singleton. by eapply Hno.
  - intros b items' k. rewrite lookup_insert_ne by done. apply Hno.
Qed.

(** A lookup in a [defaultdict] of the store returns a reference to the
    set that the lookup on values returns, and changes at most the dict. *)
Lemma getitem_dd h d ed (k : T) :
  dd_at h d ed →
  ∃ v h', getitem d k h = Ret (v, h') ∧
    modifies {[d]} h h' ∧
    dd_at h' d (defaultdict_getitem ed k).2 ∧
    is_set h' v (defaultdict_getitem ed k).1 ∧
    (∀ x, x ∈ dom h → no_ref h d x → no_ref h' d x).
Proof.
  intros (items&Hd&Hrep). unfold getitem.
  rewrite (bind_ret _ _ _ _ _ (dict_get_is_dict _ _ _ _ Hd)).
  unfold defaultdict_getitem. destruct (items !! k) as [v|] eqn:Hk.
  - destruct (items_rep_Some _ _ _ _ _ Hrep Hk) as (s&Hs&->).
    exists v, h. split_and!; [done| |by exists items|done|done].
    by intros ???.
  - rewrite (items_rep_None _ _ _ _ Hrep Hk).
    destruct (alloc_fresh (PySet ∅) h) as (v&Hv&Hnew).
    assert (v ≠ d) by congruence.
    unfold set_new. rewrite (bind_ret _ _ _ _ _ Hv).
    erewrite bind_ret; [|apply dict_put_is_dict with items;
                          by rewrite lookup_insert_ne].
    assert (modifies {[d]} h
              (<[d:=PyDict true (<[k:=v]> items)]> (<[v:=PySet ∅]> h))) as Hmod.
    { eapply modifies_trans; [by apply modifies_alloc|apply modifies_insert]. }
    eexists v, _. split_and!; [done|done| | |].
    + exists (<[k := v]> items). rewrite lookup_insert_eq. split; [done|].
      simpl. apply items_rep_insert.
      * apply (items_rep_modifies {[d]} h); [done..|].
        intros k' v' Hk' ->%elem_of_singleton.
        destruct (items_rep_Some _ _ _ _ _ Hrep Hk') as (s&Hs&_).
        unfold is_set in Hs. congruence.
      * unfold is_set. rewrite lookup_insert_ne by done.
        by rewrite lookup_insert_eq.
    + unfold is_set. simpl. rewrite lookup_insert_ne by done.
      by rewrite lookup_insert_eq.
    + intros x Hx Hno b items' k'. rewrite lookup_insert_eq. intros ?.
      simplify_eq. destruct (decide (k = k')) as [->|].
      * rewrite lookup_insert_eq. intros ?. simplify_eq.
        by apply not_elem_of_dom in Hnew.
      * rewrite lookup_insert_ne by done. by eapply Hno.
Qed.

(** *** Objects created by the call *)

(** The defaultdict [d] and the set [seen] were created by the call, after
    the store [h0] it was entered with: [d] holds [st.2], [seen] holds
    [st.1], [d] has no reference to [seen], and the objects of [h0] are
    as they were. *)
Record own_inv (h0 : heap) (d seen : loc) (h : heap)
    (st : gset T * defaultdict T) : Prop := OwnInv {
  own_frame : h0 ⊆ h;
  own_dict_new : h0 !! d = None;
  own_set_new : h0 !! seen = None;
  own_set : is_set h seen st.1;
  own_dict : dd_at h d st.2;
  own_no_ref : no_ref h d seen;
}.

Lemma own_inv_write h0 d seen h S ed S' :
  own_inv h0 d seen h (S, ed) →
  own_inv h0 d seen (<[seen := PySet S']> h) (S', ed).
Proof.
  intros [? ? ? ? ? ?]. simpl in *.
  destruct (dd_at_set_write h d ed seen (PySet S') S) as [? ?]; [done..|].
  split; simpl; [|done|done| |done|done].
  - by apply insert_subseteq_r.
  - unfold is_set. by rewrite lookup_insert_eq.
Qed.

Lemma own_inv_getitem h0 d seen h S ed (k : T) :
  own_inv h0 d seen h (S, ed) →
  ∃ v h', getitem d k h = Ret (v, h') ∧
    own_inv h0 d seen h' (S, (defaultdict_getitem ed k).2) ∧
    is_set h' v (defaultdict_getitem ed k).1 ∧
    modifies {[d]} h h'.
Proof.
  intros [? ? ? Hseen Hd ?]. simpl in *.
  destruct (getitem_dd h d ed k Hd) as (v&h'&Hget&Hmod&Hd'&Hv&Hno).
  exists v, h'. split; [done|]. split; [|done].
  destruct Hd as (items&Hitems&_).
  split; simpl; [|done|done| |done|].
  - eapply modifies_subseteq; [done..|]. by intros l ->%elem_of_singleton.
  - unfold is_set. rewrite Hmod; [done| |by apply elem_of_dom; eauto].
    apply not_elem_of_singleton. by eapply set_not_dict.
  - apply Hno; [|done]. apply elem_of_dom. eauto.
Qed.

(** *** The depth-first search *)

Lemma is_graph_acylic_helper_sim h0 d seen fuel h st (cur : T) :
  own_inv h0 d seen h st →
  sim (λ b h' r, b = r.1 ∧ own_inv h0 d seen h' r.2)
      (Heap.is_graph_acylic_helper O fuel d seen cur h)
      (DAG_utils.is_graph_acylic_helper O fuel st cur).
Proof.
  revert h st cur. induction fuel as [|fuel IH]; intros h [S ed] cur Hinv; [done|].
  cbn [Heap.is_graph_acylic_helper DAG_utils.is_graph_acylic_helper].
  rewrite (bind_ret _ _ _ _ _ (set_get_is_set _ _ _ (own_set _ _ _ _ _ Hinv))).
  simpl. case_decide as Hcur.
  { exists false, h. done. }
  rewrite (bind_ret _ _ _ _ _ (set_add_is_set _ _ _ cur (own_set _ _ _ _ _ Hinv))).
  apply (own_inv_write _ _ _ _ _ _ (S ∪ {[cur]})) in Hinv.
  destruct (own_inv_getitem _ _ _ _ _ _ cur Hinv) as (v&h2&Hget&Hinv2&Hv&_).
  rewrite (bind_ret _ _ _ _ _ Hget).
  destruct (defaultdict_getitem ed cur) as [next_nodes ed1]. simpl in Hinv2, Hv.
  rewrite (bind_ret _ _ _ _ _ (set_get_is_set _ _ _ Hv)).
  clear Hinv Hv Hget. revert Hinv2. generalize (S ∪ {[cur]}). intros S1 Hinv.
  eapply (sim_bind (λ r h' r', r.1 = r'.1 ∧ own_inv h0 d seen h' r'.2)).
  - clear Hcur. revert Hinv. generalize (S1, ed1). clear S1 ed1. revert h2.
    induction (set_iter O next_nodes) as [|c l IHl]; intros h2 st Hinv; simpl.
    { exists (true, ()), h2. done. }
    eapply (sim_bind (λ r h' r', r.1 = r'.1 ∧ own_inv h0 d seen h' r'.2)).
    + eapply sim_post; [by apply IH|]. by intros b h' r [-> Hinv'].
    + intros [b []] h' [b' st'] [? Hinv']. simpl in *. subst b'.
      destruct b; [by apply IHl|]. by exists (false, ()), h'.
  - intros [b []] h' [b' [S' ed']] [? Hinv']. simpl in *. subst b'.
    destruct b; [|by exists false, h'].
    pose proof (own_set _ _ _ _ _ Hinv') as Hseen. simpl in Hseen.
    case_decide.
    + rewrite (bind_ret _ _ _ _ _ (set_remove_elem _ _ _ cur Hseen ltac:(done))).
      eexists true, _. split; [done|]. split; [done|].
      by apply (own_inv_write _ _ _ _ S').
    + by rewrite (bind_raise _ _ _ _ (set_remove_missing _ _ _ cur Hseen ltac:(done))).
Qed.

Lemma defaultdict_of_dict h (g : loc) b items :
  h !! g = Some (PyDict b items) →
  ∃ w, defaultdict_of g h = Ret (w, <[w := PyDict true items]> h) ∧
       h !! w = None.
Proof.
  intros Hg. unfold defaultdict_of.
  rewrite (bind_ret _ _ _ _ _ (dict_get_is_dict _ _ _ _ Hg)).
  apply alloc_fresh.
Qed.

Lemma is_set_weaken h h' l s : h ⊆ h' → is_set h l s → is_set h' l s.
Proof. intros ??. by eapply lookup_weaken. Qed.

Lemma items_rep_weaken h h' items m :
  h ⊆ h' → items_rep h items m → items_rep h' items m.
Proof.
  intros Hsub Hrep k. specialize (Hrep k).
  inversion Hrep; constructor. by eapply is_set_weaken.
Qed.

(** *** edge_dict_to_node_set *)

Lemma update_all_nodes_spec h0 h a acc (k : T) v s :
  h0 ⊆ h → h0 !! a = None → is_set h a acc → is_set h0 v s →
  ∃ h', update_all_nodes a () (k, v) h = Ret ((), h') ∧
        h0 ⊆ h' ∧ is_set h' a (acc ∪ ({[k]} ∪ s)).
Proof.
  intros Hsub Hnew Hacc Hv. unfold update_all_nodes, set_new.
  rewrite (bind_ret _ _ _ _ _
             (set_get_is_set _ _ _ (is_set_weaken _ _ _ _ Hsub Hv))).
  destruct (alloc_fresh (PySet ({[k]} ∪ s)) h) as (u&Hu&Hunew).
  rewrite (bind_ret _ _ _ _ _ Hu).
  assert (u ≠ a) by (unfold is_set in Hacc; congruence).
  erewrite bind_ret; [|apply set_get_is_set; apply lookup_insert_eq].
  erewrite bind_ret;
    [|apply set_get_is_set; unfold is_set; by rewrite lookup_insert_ne].
  erewrite set_put_is_set; [|unfold is_set; by rewrite lookup_insert_ne].
  eexists. split; [done|]. split; [|apply lookup_insert_eq].
  apply insert_subseteq_r; [done|].
  apply insert_subseteq_r; [by eapply lookup_weaken_None|done].
Qed.

Lemma edge_dict_to_node_set_spec h d b items m :
  h !! d = Some (PyDict b items) → items_rep h items m →
  ∃ a h', Heap.edge_dict_to_node_set O d h = Ret (a, h') ∧
          h ⊆ h' ∧ h !! a = None ∧
          is_set h' a (DAG_utils.edge_dict_to_node_set O m).
Proof.
  intros Hd Hrep. unfold Heap.edge_dict_to_node_set, set_new.
  destruct (alloc_fresh (PySet ∅) h) as (a&Ha&Hnew).
  rewrite (bind_ret _ _ _ _ _ Ha).
  assert (a ≠ d) by congruence.
  erewrite bind_ret; [|apply (dict_get_is_dict _ _ b items);
                        by rewrite lookup_insert_ne].
  cbn beta iota.
  assert (∀ (ps : list (T * loc)) (qs : list (T * gset T)) hi acc,
    Forall2 (λ (p : T * loc) (q : T * gset T), p.1 = q.1 ∧ is_set h p.2 q.2)
            ps qs →
    h ⊆ hi → is_set hi a acc →
    ∃ h', for_each (update_all_nodes a) ps () hi = Ret ((), h') ∧
          h ⊆ h' ∧
          is_set h' a (foldl (λ all_nodes '(from_node, to_node_set),
                                all_nodes ∪ ({[from_node]} ∪ to_node_set))
                             acc qs)) as Hloop.
  { intros ps qs hi acc Hl. revert hi acc.
    induction Hl as [|[k v] [k' s] ps qs [Hk Hv] _ IH]; intros hi acc Hsub Hacc;
      [by exists hi|]. simpl in Hk, Hv. subst k'.
    destruct (update_all_nodes_spec h hi a acc k v s) as (h'&Hbody&?&?);
      [done..|].
    cbn [for_each foldl]. rewrite (bind_ret _ _ _ _ _ Hbody). by apply IH. }
  destruct (Hloop (dict_items O items) (dict_items O m) (<[a:=PySet ∅]> h) ∅)
    as (h'&Hrun&Hsub&Hres).
  { by apply items_rep_dict_items. }
  { by apply insert_subseteq. }
  { apply lookup_insert_eq. }
  rewrite (bind_ret _ _ _ _ _ Hrun). by exists a, h'.
Qed.

(** *** is_graph_acylic_DFS *)

Lemma is_graph_acylic_DFS_sim h (g : loc) G fuel :
  represents h g G →
  sim (λ b h' b', b = b' ∧ h ⊆ h')
      (Heap.is_graph_acylic_DFS O fuel g h)
      (DAG_utils.is_graph_acylic_DFS O fuel G).
Proof.
  intros (b&items&Hg&Hrep).
  unfold Heap.is_graph_acylic_DFS, DAG_utils.is_graph_acylic_DFS.
  destruct (defaultdict_of_dict _ _ _ _ Hg) as (w&Hw&Hnew).
  rewrite (bind_ret _ _ _ _ _ Hw). cbn [dd_items].
  assert (h ⊆ <[w:=PyDict true items]> h) as Hsub1 by (by apply insert_subseteq).
  destruct (edge_dict_to_node_set_spec (<[w:=PyDict true items]> h) w true items G)
    as (a&h2&Hnodes&Hsub2&_&Ha).
  { apply lookup_insert_eq. }
  { by eapply items_rep_weaken. }
  rewrite (bind_ret _ _ _ _ _ Hnodes).
  rewrite (bind_ret _ _ _ _ _ (set_get_is_set _ _ _ Ha)).
  assert (dd_at h2 w (DefaultDict G)) as Hdd.
  { exists items. split; [eapply lookup_weaken; [apply lookup_insert_eq|done]|].
    eapply items_rep_weaken; [|done]. by trans (<[w:=PyDict true items]> h). }
  assert (h ⊆ h2) as Hsub by (by trans (<[w:=PyDict true items]> h)).
  clear Hnodes Ha Hsub1 Hsub2 Hw. revert Hdd Hsub. generalize (DefaultDict G).
  generalize (set_iter O (DAG_utils.edge_dict_to_node_set O G)). revert h2.
  intros h2 l ed Hdd Hsub.
  eapply (sim_bind (λ r h' r', r.1 = r'.1 ∧ h ⊆ h' ∧ dd_at h' w r'.2)).
  - revert h2 ed Hdd Hsub.
    induction l as [|c l IHl]; intros h2 ed Hdd Hsub; simpl.
    { exists (true, ()), h2. done. }
    eapply (sim_bind (λ r h' r', r.1 = r'.1 ∧ h ⊆ h' ∧ dd_at h' w r'.2)).
    + destruct (alloc_fresh (PySet ∅) h2) as (seen&Hseen&Hseennew).
      unfold set_new. rewrite (bind_ret _ _ _ _ _ Hseen).
      destruct (dd_at_alloc h2 w ed seen (PySet ∅) Hdd Hseennew) as [Hdd' Hno].
      assert (h !! seen = None) by (by eapply lookup_weaken_None).
      eapply sim_bind.
      * apply (is_graph_acylic_helper_sim h w seen).
        split; simpl; [by apply insert_subseteq_r|done|done
                       |apply lookup_insert_eq|done|done].
      * intros ok h' [ok' [S' ed']] [-> Hinv]. simpl.
        exists (ok', ()), h'. split; [done|]. split; [done|].
        split; [apply Hinv|apply Hinv].
    + intros [ok []] h' [ok' ed'] (?&?&?). simpl in *. subst ok'.
      destruct ok; [by apply IHl|]. by exists (false, ()), h'.
  - intros [ok []] h' [ok' ed'] (?&?&?). simpl in *. subst ok'.
    by exists ok, h'.
Qed.

(** *** invert_edge_dict *)

Lemma getitem_hit h d b items (k : T) v :
  h !! d = Some (PyDict b items) → items !! k = Some v →
  getitem d k h = Ret (v, h).
Proof.
  intros Hd Hk. unfold getitem.
  rewrite (bind_ret _ _ _ _ _ (dict_get_is_dict _ _ _ _ Hd)). by rewrite Hk.
Qed.

Lemma setitem_dict h d b items (k : T) v :
  h !! d = Some (PyDict b items) →
  setitem d k v h = Ret ((), <[d := PyDict b (<[k := v]> items)]> h).
Proof.
  intros Hd. unfold setitem.
  rewrite (bind_ret _ _ _ _ _ (dict_get_is_dict _ _ _ _ Hd)).
  by apply dict_put_is_dict with items.
Qed.

(** The dict under construction [nd] and the sets it refers to were
    created by the call, and each key has a set of its own. *)
Record invert_inv (h0 : heap) (nd : loc) (h : heap) (acc : defaultdict T)
    : Prop := InvertInv {
  ii_frame : h0 ⊆ h;
  ii_new : h0 !! nd = None;
  ii_items :
    ∃ nitems,
      h !! nd = Some (PyDict true nitems) ∧
      items_rep h nitems (dd_items acc) ∧
      (∀ k v, nitems !! k = Some v → h0 !! v = None) ∧
      (∀ k k' v, nitems !! k = Some v → nitems !! k' = Some v → k = k');
}.

Lemma invert_edge_spec h0 nd h acc (from_node to_node : T) :
  invert_inv h0 nd h acc →
  ∃ h', Heap.invert_edge nd from_node () to_node h = Ret ((), h') ∧
        invert_inv h0 nd h' (DAG_utils.invert_edge from_node acc to_node).
Proof.
  intros [Hsub Hnew (nitems&Hnd&Hrep&Hfresh&Hinj)].
  unfold Heap.invert_edge, DAG_utils.invert_edge.
  rewrite (bind_ret _ _ _ _ _ (dict_get_is_dict _ _ _ _ Hnd)). cbn beta iota.
  destruct (nitems !! to_node) as [v|] eqn:Hto.
  - destruct (items_rep_Some _ _ _ _ _ Hrep Hto) as (s&Hs&->).
    rewrite decide_True by (apply elem_of_dom; eauto).
    rewrite (bind_ret _ _ _ _ _ (getitem_hit _ _ _ _ _ _ Hnd Hto)).
    rewrite (set_add_is_set _ _ _ from_node Hs).
    assert (v ≠ nd) by (by eapply set_not_dict).
    eexists. split; [done|]. split; [|done|].
    + apply insert_subseteq_r; [by eapply Hfresh|done].
    + exists nitems. rewrite lookup_insert_ne by done.
      split_and!; [done| |done|done]. simpl.
      intros k. destruct (decide (to_node = k)) as [<-|Hne].
      * rewrite Hto, lookup_insert_eq. constructor. apply lookup_insert_eq.
      * rewrite lookup_insert_ne by done. specialize (Hrep k).
        destruct (nitems !! k) as [v'|] eqn:Hk; inversion Hrep; constructor.
        unfold is_set. rewrite lookup_insert_ne; [done|].
        intros ->. by apply Hne, (Hinj to_node k v').
  - rewrite (items_rep_None _ _ _ _ Hrep Hto).
    rewrite decide_False by (by apply not_elem_of_dom).
    destruct (alloc_fresh (PySet {[from_node]}) h) as (v&Hv&Hvnew).
    unfold set_new. rewrite (bind_ret _ _ _ _ _ Hv).
    assert (v ≠ nd) by congruence.
    erewrite setitem_dict by (by rewrite lookup_insert_ne).
    assert (h0 !! v = None) by (by eapply lookup_weaken_None).
    eexists. split; [done|]. split; [|done|].
    + apply insert_subseteq_r; [done|]. by apply insert_subseteq_r.
    + exists (<[to_node := v]> nitems). rewrite lookup_insert_eq.
      split_and!; [done| | |]; simpl.
      * apply items_rep_insert.
        -- apply (items_rep_modifies {[nd]} h); [done| |].
           { eapply modifies_trans; [by apply modifies_alloc|apply modifies_insert]. }
           intros k v' Hk ->%elem_of_singleton.
           destruct (items_rep_Some _ _ _ _ _ Hrep Hk) as (s&Hs&_).
           unfold is_set in Hs. congruence.
        -- unfold is_set. rewrite lookup_insert_ne by done.
           apply lookup_insert_eq.
      * intros k v'. destruct (decide (to_node = k)) as [->|].
        -- rewrite lookup_insert_eq. intros ?. by simplify_eq.
        -- rewrite lookup_insert_ne by done. apply Hfresh.
      * assert (∀ k, nitems !! k ≠ Some v) as Hvnot.
        { intros k Hk. destruct (items_rep_Some _ _ _ _ _ Hrep Hk) as (s&Hs&_).
          unfold is_set in Hs. congruence. }
        intros k k' v'.
        destruct (decide (to_node = k)) as [<-|];
          destruct (decide (to_node = k')) as [<-|]; [done|..];
          rewrite ?lookup_insert_eq, ?lookup_insert_ne by done.
        -- intros ? ?. simplify_eq. by destruct (Hvnot k').
        -- intros ? ?. simplify_eq. by destruct (Hvnot k).
        -- apply Hinj.
Qed.

Lemma invert_edge_dict_inv h d b items m :
  h !! d = Some (PyDict b items) → items_rep h items m →
  ∃ nd h', Heap.invert_edge_dict O d h = Ret (nd, h') ∧
           invert_inv h nd h' (DAG_utils.invert_edge_dict O m).
Proof.
  intros Hd Hrep. unfold Heap.invert_edge_dict, defaultdict_new.
  destruct (alloc_fresh (PyDict true ∅) h) as (nd&Hnd&Hnew).
  rewrite (bind_ret _ _ _ _ _ Hnd).
  assert (nd ≠ d) by congruence.
  erewrite bind_ret; [|apply (dict_get_is_dict _ _ b items);
                        by rewrite lookup_insert_ne].
  cbn beta iota.
  assert (∀ (ts : list T) from_node hi acc,
    invert_inv h nd hi acc →
    ∃ h', for_each (Heap.invert_edge nd from_node) ts () hi = Ret ((), h') ∧
          invert_inv h nd h' (foldl (DAG_utils.invert_edge from_node) acc ts))
    as Hinner.
  { induction ts as [|t ts IH]; intros from_node hi acc Hinv; [by exists hi|].
    destruct (invert_edge_spec h nd hi acc from_node t Hinv) as (h'&Hbody&?).
    cbn [for_each foldl]. rewrite (bind_ret _ _ _ _ _ Hbody). by apply IH. }
  assert (∀ (ps : list (T * loc)) (qs : list (T * gset T)) hi acc,
    Forall2 (λ (p : T * loc) (q : T * gset T), p.1 = q.1 ∧ is_set h p.2 q.2)
            ps qs →
    invert_inv h nd hi acc →
    ∃ h', for_each (λ (_ : ()) '(from_node, to_nodes),
                      s ← set_get to_nodes;
                      for_each (Heap.invert_edge nd from_node) (set_iter O s) ())
                   ps () hi = Ret ((), h') ∧
          invert_inv h nd h'
            (foldl (λ new_dict '(from_node, to_nodes),
                      foldl (DAG_utils.invert_edge from_node) new_dict
                            (set_iter O to_nodes)) acc qs)) as Houter.
  { intros ps qs hi acc Hl. revert hi acc.
    induction Hl as [|[k v] [k' s] ps qs [Hk Hv] _ IH]; intros hi acc Hinv;
      [by exists hi|]. simpl in Hk, Hv. subst k'.
    destruct (Hinner (set_iter O s) k hi acc Hinv) as (h'&Hbody&?).
    cbn [for_each foldl].
    erewrite bind_ret; [by apply IH|]. cbn beta iota.
    rewrite (bind_ret _ _ _ _ _
               (set_get_is_set _ _ _
                  (is_set_weaken _ _ _ _ (ii_frame _ _ _ _ Hinv) Hv))).
    done. }
  destruct (Houter (dict_items O items) (dict_items O m)
              (<[nd:=PyDict true ∅]> h) (DefaultDict ∅)) as (h'&Hrun&Hinv).
  { by apply items_rep_dict_items. }
  { split; [by apply insert_subseteq|done|]. exists ∅.
    rewrite lookup_insert_eq. split_and!; [done| |done|done].
    intros k. simpl. rewrite !lookup_empty. constructor. }
  rewrite (bind_ret _ _ _ _ _ Hrun). by exists nd, h'.
Qed.

Lemma invert_edge_dict_spec h d b items m :
  h !! d = Some (PyDict b items) → items_rep h items m →
  ∃ nd h', Heap.invert_edge_dict O d h = Ret (nd, h') ∧
           h ⊆ h' ∧ h !! nd = None ∧
           dd_at h' nd (DAG_utils.invert_edge_dict O m).
Proof.
  intros Hd Hrep.
  destruct (invert_edge_dict_inv h d b items m Hd Hrep) as (nd&h'&Hrun&Hinv).
  exists nd, h'. split; [done|]. destruct Hinv as [? ? (nitems&?&?&_)].
  split_and!; [done|done|]. by exists nitems.
Qed.

(** *** topological_sort *)

(** A lookup that inserts into another defaultdict of the call leaves this
    one as it is. *)
Lemma own_inv_other_dict h0 d d' x h h' st :
  own_inv h0 d x h st → modifies {[d']} h h' →
  (∃ ed', dd_at h d' ed') → d' ≠ d → h0 !! d' = None →
  own_inv h0 d x h' st.
Proof.
  intros [Hsub ? ? Hx (items&Hd&Hrep) Hno] Hmod (ed'&items'&Hd'&_) Hne Hnew.
  assert (h' !! d = h !! d) as Hsame.
  { apply Hmod; [set_solver|]. apply elem_of_dom. eauto. }
  split; [|done|done| | |].
  - eapply modifies_subseteq; [done..|]. by intros l ->%elem_of_singleton.
  - unfold is_set. rewrite Hmod; [done| |by apply elem_of_dom; eauto].
    apply not_elem_of_singleton. by eapply set_not_dict.
  - exists items. split; [congruence|].
    apply (items_rep_modifies {[d']} h); [done..|].
    intros k v Hk ->%elem_of_singleton.
    destruct (items_rep_Some _ _ _ _ _ Hrep Hk) as (s&Hs&_).
    unfold is_set in Hs. congruence.
  - intros b its k. rewrite Hsame. apply Hno.
Qed.

(** The store and the references of the frontier loop against the local
    state of the loop on values. *)
Record ts_rel (h0 : heap) (w inv f : loc) (loc : ts_locals) (h : heap)
    (st : ts_state) : Prop := TsRel {
  tr_edge : own_inv h0 w f h (frontier st, edge_dictionary st);
  tr_inverted : own_inv h0 inv f h (frontier st, inverted_edge_dict st);
  tr_distinct : w ≠ inv;
  tr_met :
    Heap.node_to_num_dependencies_met loc
    = DAG_utils.node_to_num_dependencies_met st;
  tr_added : Heap.node_to_is_added loc = DAG_utils.node_to_is_added st;
  tr_ordering : Heap.sorted_ordering loc = DAG_utils.sorted_ordering st;
  tr_pops : Heap.pops loc = DAG_utils.pops st;
}.

Lemma lift_ret {A B} (a : A) (k : A → M B) h : (lift (Ret a) ≫= k) h = k a h.
Proof. done. Qed.

Lemma add_dependant_sim h0 w inv f h met fr ed edi (dep : T) :
  own_inv h0 w f h (fr, ed) → own_inv h0 inv f h (fr, edi) →
  sim (λ met' h' r, met' = r.2 ∧ own_inv h0 w f h' (r.1, ed) ∧
                    own_inv h0 inv f h' (r.1, edi))
      (Heap.add_dependant f met dep h)
      (DAG_utils.add_dependant (fr, met) dep).
Proof.
  intros Hw Hinv. unfold Heap.add_dependant, DAG_utils.add_dependant.
  rewrite (bind_ret _ _ _ _ _ (set_add_is_set _ _ _ dep (own_set _ _ _ _ _ Hw))).
  apply (own_inv_write _ _ _ _ _ _ (fr ∪ {[dep]})) in Hw, Hinv.
  unfold dict_getitem. destruct (met !! dep) as [n|]; [|done].
  rewrite lift_ret. cbn [mbind res_bind fst].
  eexists _, _. split; [reflexivity|]. simpl. done.
Qed.

Lemma add_dependants_sim h0 w inv f (ds : list T) h met fr ed edi :
  own_inv h0 w f h (fr, ed) → own_inv h0 inv f h (fr, edi) →
  sim (λ met' h' r, met' = r.2 ∧ own_inv h0 w f h' (r.1, ed) ∧
                    own_inv h0 inv f h' (r.1, edi))
      (for_each (Heap.add_dependant f) ds met h)
      (for_each DAG_utils.add_dependant ds (fr, met)).
Proof.
  revert h met fr. induction ds as [|dep ds IH]; intros h met fr Hw Hinv.
  { exists met, h. done. }
  cbn [for_each].
  eapply sim_bind; [by apply (add_dependant_sim h0 w inv f _ _ _ ed edi)|].
  intros met' h' [fr' met''] (->&?&?). simpl in *. by apply IH.
Qed.

Lemma frontier_step_sim h0 w inv f h loc st :
  ts_rel h0 w inv f loc h st →
  sim (ts_rel h0 w inv f)
      (Heap.frontier_step O w inv f loc h) (DAG_utils.frontier_step O st).
Proof.
  intros [Hw Hinv Hne Hmet Hadded Hord Hpops].
  unfold Heap.frontier_step, DAG_utils.frontier_step.
  rewrite (bind_ret _ _ _ _ _ (set_get_is_set _ _ _ (own_set _ _ _ _ _ Hw))).
  cbn [fst]. rewrite Hpops, Hmet, Hadded, Hord.
  destruct (set_pop O (DAG_utils.pops st) (frontier st)) as [c|]; [|done].
  rewrite (bind_ret _ _ _ _ _
             (set_put_is_set _ _ _ (frontier st ∖ {[c]}) (own_set _ _ _ _ _ Hw))).
  apply (own_inv_write _ _ _ _ _ _ (frontier st ∖ {[c]})) in Hw, Hinv.
  unfold dict_getitem.
  destruct (DAG_utils.node_to_num_dependencies_met st !! c) as [n|]; [|done].
  rewrite lift_ret. cbn [mbind res_bind].
  destruct (own_inv_getitem _ _ _ _ _ _ c Hw) as (v&h2&Hget&Hw2&Hv&Hmod).
  rewrite (bind_ret _ _ _ _ _ Hget).
  apply (own_inv_other_dict _ _ w _ _ h2) in Hinv;
    [|done|by eexists; apply Hw|done|apply Hw].
  destruct (defaultdict_getitem (edge_dictionary st) c) as [deps ed'].
  simpl in Hw2, Hv. rewrite (bind_ret _ _ _ _ _ (set_get_is_set _ _ _ Hv)).
  case_decide.
  { eexists _, _. split; [done|]. by split. }
  destruct (own_inv_getitem _ _ _ _ _ _ c Hinv) as (v'&h3&Hget'&Hinv3&Hv'&Hmod').
  rewrite (bind_ret _ _ _ _ _ Hget').
  apply (own_inv_other_dict _ _ inv _ _ h3) in Hw2;
    [|done|by eexists; apply Hinv|done|apply Hinv].
  destruct (defaultdict_getitem (inverted_edge_dict st) c) as [dts edi'].
  simpl in Hinv3, Hv'. rewrite (bind_ret _ _ _ _ _ (set_get_is_set _ _ _ Hv')).
  eapply sim_bind; [by apply (add_dependants_sim h0 w inv f _ _ _ _ ed' edi')|].
  intros met' h' [fr' met''] (->&?&?). simpl in *.
  eexists _, _. split; [done|]. by split.
Qed.

Lemma frontier_loop_sim h0 w inv f fuel h loc st :
  ts_rel h0 w inv f loc h st →
  sim (ts_rel h0 w inv f)
      (Heap.frontier_loop O fuel w inv f loc h)
      (DAG_utils.frontier_loop O fuel st).
Proof.
  revert h loc st. induction fuel as [|fuel IH]; intros h loc st Hrel;
    cbn [Heap.frontier_loop DAG_utils.frontier_loop];
    rewrite (bind_ret _ _ _ _ _
               (set_get_is_set _ _ _ (own_set _ _ _ _ _ (tr_edge _ _ _ _ _ _ _ Hrel))));
    cbn [fst]; case_decide; try done; try (by exists loc, h).
  eapply sim_bind; [by apply frontier_step_sim|]. intros loc' h' st' ?. by apply IH.
Qed.

Lemma collect_terminal_sim h0 w inv t h term ed edi (node : T) :
  own_inv h0 w t h (term, ed) → own_inv h0 inv t h (term, edi) → w ≠ inv →
  ∃ h', Heap.collect_terminal w t () node h = Ret ((), h') ∧
        own_inv h0 w t h' (DAG_utils.collect_terminal (term, ed) node) ∧
        own_inv h0 inv t h'
          ((DAG_utils.collect_terminal (term, ed) node).1, edi).
Proof.
  intros Hw Hinv Hne. unfold Heap.collect_terminal, DAG_utils.collect_terminal.
  destruct (own_inv_getitem _ _ _ _ _ _ node Hw) as (v&h2&Hget&Hw2&Hv&Hmod).
  rewrite (bind_ret _ _ _ _ _ Hget).
  apply (own_inv_other_dict _ _ w _ _ h2) in Hinv;
    [|done|by eexists; apply Hw|done|apply Hw].
  destruct (defaultdict_getitem ed node) as [deps ed'].
  simpl in Hw2, Hv. rewrite (bind_ret _ _ _ _ _ (set_get_is_set _ _ _ Hv)).
  case_decide.
  - rewrite (set_add_is_set _ _ _ node (own_set _ _ _ _ _ Hw2)).
    eexists. split; [done|]. split; by apply (own_inv_write _ _ _ _ term).
  - by exists h2.
Qed.

Lemma dd_at_weaken h h' d ed : h ⊆ h' → dd_at h d ed → dd_at h' d ed.
Proof.
  intros Hsub (items&Hd&Hrep). exists items.
  split; [by eapply lookup_weaken|by eapply items_rep_weaken].
Qed.

Lemma collect_terminals_sim h0 w inv t (nodes : list T) h term ed edi :
  own_inv h0 w t h (term, ed) → own_inv h0 inv t h (term, edi) → w ≠ inv →
  ∃ h', for_each (Heap.collect_terminal w t) nodes () h = Ret ((), h') ∧
        own_inv h0 w t h' (foldl DAG_utils.collect_terminal (term, ed) nodes) ∧
        own_inv h0 inv t h'
          ((foldl DAG_utils.collect_terminal (term, ed) nodes).1, edi).
Proof.
  revert h term ed. induction nodes as [|node nodes IH]; intros h term ed Hw Hinv Hne.
  { by exists h. }
  destruct (collect_terminal_sim h0 w inv t h term ed edi node)
    as (h'&Hbody&Hw'&Hinv'); [done..|].
  cbn [for_each foldl]. rewrite (bind_ret _ _ _ _ _ Hbody).
  destruct (DAG_utils.collect_terminal (term, ed) node) as [term' ed'].
  by apply IH.
Qed.

(** The store version of [topological_sort] returns what the version on
    values returns, and every object of the store it was entered with is
    as before. *)
Lemma topological_sort_sim h (g : loc) G fuel :
  represents h g G →
  sim (λ r h' r', r = r' ∧ h ⊆ h')
      (Heap.topological_sort O fuel g h)
      (DAG_utils.topological_sort O fuel G).
Proof.
  intros (b&items&Hg&Hrep).
  unfold Heap.topological_sort, DAG_utils.topological_sort, ts_init.
  cbn [dd_items].
  destruct (defaultdict_of_dict _ _ _ _ Hg) as (w&Hw&Hwnew).
  rewrite (bind_ret _ _ _ _ _ Hw).
  assert (h ⊆ <[w:=PyDict true items]> h) as Hsub1 by (by apply insert_subseteq).
  destruct (invert_edge_dict_spec (<[w:=PyDict true items]> h) w true items G)
    as (inv&h2&Hinvert&Hsub2&Hinvnew&Hinv).
  { apply lookup_insert_eq. }
  { by eapply items_rep_weaken. }
  rewrite (bind_ret _ _ _ _ _ Hinvert).
  assert (w ≠ inv) as Hne by (intros ->; by rewrite lookup_insert_eq in Hinvnew).
  destruct (edge_dict_to_node_set_spec h2 w true items G)
    as (a&h3&Hnodes&Hsub3&_&Ha).
  { eapply lookup_weaken; [apply lookup_insert_eq|done]. }
  { eapply items_rep_weaken; [|done]. by trans (<[w:=PyDict true items]> h). }
  rewrite (bind_ret _ _ _ _ _ Hnodes).
  destruct (alloc_fresh (PySet ∅) h3) as (t&Ht&Htnew).
  unfold set_new. rewrite (bind_ret _ _ _ _ _ Ht).
  assert (h ⊆ h3) as Hsub.
  { trans (<[w:=PyDict true items]> h); [done|]. by trans h2. }
  assert (is_set (<[t:=PySet ∅]> h3) a (DAG_utils.edge_dict_to_node_set O G)) as Ha'.
  { eapply is_set_weaken; [|done]. by apply insert_subseteq. }
  rewrite (bind_ret _ _ _ _ _ (set_get_is_set _ _ _ Ha')).
  assert (dd_at h3 w (DefaultDict G)) as Hw3.
  { exists items. split.
    - eapply lookup_weaken; [apply lookup_insert_eq|]. by trans h2.
    - by eapply items_rep_weaken. }
  assert (dd_at h3 inv (DAG_utils.invert_edge_dict O G)) as Hinv3
    by (by apply (dd_at_weaken h2 h3)).
  destruct (dd_at_alloc h3 w _ t (PySet ∅) Hw3 Htnew) as [Hw4 Hwno].
  destruct (dd_at_alloc h3 inv _ t (PySet ∅) Hinv3 Htnew) as [Hinv4 Hinvno].
  assert (h !! t = None) as Htnew0 by (by eapply lookup_weaken_None).
  assert (h !! inv = None) as Hinvnew0 by (by eapply lookup_weaken_None).
  destruct (collect_terminals_sim h w inv t
              (set_iter O (DAG_utils.edge_dict_to_node_set O G))
              (<[t:=PySet ∅]> h3) ∅ (DefaultDict G)
              (DAG_utils.invert_edge_dict O G))
    as (h5&Hloop&Hw5&Hinv5); [| |done|].
  { split; simpl; [by apply insert_subseteq_r|done|done|apply lookup_insert_eq
                   |done|done]. }
  { split; simpl; [by apply insert_subseteq_r|done|done|apply lookup_insert_eq
                   |done|done]. }
  rewrite (bind_ret _ _ _ _ _ Hloop).
  destruct (foldl DAG_utils.collect_terminal _ _) as [terminal ed].
  destruct (foldl init_counters _ _) as [added met]. simpl in Hinv5.
  eapply sim_bind.
  - apply (frontier_loop_sim h w inv t). by split.
  - intros [met' added' ordering' pops'] h' st' [Hw' _ _ ? ? ? ?]. simpl in *.
    subst. destruct (forallb id _).
    + eexists _, h'. split; [reflexivity|]. split; [done|apply Hw'].
    + eexists _, h'. split; [reflexivity|]. split; [done|apply Hw'].
Qed.

Lemma is_graph_acyclic_toplogical_sim h (g : loc) G fuel :
  represents h g G →
  sim (λ b h' b', b = b' ∧ h ⊆ h')
      (Heap.is_graph_acyclic_toplogical O fuel g h)
      (DAG_utils.is_graph_acyclic_toplogical O fuel G).
Proof.
  intros Hg.
  unfold Heap.is_graph_acyclic_toplogical, DAG_utils.is_graph_acyclic_toplogical.
  eapply sim_bind; [by apply topological_sort_sim|].
  intros r h' r' [-> ?]. by eexists _, h'.
Qed.

(** A way to check [items_rep] by evaluation. *)
Definition set_of h l : option (gset T) :=
  match h !! l with
  | Some (PySet s) => Some s
  | _ => None
  end.

Lemma items_rep_fmap h items m :
  set_of h <$> items = Some <$> m → items_rep h items m.
Proof.
  intros Heq k. apply (f_equal (.!! k)) in Heq. rewrite !lookup_fmap in Heq.
  destruct (items !! k) as [v|], (m !! k) as [s|]; simplify_eq/=; constructor.
  unfold is_set, set_of in *. by destruct (h !! v) as [[]|]; simplify_eq.
Qed.

Lemma represents_weaken h h' (g : loc) G :
  h ⊆ h' → represents h g G → represents h' g G.
Proof.
  intros Hsub (b&items&Hg&Hrep). exists b, items.
  split; [by eapply lookup_weaken|by eapply items_rep_weaken].
Qed.

End refinement.

End HeapFacts.

(** * Further facts about the functions on values *)

Section further_facts.
Context `{Countable T}.
Variable O : @py_order T _ _.

Abbreviation graph := (gmap T (gset T)).
Abbreviation ts_state := (@DAG_utils.ts_state T _ _).

(** ** The inverted dictionary *)

Lemma acyclic_or_cyclic (G : graph) : acyclic G ∨ cyclic G.
Proof.
  destruct (is_graph_acylic_DFS_spec O G (dfs_fuel O G)) as [[_ ?]|[_ ?]]; auto.
Qed.

Lemma invert_edge_dict_lookup_Some (G : graph) b s :
  dd_items (invert_edge_dict O G) !! b = Some s
  ↔ s ≠ ∅ ∧ ∀ a, a ∈ s ↔ depends_on G a b.
Proof.
  pose proof (invert_edge_dict_lookup O G) as Hl.
  pose proof (invert_edge_dict_dom O G b) as Hd.
  unfold dd_lookup, successors in Hl. rewrite elem_of_dom in Hd. split.
  - intros Hs. assert (∀ a, a ∈ s ↔ depends_on G a b) as Hmem.
    { intros a. rewrite <-Hl, Hs. done. }
    split; [|done]. destruct Hd as [[a Ha] _]; [by eauto|].
    apply Hmem in Ha. set_solver.
  - intros [Hne Hmem]. apply set_choose_L in Hne as [a Ha].
    destruct Hd as [_ [s' Hs']]; [exists a; by apply Hmem|].
    rewrite Hs'. f_equal. apply set_eq. intros a'.
    rewrite Hmem, <-Hl, Hs'. done.
Qed.

Lemma depends_on_invert (G : graph) a b :
  depends_on (dd_items (invert_edge_dict O G)) a b ↔ depends_on G b a.
Proof. by rewrite depends_on_successors, <-invert_edge_dict_lookup. Qed.

Lemma tc_reversed (R S : relation T) :
  (∀ a b, S a b → R b a) → ∀ a b, tc S a b → tc R b a.
Proof.
  intros HRS a b Hab. induction Hab as [a b Hab|a b c Hab _ IH].
  - by apply tc_once, HRS.
  - eapply tc_r; [done|]. by apply HRS.
Qed.

Lemma cyclic_invert (G : graph) :
  cyclic (dd_items (invert_edge_dict O G)) ↔ cyclic G.
Proof.
  split; intros [n Hn]; exists n; revert Hn; apply tc_reversed;
    intros a b; by rewrite depends_on_invert.
Qed.

Lemma acyclic_invert (G : graph) :
  acyclic (dd_items (invert_edge_dict O G)) ↔ acyclic G.
Proof.
  split; intros Hacyc n Hn; apply (Hacyc n); revert Hn; apply tc_reversed;
    intros a b; by rewrite depends_on_invert.
Qed.

Lemma node_set_invert (G : graph) x :
  x ∈ edge_dict_to_node_set O (dd_items (invert_edge_dict O G))
  ↔ ∃ y, depends_on G x y ∨ depends_on G y x.
Proof.
  rewrite elem_of_edge_dict_to_node_set. unfold is_node.
  rewrite invert_edge_dict_dom. setoid_rewrite depends_on_invert. naive_solver.
Qed.

Lemma node_set_invert_subseteq (G : graph) :
  edge_dict_to_node_set O (dd_items (invert_edge_dict O G))
  ⊆ edge_dict_to_node_set O G.
Proof.
  intros x [y Hy]%node_set_invert. apply elem_of_edge_dict_to_node_set.
  destruct Hy as [(s&?&?)|Hy]; [left; by apply elem_of_dom|right; eauto].
Qed.

(** ** The helper of the depth-first search *)

(** What a run of the helper that returns has done to the active path:
    [True] leaves it as it was, [False] leaves the nodes of the path in it
    and means that the search came back to the path or met a cycle. *)
Lemma is_graph_acylic_helper_returns (G : graph) fuel seen ed cur b seen' ed' :
  (∀ k, dd_lookup ed k = successors G k) →
  is_graph_acylic_helper O fuel (seen, ed) cur = Ret (b, (seen', ed')) →
  (∀ k, dd_lookup ed' k = successors G k) ∧
  (b = true → seen' = seen) ∧
  (b = false →
     seen ⊆ seen' ∧
     ∃ m, rtc (depends_on G) cur m ∧ (m ∈ seen ∨ tc (depends_on G) m m)).
Proof.
  revert seen ed cur b seen' ed'.
  induction fuel as [|fuel IH]; intros seen ed cur b seen' ed' Hed Hrun.
  { done. }
  cbn [is_graph_acylic_helper] in Hrun. case_decide as Hseen.
  { simplify_eq. split; [done|]. split; [done|]. intros _. split; [done|].
    exists cur. split; [apply rtc_refl|by left]. }
  pose proof (defaultdict_getitem_fst ed cur) as Hnext.
  pose proof (defaultdict_getitem_snd ed cur) as Hed1.
  destruct (defaultdict_getitem ed cur) as [next_nodes ed1].
  simpl in Hnext, Hed1. rewrite Hed in Hnext. subst next_nodes.
  assert (∀ k, dd_lookup ed1 k = successors G k) as Hed1'
    by (intros k; by rewrite Hed1).
  clear Hed1 Hed.
  assert (∀ l ed1 b seen' ed',
    (∀ c, c ∈ l → depends_on G cur c) →
    (∀ k, dd_lookup ed1 k = successors G k) →
    for_all (is_graph_acylic_helper O fuel) l (seen ∪ {[cur]}, ed1)
      = Ret (b, (seen', ed')) →
    (∀ k, dd_lookup ed' k = successors G k) ∧
    (b = true → seen' = seen ∪ {[cur]}) ∧
    (b = false →
       seen ∪ {[cur]} ⊆ seen' ∧
       ∃ c m, depends_on G cur c ∧ rtc (depends_on G) c m ∧
              (m ∈ seen ∪ {[cur]} ∨ tc (depends_on G) m m))) as Hloop.
  { clear Hrun ed1 Hed1' b seen' ed'.
    induction l as [|c l IHl]; intros ed1 b seen' ed' Hl Hed1 Hrun;
      simpl in Hrun.
    - injection Hrun as <- <- <-. by split_and!.
    - destruct (is_graph_acylic_helper O fuel (seen ∪ {[cur]}, ed1) c)
        as [[b0 [seen0 ed0]]| |] eqn:Hc; [|done..].
      destruct (IH _ _ _ _ _ _ Hed1 Hc) as (Hed0&Ht&Hf).
      cbn [mbind res_bind] in Hrun. destruct b0.
      + rewrite Ht in Hrun by done. apply (IHl ed0); [|done|done].
        intros c' ?. apply Hl. by right.
      + injection Hrun as <- <- <-. split; [done|]. split; [done|]. intros _.
        destruct Hf as (?&m&?&?); [done|]. split; [done|].
        exists c, m. split; [|done]. apply Hl. left. }
  destruct (for_all (is_graph_acylic_helper O fuel)
              (set_iter O (successors G cur)) (seen ∪ {[cur]}, ed1))
    as [[b0 [seen0 ed0]]| |] eqn:Hfor; [|done..].
  destruct (Hloop _ _ _ _ _ (λ c Hc, proj2 (depends_on_successors G cur c)
                                        (proj1 (elem_of_set_iter O _ c) Hc))
              Hed1' Hfor) as (Hed0&Ht&Hf).
  cbn [mbind res_bind] in Hrun. destruct b0.
  - rewrite Ht in Hrun by done. rewrite decide_True in Hrun by set_solver.
    simplify_eq. split; [done|]. split; [|done]. intros _. set_solver.
  - simplify_eq. split; [done|]. split; [done|]. intros _.
    destruct Hf as (Hsub&c&m&Hc&Hcm&Hm); [done|]. split; [set_solver|].
    destruct (decide (m = cur)) as [->|Hne].
    + exists cur. split; [done|]. right.
      eapply tc_rtc_r; [by apply tc_once|done].
    + exists m. split; [by eapply rtc_l|]. set_solver.
Qed.

(** ** One iteration of the frontier loop *)

(** One iteration of the frontier loop, by the node it pops: a node all of
    whose dependencies are placed is appended and its dependants join the
    frontier; any other node is dropped from the frontier. *)
Lemma frontier_step_result (G : graph) (st : ts_state) :
  ts_inv O G st → frontier st ≠ ∅ →
  ∃ c st',
    set_pop O (pops st) (frontier st) = Some c ∧ c ∈ frontier st ∧
    frontier_step O st = Ret st' ∧ ts_inv O G st' ∧ pops st' = S (pops st) ∧
    if decide (successors G c ⊆ placed st)
    then sorted_ordering st' = sorted_ordering st ++ [c] ∧
         ∀ x, x ∈ frontier st' ↔ (x ∈ frontier st ∧ x ≠ c) ∨ depends_on G x c
    else sorted_ordering st' = sorted_ordering st ∧
         frontier st' = frontier st ∖ {[c]}.
Proof.
  intros Hinv Hne.
  destruct (frontier_step_inv O G st Hinv Hne) as (st'&Hstep&Hinv'&_&Hpops).
  pose proof Hstep as Hrun. unfold frontier_step in Hrun.
  destruct (set_pop O (pops st) (frontier st)) as [c|] eqn:Hpop; [|done].
  pose proof (set_pop_Some O _ _ _ Hpop) as Hc.
  exists c, st'. split_and!; [done..|].
  assert (c ∈ edge_dict_to_node_set O G) as HcN
    by (by apply (inv_frontier_nodes _ _ _ Hinv)).
  unfold dict_getitem at 1 in Hrun.
  rewrite (inv_met _ _ _ Hinv), decide_True in Hrun by done.
  cbn [mbind res_bind] in Hrun.
  pose proof (defaultdict_getitem_fst (edge_dictionary st) c) as Hdeps.
  destruct (defaultdict_getitem (edge_dictionary st) c) as [deps ed'].
  simpl in Hdeps. rewrite (inv_ed _ _ _ Hinv) in Hdeps. subst deps.
  destruct (decide (size (successors G c ∩ placed st) < size (successors G c)))
    as [Hmet|Hmet].
  - injection Hrun as <-. simpl. rewrite decide_False; [done|].
    intros Hsub.
    assert (successors G c ∩ placed st = successors G c) as Heq by set_solver.
    rewrite Heq in Hmet. lia.
  - rewrite decide_True by (apply inter_full; lia).
    pose proof (defaultdict_getitem_fst (inverted_edge_dict st) c) as Hdts.
    destruct (defaultdict_getitem (inverted_edge_dict st) c) as [dts inv'].
    simpl in Hdts. subst dts.
    destruct (add_dependants (set_iter O (dd_lookup (inverted_edge_dict st) c))
                (frontier st ∖ {[c]}) (node_to_num_dependencies_met st))
      as (fr'&met'&Hfor&Hfr&_).
    { apply NoDup_set_iter. }
    { intros x Hx%elem_of_set_iter.
      apply (inv_inverted _ _ _ Hinv), depends_on_successors,
        (successors_nodes O) in Hx.
      rewrite (inv_met _ _ _ Hinv), decide_True by tauto. eauto. }
    rewrite Hfor in Hrun. cbn [mbind res_bind] in Hrun.
    injection Hrun as <-. simpl. split; [done|]. intros x.
    rewrite Hfr, elem_of_set_iter, (inv_inverted _ _ _ Hinv). set_solver.
Qed.

(** ** The edges as the measure of the work of the frontier loop *)

(** The edges of the graph: the pairs [(a, b)] with "a depends on b". *)
Definition edge_set (G : graph) : gset (T * T) :=
  set_bind (λ a, set_map (pair a) (successors G a)) (dom G).

(** The nodes that depend on [c]. *)
Definition dependants (G : graph) (c : T) : gset T :=
  filter (λ a, c ∈ successors G a) (dom G).

(** The edges whose dependency has not been placed: each of them will put
    its dependant into the frontier once. *)
Definition waiting_edges (G : graph) (st : ts_state) : gset (T * T) :=
  filter (λ e, e.2 ∉ placed st) (edge_set G).

Definition work_left (G : graph) (st : ts_state) : nat :=
  size (frontier st) + size (waiting_edges G st).

Lemma elem_of_edge_set (G : graph) a b :
  (a, b) ∈ edge_set G ↔ depends_on G a b.
Proof.
  unfold edge_set. rewrite elem_of_set_bind, depends_on_successors. split.
  - intros (a'&_&Hab). apply elem_of_map in Hab as (b'&?&?). by simplify_eq.
  - intros Hb. exists a. split; [|apply elem_of_map; by exists b].
    apply depends_on_successors in Hb as (s&?&?). apply elem_of_dom. eauto.
Qed.

Lemma elem_of_dependants (G : graph) a c :
  a ∈ dependants G c ↔ depends_on G a c.
Proof.
  unfold dependants. rewrite elem_of_filter, depends_on_successors.
  split; [tauto|]. intros Hc. split; [done|].
  apply depends_on_successors in Hc as (s&?&?). apply elem_of_dom. eauto.
Qed.

Lemma size_set_map_pair (X : gset T) (c : T) :
  size (set_map (D:=gset (T * T)) (λ a, (a, c)) X) = size X.
Proof.
  unfold set_map. rewrite size_list_to_set.
  - by rewrite length_fmap.
  - apply (NoDup_fmap_2 _), NoDup_elements.
Qed.

Lemma frontier_step_work (G : graph) (st : ts_state) :
  ts_inv O G st → frontier st ≠ ∅ →
  ∃ st', frontier_step O st = Ret st' ∧ ts_inv O G st' ∧
         pops st' = S (pops st) ∧ work_left G st' < work_left G st.
Proof.
  intros Hinv Hne.
  destruct (frontier_step_result G st Hinv Hne)
    as (c&st'&_&Hc&Hstep&Hinv'&Hpops&Hres).
  exists st'. split_and!; [done..|].
  assert (size (frontier st ∖ {[c]}) + 1 = size (frontier st)) as Hpopped.
  { rewrite size_difference, size_singleton by set_solver.
    assert (size (frontier st) ≠ 0); [|lia].
    rewrite size_empty_iff. set_solver. }
  unfold work_left, waiting_edges. case_decide as Hdeps.
  - destruct Hres as [Hsorted Hfr].
    assert (c ∉ placed st) as Hcnew.
    { pose proof (inv_frontier_new _ _ _ Hinv). set_solver. }
    assert (placed st' = placed st ∪ {[c]}) as ->.
    { unfold placed. rewrite Hsorted. set_solver. }
    set (D := dependants G c).
    set (Dc := set_map (D:=gset (T * T)) (λ a, (a, c)) D).
    assert (frontier st' ⊆ frontier st ∖ {[c]} ∪ D) as Hsub%subseteq_size.
    { intros x [?|?]%Hfr; [set_solver|].
      apply elem_of_union_r. by apply elem_of_dependants. }
    rewrite size_union_alt in Hsub.
    assert (size (D ∖ (frontier st ∖ {[c]})) ≤ size D)
      by (apply subseteq_size; set_solver).
    assert (filter (λ e : T * T, e.2 ∉ placed st ∪ {[c]}) (edge_set G)
            = filter (λ e : T * T, e.2 ∉ placed st) (edge_set G) ∖ Dc) as ->.
    { apply set_eq. intros [a b].
      rewrite elem_of_difference, !elem_of_filter. unfold Dc.
      rewrite elem_of_map. simpl. split.
      - intros [Hb Hab]. split; [set_solver|].
        intros (a'&?&_). simplify_eq. set_solver.
      - intros [[Hb Hab] Hnot]. split; [|done].
        intros [?|Hbc%elem_of_singleton]%elem_of_union; [done|].
        simpl in Hbc. subst b. apply Hnot. exists a. split; [done|].
        by apply elem_of_dependants, elem_of_edge_set. }
    assert (Dc ⊆ filter (λ e : T * T, e.2 ∉ placed st) (edge_set G)) as HDc.
    { intros [a b] (a'&?&Ha')%elem_of_map. simplify_eq.
      apply elem_of_filter. split; [done|].
      by apply elem_of_edge_set, elem_of_dependants. }
    rewrite size_difference by done.
    apply subseteq_size in HDc. unfold Dc in *.
    rewrite size_set_map_pair in *. lia.
  - destruct Hres as [Hsorted ->]. unfold placed. rewrite Hsorted. lia.
Qed.

Lemma frontier_loop_work (G : graph) fuel (st : ts_state) :
  ts_inv O G st → work_left G st ≤ fuel →
  ∃ st', frontier_loop O fuel st = Ret st' ∧ ts_inv O G st' ∧
         frontier st' = ∅ ∧ pops st' ≤ pops st + work_left G st.
Proof.
  revert st. induction fuel as [|fuel IH]; intros st Hinv Hfuel; simpl.
  - assert (frontier st = ∅) as Hempty.
    { apply leibniz_equiv, size_empty_iff. unfold work_left in Hfuel. lia. }
    rewrite decide_True by done. exists st. split_and!; [done..|lia].
  - case_decide as Hempty; [exists st; split_and!; [done..|lia]|].
    destruct (frontier_step_work G st Hinv Hempty) as (st1&->&Hinv1&Hpops&Hlt).
    cbn [mbind res_bind].
    destruct (IH st1) as (st'&?&?&?&?); [done|lia|].
    exists st'. split_and!; [done..|lia].
Qed.

Lemma ts_init_work (G : graph) :
  work_left G (ts_init O G)
  ≤ size (edge_dict_to_node_set O G) + size (edge_set G).
Proof.
  pose proof (inv_frontier_nodes _ _ _ (ts_init_inv O G)) as Hfr%subseteq_size.
  unfold work_left, waiting_edges.
  assert (size (filter (λ e : T * T, e.2 ∉ placed (ts_init O G)) (edge_set G))
          ≤ size (edge_set G)); [|lia].
  apply subseteq_size. intros e ?%elem_of_filter. tauto.
Qed.

(** ** The nodes that the loop cannot place *)

(** In a finite set each of whose members has a successor in the set, or
    leads to a cycle, every member leads to a cycle. *)
Lemma leads_to_cycle (S : relation T) (U : gset T) :
  Transitive S →
  (∀ x, x ∈ U → (∃ y, y ∈ U ∧ S x y) ∨ (∃ c, S x c ∧ S c c)) →
  ∀ x, x ∈ U → ∃ c, (x = c ∨ S x c) ∧ S c c.
Proof.
  intros Htrans. pattern U. apply set_ind_L; clear U; [set_solver|].
  intros x X Hx IH Hsucc.
  assert ((∃ c, (x = c ∨ S x c) ∧ S c c) ∨ (∃ y, y ∈ X ∧ S x y)) as Hcases.
  { destruct (Hsucc x) as [(y&Hy&Hxy)|(c&?&?)]; [set_solver| |by eauto].
    destruct (decide (y = x)) as [->|]; [by eauto|].
    right. exists y. split; [set_solver|done]. }
  assert (∀ z, z ∈ X → ∃ c, (z = c ∨ S z c) ∧ S c c) as HX.
  { apply IH. intros z Hz.
    destruct (Hsucc z) as [(y&Hy&Hzy)|?]; [set_solver| |by auto].
    destruct (decide (y = x)) as [->|]; [|left; exists y; set_solver].
    destruct Hcases as [(c&[<-|Hxc]&Hc)|(y'&Hy'&Hxy')].
    - right. eauto.
    - right. exists c. split; [by trans x|done].
    - left. exists y'. split; [done|by trans x]. }
  intros z [Hz%elem_of_singleton|Hz]%elem_of_union; [subst z|by auto].
  destruct Hcases as [?|(y&Hy&Hxy)]; [done|].
  destruct (HX y Hy) as (c&[<-|Hyc]&Hc); [by eauto|].
  exists c. split; [right; by trans y|done].
Qed.

Lemma unplaced_leads_to_cycle (G : graph) (st : ts_state) x :
  ts_inv O G st → frontier st = ∅ →
  x ∈ edge_dict_to_node_set O G → x ∉ placed st →
  ∃ c, rtc (depends_on G) x c ∧ tc (depends_on G) c c.
Proof.
  intros Hinv Hempty HxN Hx.
  destruct (leads_to_cycle (tc (depends_on G))
              (edge_dict_to_node_set O G ∖ placed st) _) with x
    as (c&Hxc&Hc); [|set_solver|].
  - intros y [HyN Hy]%elem_of_difference. left.
    destruct (decide (successors G y ∖ placed st = ∅)) as [Hsub|Hsome].
    { assert (y ∈ frontier st) as Hfr
        by (apply (inv_ready _ _ _ Hinv); [done|done|set_solver]).
      rewrite Hempty in Hfr. by apply not_elem_of_empty in Hfr. }
    apply set_choose_L in Hsome as [z Hz].
    apply elem_of_difference in Hz as [Hz Hznew].
    exists z. split.
    + apply elem_of_difference. split; [|done].
      by apply (successors_nodes O G y z).
    + by apply tc_once, depends_on_successors.
  - exists c. split; [|done]. apply rtc_tc. tauto.
Qed.

Lemma placed_leads_to_no_cycle (G : graph) (st : ts_state) x c :
  ts_inv O G st → x ∈ placed st →
  rtc (depends_on G) x c → ¬ tc (depends_on G) c c.
Proof.
  intros Hinv [j Hj]%elem_of_list_to_set%list_elem_of_lookup Hxc Hc.
  assert (∃ i, sorted_ordering st !! i = Some c) as [i Hi].
  { apply rtc_tc in Hxc as [<-|Hxc]; [by eauto|].
    destruct (before_tc O G st x c Hinv Hxc j Hj) as (i&_&?). eauto. }
  destruct (before_tc O G st c c Hinv Hc i Hi) as (i'&Hlt&Hi').
  pose proof (NoDup_lookup _ _ _ _ (inv_nodup _ _ _ Hinv) Hi Hi'). lia.
Qed.

(** ** The frontier on entry to the loop *)

(** The frontier starts as the nodes without dependencies. *)
Lemma ts_init_frontier (G : graph) x :
  x ∈ frontier (ts_init O G)
  ↔ x ∈ edge_dict_to_node_set O G ∧ successors G x = ∅.
Proof.
  unfold ts_init.
  pose proof (collect_terminal_fold (set_iter O (edge_dict_to_node_set O G)) ∅
                (DefaultDict G)) as [Hterm _].
  destruct (foldl collect_terminal _ _) as [terminal ed].
  destruct (foldl init_counters _ _) as [added met]. simpl in *.
  rewrite Hterm, elem_of_set_iter. unfold dd_lookup. simpl. set_solver.
Qed.

Lemma ts_init_sorted_ordering (G : graph) : sorted_ordering (ts_init O G) = [].
Proof. unfold ts_init. by destruct (foldl _ _ _), (foldl _ _ _). Qed.

End further_facts.

(** ** The orderings a topological sort may return *)

Section orderings.
Context `{Countable T}.

Abbreviation graph := (gmap T (gset T)).
Abbreviation ts_state := (@DAG_utils.ts_state T _ _).

(** The order that takes the nodes out of the frontier as the list [l] has
    them, when the node that is next in [l] is in the frontier. *)
Definition pop_in_order (l : list T) (n : nat) (s : gset T) : option T :=
  match l !! n with
  | Some x => if decide (x ∈ s) then Some x else first_element n s
  | None => first_element n s
  end.

Lemma pop_in_order_Some l n s x : pop_in_order l n s = Some x → x ∈ s.
Proof.
  unfold pop_in_order. destruct (l !! n) as [y|]; [|apply first_element_Some].
  case_decide; [by intros [= <-]|apply first_element_Some].
Qed.

Lemma pop_in_order_None l n s : pop_in_order l n s = None → s = ∅.
Proof.
  unfold pop_in_order. destruct (l !! n) as [y|]; [|apply first_element_None].
  case_decide; [done|apply first_element_None].
Qed.

Definition order_of (l : list T) : py_order :=
  {| set_iter := elements;
     set_iter_perm := λ s, reflexivity (elements s);
     dict_keys := elements;
     dict_keys_perm := λ s, reflexivity (elements s);
     set_pop := pop_in_order l;
     set_pop_Some := pop_in_order_Some l;
     set_pop_None := pop_in_order_None l |}.

Lemma frontier_loop_follows (G : graph) (l : list T) :
  NoDup l →
  (∀ x, x ∈ l ↔ is_node G x) →
  (∀ j a b, l !! j = Some a → depends_on G a b →
            ∃ i, i < j ∧ l !! i = Some b) →
  ∀ d k (st : ts_state) fuel,
    length l = k + d → d ≤ fuel →
    ts_inv (order_of l) G st → pops st = k → sorted_ordering st = take k l →
    ∃ st', frontier_loop (order_of l) fuel st = Ret st' ∧
           ts_inv (order_of l) G st' ∧ sorted_ordering st' = l.
Proof.
  intros Hnd Hnodes Hbefore.
  induction d as [|d IH]; intros k st fuel Hlen Hfuel Hinv Hpops Hsorted.
  - assert (sorted_ordering st = l) as Hl.
    { rewrite Hsorted. apply take_ge. lia. }
    assert (frontier st = ∅) as Hempty.
    { pose proof (inv_frontier_nodes _ _ _ Hinv) as Hsub.
      pose proof (inv_frontier_new _ _ _ Hinv) as Hnew.
      apply set_eq. intros x. split; [|set_solver]. intros Hx. exfalso.
      apply (Hnew x Hx). unfold placed. rewrite Hl.
      apply elem_of_list_to_set, Hnodes.
      by apply (elem_of_edge_dict_to_node_set (order_of l)), Hsub. }
    exists st. split_and!; [|done..].
    destruct fuel; simpl; by rewrite decide_True.
  - destruct fuel as [|fuel]; [lia|].
    destruct (lookup_lt_is_Some_2 l k) as [x Hx]; [lia|].
    assert (placed st = list_to_set (take k l)) as Hplaced
      by (unfold placed; by rewrite Hsorted).
    assert (x ∉ placed st) as Hxnew.
    { rewrite Hplaced, elem_of_list_to_set.
      intros [i Hi]%list_elem_of_lookup.
      pose proof (lookup_lt_Some _ _ _ Hi) as Hlt. rewrite length_take in Hlt.
      rewrite lookup_take_lt in Hi by lia.
      pose proof (NoDup_lookup _ _ _ _ Hnd Hi Hx). lia. }
    assert (successors G x ⊆ placed st) as Hdeps.
    { intros b Hb%depends_on_successors.
      destruct (Hbefore k x b Hx Hb) as (i&Hlt&Hi).
      rewrite Hplaced. apply elem_of_list_to_set, list_elem_of_lookup.
      exists i. by rewrite lookup_take_lt. }
    assert (x ∈ frontier st) as Hfr.
    { apply (inv_ready _ _ _ Hinv); [|done..].
      apply elem_of_edge_dict_to_node_set, Hnodes.
      by eapply list_elem_of_lookup_2. }
    assert (frontier st ≠ ∅) as Hne by set_solver.
    destruct (frontier_step_result (order_of l) G st Hinv Hne)
      as (c&st1&Hpop&_&Hstep&Hinv1&Hpops1&Hres).
    assert (c = x) as ->.
    { cbn [set_pop order_of] in Hpop. unfold pop_in_order in Hpop.
      rewrite Hpops, Hx, decide_True in Hpop by done. congruence. }
    rewrite decide_True in Hres by done. destruct Hres as [Hsorted1 _].
    cbn [frontier_loop]. rewrite decide_False by done. rewrite Hstep.
    cbn [mbind res_bind]. apply (IH (S k)); [lia|lia|done|lia|].
    rewrite Hsorted1, Hsorted. by erewrite take_S_r.
Qed.

Lemma topological_sort_follows (G : graph) (l : list T) fuel :
  NoDup l →
  (∀ x, x ∈ l ↔ is_node G x) →
  (∀ j a b, l !! j = Some a → depends_on G a b →
            ∃ i, i < j ∧ l !! i = Some b) →
  length l ≤ fuel →
  topological_sort (order_of l) fuel G = Ret (Some l).
Proof.
  intros Hnd Hnodes Hbefore Hfuel. unfold topological_sort.
  destruct (frontier_loop_follows G l Hnd Hnodes Hbefore (length l) 0
              (ts_init (order_of l) G) fuel) as (st&->&Hinv&Hl);
    [done|done|apply ts_init_inv|apply ts_init_pops| |].
  { unfold ts_init. by destruct (foldl _ _ _), (foldl _ _ _). }
  cbn [mbind res_bind].
  rewrite (proj2 (all_added (order_of l) G st Hinv)); [by rewrite Hl|].
  intros x Hx%elem_of_edge_dict_to_node_set. unfold placed. rewrite Hl.
  by apply elem_of_list_to_set, Hnodes.
Qed.

(** *** Orderings with the dependencies first *)

(** Every member of [l] has its dependencies in [before] or earlier in
    [l]. *)
Fixpoint dependencies_first (G : graph) (before : gset T) (l : list T) : bool :=
  match l with
  | [] => true
  | a :: l' =>
      bool_decide (successors G a ⊆ before)
      && dependencies_first G (before ∪ {[a]}) l'
  end.

(** The orderings of the nodes of [G] in which every node comes after its
    dependencies. *)
Definition valid_orderings (G : graph) : list (list T) :=
  filter (λ l, dependencies_first G ∅ l = true)
         (permutations (elements (edge_dict_to_node_set canonical_order G))).

Lemma dependencies_first_spec (G : graph) before l :
  dependencies_first G before l = true
  ↔ ∀ j a b, l !! j = Some a → depends_on G a b →
             b ∈ before ∨ ∃ i, i < j ∧ l !! i = Some b.
Proof.
  revert before. induction l as [|a l IH]; intros before; simpl.
  { split; [|done]. by intros _ j a b ?. }
  rewrite andb_true_iff, bool_decide_eq_true, IH. split.
  - intros [Ha Hl] [|j] a' b Hj Hb; simplify_eq/=.
    + left. by apply Ha, depends_on_successors.
    + destruct (Hl j a' b Hj Hb) as [[?|Hba]%elem_of_union|(i&?&?)].
      * by left.
      * apply elem_of_singleton in Hba as ->.
        right. exists 0. split; [lia|done].
      * right. exists (S i). split; [lia|done].
  - intros Hl. split.
    + intros b Hb%depends_on_successors.
      destruct (Hl 0 a b eq_refl Hb) as [?|(i&?&_)]; [done|lia].
    + intros j a' b Hj Hb.
      destruct (Hl (S j) a' b Hj Hb) as [?|([|i]&?&Hi)]; simplify_eq/=.
      * left. set_solver.
      * left. set_solver.
      * right. exists i. split; [lia|done].
Qed.

Lemma elem_of_valid_orderings (G : graph) l :
  l ∈ valid_orderings G
  ↔ NoDup l ∧ (∀ x, x ∈ l ↔ is_node G x) ∧
    (∀ j a b, l !! j = Some a → depends_on G a b →
              ∃ i, i < j ∧ l !! i = Some b).
Proof.
  unfold valid_orderings.
  rewrite list_elem_of_filter, permutations_Permutation, dependencies_first_spec.
  assert ((∀ j a b, l !! j = Some a → depends_on G a b →
                    b ∈ (∅ : gset T) ∨ ∃ i, i < j ∧ l !! i = Some b)
          ↔ (∀ j a b, l !! j = Some a → depends_on G a b →
                      ∃ i, i < j ∧ l !! i = Some b)) as ->.
  { split; intros Hl j a b Hj Hb; destruct (Hl j a b Hj Hb); set_solver. }
  split.
  - intros [Hbefore Hperm]. split_and!; [|intros x|done].
    + rewrite <-Hperm. apply NoDup_elements.
    + by rewrite <-Hperm, elem_of_elements, elem_of_edge_dict_to_node_set.
  - intros (Hnd&Hnodes&Hbefore). split; [done|].
    apply NoDup_Permutation; [apply NoDup_elements|done|].
    intros x. by rewrite elem_of_elements, elem_of_edge_dict_to_node_set.
Qed.

Lemma frontier_loop_more_fuel (O : py_order) fuel fuel' (st st' : ts_state) :
  frontier_loop O fuel st = Ret st' → fuel ≤ fuel' →
  frontier_loop O fuel' st = Ret st'.
Proof.
  revert fuel' st. induction fuel as [|fuel IH]; intros fuel' st; simpl.
  - case_decide; [|done]. intros ? _. destruct fuel'; simpl; by rewrite decide_True.
  - case_decide as Hempty.
    { intros ? _. destruct fuel'; simpl; by rewrite decide_True. }
    destruct fuel' as [|fuel']; [lia|]. simpl. rewrite decide_False by done.
    destruct (frontier_step O st) as [st1| |]; [|done..]. simpl.
    intros ??. apply IH; [done|lia].
Qed.

Lemma topological_sort_more_fuel (O : py_order) fuel fuel' (G : graph) r :
  topological_sort O fuel G = Ret r → fuel ≤ fuel' →
  topological_sort O fuel' G = Ret r.
Proof.
  unfold topological_sort. intros Hrun Hfuel.
  destruct (frontier_loop O fuel (ts_init O G)) as [st| |] eqn:Hloop; [|done..].
  by rewrite (frontier_loop_more_fuel O fuel fuel' _ st Hloop Hfuel).
Qed.

Lemma topological_sort_valid (O : py_order) fuel (G : graph) l :
  topological_sort O fuel G = Ret (Some l) → l ∈ valid_orderings G.
Proof.
  intros Hrun.
  apply (topological_sort_more_fuel O fuel (fuel + ts_fuel O G)) in Hrun; [|lia].
  destruct (topological_sort_spec O G (fuel + ts_fuel O G))
    as [(l'&Hl'&_&?&?&?)|[? _]]; [lia| |congruence].
  rewrite Hrun in Hl'. simplify_eq. by apply elem_of_valid_orderings.
Qed.

(** *** The tests under any order *)

(** The predicates under one order return what the depth-first search
    returns under another. *)
Lemma predicates_by_other_order (O1 O2 : py_order) (G : graph) fuel (b : bool) :
  dfs_fuel O2 G ≤ fuel → ts_fuel O2 G ≤ fuel →
  is_graph_acylic_DFS O2 fuel G = Ret b →
  is_graph_acylic_DFS O1 fuel G = Ret b ∧
  is_graph_acyclic_toplogical O1 fuel G = Ret b.
Proof.
  intros Hdfs Hloop Hrun.
  assert (edge_dict_to_node_set O1 G = edge_dict_to_node_set O2 G) as Hnodes.
  { apply set_eq. intros x. by rewrite !elem_of_edge_dict_to_node_set. }
  assert (dfs_fuel O1 G ≤ fuel) as Hdfs1.
  { unfold dfs_fuel in *. by rewrite Hnodes. }
  assert (ts_fuel O1 G ≤ fuel) as Hloop1.
  { unfold ts_fuel in *. by rewrite Hnodes. }
  unfold is_graph_acyclic_toplogical.
  destruct (is_graph_acylic_DFS_spec O2 G fuel Hdfs) as [[Hr Ha]|[Hr Hc]];
    rewrite Hr in Hrun; injection Hrun as <-;
    destruct (is_graph_acylic_DFS_spec O1 G fuel Hdfs1) as [[-> ?]|[-> ?]];
    destruct (topological_sort_spec O1 G fuel Hloop1) as [(l&->&?&_)|[-> ?]];
    try done; by destruct (cyclic_not_acyclic G).
Qed.

Lemma topological_sort_in_valid_orderings (O : py_order) (G : graph) fuel :
  is_graph_acylic_DFS canonical_order fuel G = Ret true →
  dfs_fuel canonical_order G ≤ fuel → ts_fuel canonical_order G ≤ fuel →
  ∃ l, topological_sort O fuel G = Ret (Some l) ∧ l ∈ valid_orderings G.
Proof.
  intros Hrun Hdfs Hloop.
  destruct (predicates_by_other_order O canonical_order G fuel true)
    as [_ Htop]; [done..|].
  unfold is_graph_acyclic_toplogical in Htop.
  destruct (topological_sort O fuel G) as [[l|]| |] eqn:Hl; try done.
  exists l. split; [done|]. by eapply topological_sort_valid.
Qed.

End orderings.

(** ** The graphs of the random test *)

Section random_graph.
Import RandomTests.
Variables (randint : nat → nat) (n : nat).
Hypothesis randint_range : ∀ k, randint k < n.

(** Every key is below [n] and has a set that is not empty and holds
    numbers below [n]. *)
Definition in_range (g : defaultdict nat) : Prop :=
  ∀ a s, dd_items g !! a = Some s → a < n ∧ s ≠ ∅ ∧ ∀ b, b ∈ s → b < n.

Lemma add_random_edge_in_range from_node calls g i :
  in_range g → from_node < n →
  in_range (add_random_edge randint from_node (calls, g) i).2 ∧
  dom (dd_items g)
    ⊆ dom (dd_items (add_random_edge randint from_node (calls, g) i).2) ∧
  from_node ∈ dom (dd_items (add_random_edge randint from_node (calls, g) i).2).
Proof.
  intros Hg Hf.
  unfold in_range, add_random_edge, defaultdict_getitem, defaultdict_setitem.
  pose proof (randint_range calls) as Hto.
  destruct (dd_items g !! from_node) as [s|] eqn:Hs; simpl.
  - split_and!; [|set_solver..]. intros a s'.
    destruct (decide (a = from_node)) as [->|].
    + rewrite lookup_insert_eq. intros [= <-]. split; [done|].
      split; [set_solver|]. destruct (Hg _ _ Hs) as (_&_&Hlt).
      intros b [?|Hb%elem_of_singleton]%elem_of_union; [by auto|by subst b].
    + rewrite lookup_insert_ne by done. apply Hg.
  - split_and!; [|set_solver..]. intros a s'.
    destruct (decide (a = from_node)) as [->|].
    + rewrite lookup_insert_eq. intros [= <-]. split; [done|].
      split; [set_solver|].
      intros b [?|Hb%elem_of_singleton]%elem_of_union; [set_solver|by subst b].
    + rewrite !lookup_insert_ne by done. apply Hg.
Qed.

Lemma add_random_edges_in_range from_node l st :
  in_range st.2 → from_node < n →
  in_range (foldl (add_random_edge randint from_node) st l).2 ∧
  dom (dd_items st.2)
    ⊆ dom (dd_items (foldl (add_random_edge randint from_node) st l).2) ∧
  (l ≠ [] →
   from_node ∈ dom (dd_items (foldl (add_random_edge randint from_node) st l).2)).
Proof.
  intros Hst Hf. revert st Hst. induction l as [|i l IH]; intros [calls g] Hg.
  { done. }
  destruct (add_random_edge_in_range from_node calls g i Hg Hf) as (Hg'&Hdom&Hin).
  cbn [foldl]. destruct (IH _ Hg') as (?&Hdom'&_).
  split_and!; [done|set_solver|]. intros _. by apply Hdom'.
Qed.

Lemma random_graph_in_range :
  in_range (random_graph randint n) ∧
  ∀ a, a < n → a ∈ dom (dd_items (random_graph randint n)).
Proof.
  unfold random_graph.
  assert (∀ l st,
    in_range st.2 → (∀ a, a ∈ l → a < n) →
    in_range (foldl (λ st from_node,
                       foldl (add_random_edge randint from_node) st
                             (seq 0 MAX_DEGREE)) st l).2 ∧
    ∀ a, a ∈ dom (dd_items st.2) ∨ a ∈ l →
         a ∈ dom (dd_items
                    (foldl (λ st from_node,
                              foldl (add_random_edge randint from_node) st
                                    (seq 0 MAX_DEGREE)) st l).2)) as Hloop.
  { induction l as [|f l IH]; intros st Hst Hl.
    { split; [done|]. intros a [?|?%elem_of_nil]; done. }
    destruct (add_random_edges_in_range f (seq 0 MAX_DEGREE) st Hst)
      as (Hst'&Hdom&Hf); [apply Hl; left|].
    cbn [foldl]. destruct (IH _ Hst') as [? Hdom'].
    { intros a ?. apply Hl. by right. }
    split; [done|]. intros a [?|[->|?]%elem_of_cons].
    - apply Hdom'. left. by apply Hdom.
    - apply Hdom'. left. by apply Hf.
    - apply Hdom'. by right. }
  destruct (Hloop (seq 0 n) (0, DefaultDict ∅)) as [Hrange Hdom].
  { by intros a s. }
  { intros a ?%elem_of_seq. lia. }
  split; [done|]. intros a Ha. apply Hdom. right. apply elem_of_seq. lia.
Qed.

Lemma random_graph_nodes (O : @py_order nat _ _) x :
  x ∈ edge_dict_to_node_set O (dd_items (random_graph randint n)) ↔ x < n.
Proof.
  destruct random_graph_in_range as [Hrange Hdom].
  rewrite elem_of_edge_dict_to_node_set. split.
  - intros [[s Hs]%elem_of_dom|(a&s&Hs&Hx)].
    + by destruct (Hrange _ _ Hs).
    + destruct (Hrange _ _ Hs) as (_&_&Hlt). by apply Hlt.
  - intros ?. left. by apply Hdom.
Qed.

Lemma random_graph_cyclic (O : @py_order nat _ _) :
  0 < n → cyclic (dd_items (random_graph randint n)).
Proof.
  intros Hn. destruct random_graph_in_range as [Hrange Hdom].
  destruct (acyclic_or_cyclic O (dd_items (random_graph randint n)))
    as [Hacyc|?]; [exfalso|done].
  assert (edge_dict_to_node_set O (dd_items (random_graph randint n)) = ∅)
    as Hempty.
  { apply (no_sink_empty (tc (depends_on (dd_items (random_graph randint n)))));
      [apply _|exact Hacyc|].
    intros x [s Hs]%random_graph_nodes%Hdom%elem_of_dom.
    destruct (Hrange _ _ Hs) as (_&[y Hy]%set_choose_L&Hlt).
    exists y. split; [by apply random_graph_nodes, Hlt|].
    apply tc_once. by exists s. }
  assert (0 ∈ edge_dict_to_node_set O (dd_items (random_graph randint n)))
    as Hzero by (by apply random_graph_nodes).
  rewrite Hempty in Hzero. by apply not_elem_of_empty in Hzero.
Qed.

Lemma random_graph_size (O : @py_order nat _ _) :
  size (edge_dict_to_node_set O (dd_items (random_graph randint n))) = n.
Proof.
  assert (edge_dict_to_node_set O (dd_items (random_graph randint n))
          = set_seq 0 n) as ->.
  { apply set_eq. intros x. rewrite random_graph_nodes, elem_of_set_seq. lia. }
  apply size_set_seq.
Qed.

End random_graph.

(** * The properties of the specification *)

(** C1: given the recursion depth and the iterations they need, the DFS
    predicate and the predicate built on the topological sort return the
    same boolean on every graph, whatever the orders in which the two runs
    visit sets and dicts. *)
Theorem acyclicity_predicates_agree `{Countable T} (O1 O2 : py_order)
    (G : gmap T (gset T)) (fuel1 fuel2 : nat) :
  dfs_fuel O1 G ≤ fuel1 → ts_fuel O2 G ≤ fuel2 →
  ∃ b, is_graph_acylic_DFS O1 fuel1 G = Ret b ∧
       is_graph_acyclic_toplogical O2 fuel2 G = Ret b.
Proof.
  intros Hf1 Hf2. unfold is_graph_acyclic_toplogical.
  destruct (is_graph_acylic_DFS_spec O1 G fuel1 Hf1) as [[-> Hacyc]|[-> Hcyc]];
    destruct (topological_sort_spec O2 G fuel2 Hf2)
      as [(l&->&Hacyc'&_)|[-> Hcyc']]; simpl; eauto.
  - done.
  - by apply cyclic_not_acyclic in Hcyc.
Qed.

(** C2: on an acyclic graph [topological_sort] returns a list without
    repetition whose members are exactly the nodes of the graph (its keys
    and the members of its dependency sets), so its length is the size of
    the node set. *)
Theorem topological_sort_each_node_once `{Countable T} (O : py_order)
    (G : gmap T (gset T)) (fuel : nat) :
  acyclic G → ts_fuel O G ≤ fuel →
  ∃ l, topological_sort O fuel G = Ret (Some l) ∧
       NoDup l ∧
       (∀ x, x ∈ l ↔ x ∈ dom G ∨ ∃ k s, G !! k = Some s ∧ x ∈ s) ∧
       (∀ x, x ∈ l ↔ x ∈ edge_dict_to_node_set O G) ∧
       length l = size (edge_dict_to_node_set O G).
Proof.
  intros Hacyc Hfuel.
  destruct (topological_sort_spec O G fuel Hfuel)
    as [(l&->&_&Hnd&Hl&_)|[_ []]]; [|done].
  assert (∀ x, x ∈ l ↔ x ∈ edge_dict_to_node_set O G) as Hl'.
  { intros x. by rewrite elem_of_edge_dict_to_node_set. }
  exists l. split_and!; [done|done| |done|].
  - intros x. rewrite Hl. unfold is_node, depends_on. naive_solver.
  - unfold size, set_size. simpl. apply Permutation_length, NoDup_Permutation;
      [done|apply NoDup_elements|].
    intros x. by rewrite Hl', elem_of_elements.
Qed.

(** C3: on an acyclic graph, for every edge "a depends on b" the index of
    [b] in the list [topological_sort] returns is smaller than that of
    [a]. *)
Theorem topological_sort_dependencies_first `{Countable T} (O : py_order)
    (G : gmap T (gset T)) (fuel : nat) :
  acyclic G → ts_fuel O G ≤ fuel →
  ∃ l, topological_sort O fuel G = Ret (Some l) ∧
       ∀ a b s, G !! a = Some s → b ∈ s →
                ∃ i j, index b l = Some i ∧ index a l = Some j ∧ i < j.
Proof.
  intros Hacyc Hfuel.
  destruct (topological_sort_spec O G fuel Hfuel)
    as [(l&->&_&Hnd&Hl&Hbefore)|[_ []]]; [|done].
  exists l. split; [done|]. intros a b s Ha Hb.
  assert (a ∈ l) as [j Hj]%list_elem_of_lookup.
  { apply Hl. left. apply elem_of_dom. eauto. }
  destruct (Hbefore j a b Hj) as (i&Hlt&Hi); [by exists s|].
  exists i, j. split_and!; [by apply index_lookup..|done].
Qed.

(** C4: on a graph with a node on a directed cycle [topological_sort]
    returns [None]: it returns no list and raises nothing. *)
Theorem topological_sort_cycle_signal `{Countable T} (O : py_order)
    (G : gmap T (gset T)) (fuel : nat) :
  cyclic G → ts_fuel O G ≤ fuel →
  topological_sort O fuel G = Ret None.
Proof.
  intros Hcyc Hfuel.
  destruct (topological_sort_spec O G fuel Hfuel)
    as [(l&_&Hacyc&_)|[-> _]]; [|done].
  by apply cyclic_not_acyclic in Hcyc.
Qed.

(** C5: [topological_sort({})] is the empty list, not [None]. *)
Theorem topological_sort_empty `{Countable T} (O : py_order) (fuel : nat) :
  topological_sort O fuel (∅ : gmap T (gset T)) = Ret (Some []).
Proof.
  unfold topological_sort, ts_init, invert_edge_dict, edge_dict_to_node_set.
  cbn [dd_items]. rewrite (dict_items_empty O (V:=gset T)). cbn [foldl].
  rewrite set_iter_empty. cbn [foldl].
  destruct fuel; cbn [frontier_loop frontier]; rewrite decide_True by done;
    cbn [mbind res_bind node_to_is_added sorted_ordering];
    by rewrite (dict_items_empty O (V:=bool)).
Qed.

(** C6: for every edge "a depends on b" the inverted dictionary maps [b] to
    a set that contains [a]; a node that is in no value set of the graph is
    not a key of the inverted dictionary, and looking it up there gives the
    empty set. *)
Theorem invert_edge_dict_reverses `{Countable T} (O : py_order)
    (G : gmap T (gset T)) :
  (∀ a b s, G !! a = Some s → b ∈ s →
     ∃ s', dd_items (invert_edge_dict O G) !! b = Some s' ∧ a ∈ s' ∧
           (defaultdict_getitem (invert_edge_dict O G) b).1 = s') ∧
  (∀ x, (∀ k s, G !! k = Some s → x ∉ s) →
     dd_items (invert_edge_dict O G) !! x = None ∧
     (defaultdict_getitem (invert_edge_dict O G) x).1 = ∅).
Proof.
  split.
  - intros a b s Ha Hb.
    assert (depends_on G a b) as Hab by (by exists s).
    apply (invert_edge_dict_lookup O) in Hab.
    unfold defaultdict_getitem, dd_lookup, successors in *.
    destruct (dd_items (invert_edge_dict O G) !! b) as [s'|]; [by eauto|].
    by apply not_elem_of_empty in Hab.
  - intros x Hx.
    assert (dd_items (invert_edge_dict O G) !! x = None) as Hnone.
    { apply not_elem_of_dom. rewrite invert_edge_dict_dom.
      intros (a&s&?&?). by eapply Hx. }
    unfold defaultdict_getitem. by rewrite Hnone.
Qed.

(** C7: [edge_dict_to_node_set] returns exactly the keys of the graph and
    the members of its value sets; a node that is only a dependency is
    included, and the empty graph gives the empty set. *)
Theorem edge_dict_to_node_set_exact `{Countable T} (O : py_order) :
  (∀ (G : gmap T (gset T)) x,
     x ∈ edge_dict_to_node_set O G
     ↔ x ∈ dom G ∨ ∃ k s, G !! k = Some s ∧ x ∈ s) ∧
  (∀ (G : gmap T (gset T)) k s x,
     G !! k = Some s → x ∈ s → x ∉ dom G → x ∈ edge_dict_to_node_set O G) ∧
  edge_dict_to_node_set O (∅ : gmap T (gset T)) = ∅.
Proof.
  assert (∀ (G : gmap T (gset T)) x,
     x ∈ edge_dict_to_node_set O G
     ↔ x ∈ dom G ∨ ∃ k s, G !! k = Some s ∧ x ∈ s) as Hexact.
  { intros G x. rewrite elem_of_edge_dict_to_node_set.
    unfold is_node, depends_on. naive_solver. }
  split_and!; [done| |].
  - intros G k s x ???. apply Hexact. eauto.
  - unfold edge_dict_to_node_set. by rewrite (dict_items_empty O (V:=gset T)).
Qed.

(** C8: a call of [topological_sort], [is_graph_acylic_DFS] or
    [is_graph_acyclic_toplogical] on a dict of the store returns what the
    function on values returns, and every object the store held before the
    call, the caller's dict and its sets among them, is the same object
    with the same content after the call: the dict still holds the graph
    it held. *)
Theorem calls_leave_graph_unchanged `{Countable T} (O : py_order)
    (h : gmap Heap.loc Heap.pyobj) (g : Heap.loc) (G : gmap T (gset T))
    (fuel_loop fuel_dfs : nat) :
  Heap.represents h g G →
  ts_fuel O G ≤ fuel_loop → dfs_fuel O G ≤ fuel_dfs →
  (∃ r h', Heap.topological_sort O fuel_loop g h = Ret (r, h') ∧
           topological_sort O fuel_loop G = Ret r ∧
           h ⊆ h' ∧ Heap.represents h' g G) ∧
  (∃ b h', Heap.is_graph_acylic_DFS O fuel_dfs g h = Ret (b, h') ∧
           is_graph_acylic_DFS O fuel_dfs G = Ret b ∧
           h ⊆ h' ∧ Heap.represents h' g G) ∧
  (∃ b h', Heap.is_graph_acyclic_toplogical O fuel_loop g h = Ret (b, h') ∧
           is_graph_acyclic_toplogical O fuel_loop G = Ret b ∧
           h ⊆ h' ∧ Heap.represents h' g G).
Proof.
  intros Hg Hloop Hdfs. split_and!.
  - pose proof (HeapFacts.topological_sort_sim O h g G fuel_loop Hg) as Hsim.
    destruct (topological_sort_spec O G fuel_loop Hloop)
      as [(l&Hr&_)|[Hr _]]; rewrite Hr in Hsim;
      destruct Hsim as (r&h'&?&?&?); subst r; eexists _, h';
      eauto using HeapFacts.represents_weaken.
  - pose proof (HeapFacts.is_graph_acylic_DFS_sim O h g G fuel_dfs Hg) as Hsim.
    destruct (is_graph_acylic_DFS_spec O G fuel_dfs Hdfs)
      as [[Hr _]|[Hr _]]; rewrite Hr in Hsim;
      destruct Hsim as (r&h'&?&?&?); subst r; eexists _, h';
      eauto using HeapFacts.represents_weaken.
  - pose proof (HeapFacts.is_graph_acyclic_toplogical_sim O h g G fuel_loop Hg)
      as Hsim. unfold is_graph_acyclic_toplogical in *.
    destruct (topological_sort_spec O G fuel_loop Hloop)
      as [(l&Hr&_)|[Hr _]]; rewrite Hr in *;
      destruct Hsim as (r&h'&?&?&?); subst r; eexists _, h';
      eauto using HeapFacts.represents_weaken.
Qed.

(** C9: both algorithms terminate on every graph, cyclic or not.  The
    frontier loop ends with an empty frontier after at most [ts_fuel]
    pops, having appended no node twice; the DFS helper returns from every
    start node within recursion depth [dfs_fuel], one more than the number
    of nodes. *)
Theorem sort_and_search_terminate `{Countable T} (O : py_order)
    (G : gmap T (gset T)) (fuel_loop fuel_dfs : nat) :
  ts_fuel O G ≤ fuel_loop → dfs_fuel O G ≤ fuel_dfs →
  (∃ st, frontier_loop O fuel_loop (ts_init O G) = Ret st ∧
         frontier st = ∅ ∧ NoDup (sorted_ordering st) ∧
         pops st ≤ ts_fuel O G) ∧
  (∃ r, topological_sort O fuel_loop G = Ret r) ∧
  (∀ start, start ∈ edge_dict_to_node_set O G →
     ∃ r, is_graph_acylic_helper O fuel_dfs (∅, DefaultDict G) start = Ret r) ∧
  (∃ b, is_graph_acylic_DFS O fuel_dfs G = Ret b).
Proof.
  intros Hloop Hdfs. split_and!.
  - destruct (frontier_loop_inv O G fuel_loop (ts_init O G))
      as (st&?&Hinv&?&Hpops).
    { apply ts_init_inv. }
    { pose proof (ts_init_potential O G). lia. }
    exists st. split_and!; [done|done|apply Hinv|].
    pose proof (ts_init_potential O G). rewrite ts_init_pops in Hpops. lia.
  - destruct (topological_sort_spec O G fuel_loop Hloop)
      as [(l&->&_)|[-> _]]; eauto.
  - intros start Hstart.
    destruct (is_graph_acylic_helper_spec O G fuel_dfs ∅ (DefaultDict G) start)
      as (b&seen'&ed'&->&_); eauto.
    assert (size (edge_dict_to_node_set O G ∖ ∅)
            ≤ size (edge_dict_to_node_set O G)) by (apply subseteq_size; set_solver).
    unfold dfs_fuel in Hdfs. lia.
  - destruct (is_graph_acylic_DFS_spec O G fuel_dfs Hdfs) as [[-> _]|[-> _]]; eauto.
Qed.

(** C10: the inverted dictionary has [y] in its set for the key [x] exactly
    when "y depends on x" is an edge of the graph; inverting twice gives
    back the edges of the graph. *)
Theorem invert_edge_dict_exact `{Countable T} (O : py_order)
    (G : gmap T (gset T)) :
  (∀ x y, (∃ s', dd_items (invert_edge_dict O G) !! x = Some s' ∧ y ∈ s')
          ↔ (∃ s, G !! y = Some s ∧ x ∈ s)) ∧
  (∀ a b,
     depends_on (dd_items (invert_edge_dict O (dd_items (invert_edge_dict O G))))
                a b
     ↔ depends_on G a b).
Proof.
  assert (∀ (G : gmap T (gset T)) x y,
            depends_on (dd_items (invert_edge_dict O G)) x y ↔ depends_on G y x)
    as Hinv.
  { intros G' x y. by rewrite depends_on_successors, <-invert_edge_dict_lookup. }
  split; [apply Hinv|]. intros a b. by rewrite !Hinv.
Qed.

(** * Further properties of the code *)

(** X1: given the recursion depth it needs, [is_graph_acylic_DFS] returns
    [True] exactly on the graphs without a directed cycle and [False]
    exactly on the graphs with one. *)
Theorem is_graph_acylic_DFS_decides `{Countable T} (O : py_order)
    (G : gmap T (gset T)) (fuel : nat) :
  dfs_fuel O G ≤ fuel →
  (is_graph_acylic_DFS O fuel G = Ret true ↔ acyclic G) ∧
  (is_graph_acylic_DFS O fuel G = Ret false ↔ cyclic G).
Proof.
  intros Hfuel.
  destruct (is_graph_acylic_DFS_spec O G fuel Hfuel) as [[-> Ha]|[-> Hc]].
  - split; [done|]. split; [done|]. by intros ?%cyclic_not_acyclic.
  - split; [|done]. split; [done|]. by intros ?%(cyclic_not_acyclic G).
Qed.

(** X2: given the iterations it needs, [is_graph_acyclic_toplogical]
    returns [True] exactly on the graphs without a directed cycle and
    [False] exactly on the graphs with one. *)
Theorem is_graph_acyclic_toplogical_decides `{Countable T} (O : py_order)
    (G : gmap T (gset T)) (fuel : nat) :
  ts_fuel O G ≤ fuel →
  (is_graph_acyclic_toplogical O fuel G = Ret true ↔ acyclic G) ∧
  (is_graph_acyclic_toplogical O fuel G = Ret false ↔ cyclic G).
Proof.
  intros Hfuel. unfold is_graph_acyclic_toplogical.
  destruct (topological_sort_spec O G fuel Hfuel)
    as [(l&->&Ha&_)|[-> Hc]]; simpl.
  - split; [done|]. split; [done|]. by intros ?%cyclic_not_acyclic.
  - split; [done|]. split; [|done]. intros _.
    by destruct (acyclic_or_cyclic O G).
Qed.

(** X3: the helper of the depth-first search, called on a node of the
    graph with any set of nodes seen so far, returns [True] exactly when
    no node that can be reached from the current node is in the set or on
    a cycle.  When it returns [True] the set is as it was before the call;
    when it returns [False] the set still holds what it held before, and
    the nodes of the path that was being searched. *)
Theorem is_graph_acylic_helper_contract `{Countable T} (O : py_order)
    (G : gmap T (gset T)) (fuel : nat) (set_seen_so_far : gset T)
    (current_node : T) :
  current_node ∈ edge_dict_to_node_set O G →
  size (edge_dict_to_node_set O G ∖ set_seen_so_far) < fuel →
  ∃ b seen' ed',
    is_graph_acylic_helper O fuel (set_seen_so_far, DefaultDict G) current_node
      = Ret (b, (seen', ed')) ∧
    (b = true ↔
       ∀ m, rtc (depends_on G) current_node m →
            (m ∉ set_seen_so_far) ∧ (¬ tc (depends_on G) m m)) ∧
    (b = true → seen' = set_seen_so_far) ∧
    (b = false → set_seen_so_far ⊆ seen').
Proof.
  intros Hcur Hfuel.
  destruct (is_graph_acylic_helper_spec O G fuel set_seen_so_far (DefaultDict G)
              current_node) as (b&seen'&ed'&Hrun&_&Ht&_); [done..|].
  destruct (is_graph_acylic_helper_returns O G fuel set_seen_so_far
              (DefaultDict G) current_node b seen' ed' (λ k, eq_refl) Hrun)
    as (_&Hsame&Hf).
  exists b, seen', ed'. split_and!; [done| |done|by intros [? _]%Hf].
  split; [by intros [_ ?]%Ht|]. intros Hnone. destruct b; [done|].
  destruct Hf as (_&m&Hm&[?|?]); [done|by destruct (Hnone m Hm)..].
Qed.

(** X4: the lists [topological_sort] can return on a graph, over all the
    orders in which sets and dicts may be visited and popped, are exactly
    the orderings of its nodes without repetition in which every node comes
    after the members of its dependency set: each result is such an
    ordering, and each such ordering is the result under some order. *)
Theorem topological_sort_returns_valid_orderings `{Countable T}
    (G : gmap T (gset T)) (l : list T) :
  ((∃ (O : py_order) fuel, topological_sort O fuel G = Ret (Some l))
   ↔ l ∈ valid_orderings G) ∧
  (l ∈ valid_orderings G
   ↔ NoDup l ∧
     (∀ x, x ∈ l ↔ x ∈ dom G ∨ ∃ k s, G !! k = Some s ∧ x ∈ s) ∧
     (∀ j a b s, l !! j = Some a → G !! a = Some s → b ∈ s →
                 ∃ i, i < j ∧ l !! i = Some b)).
Proof.
  split.
  - split.
    + intros (O&fuel&Hrun). by eapply topological_sort_valid.
    + intros (?&?&?)%elem_of_valid_orderings.
      exists (order_of l), (length l). by apply topological_sort_follows.
  - rewrite elem_of_valid_orderings. unfold is_node, depends_on.
    split; intros (?&Hnodes&Hbefore); split_and!; try done.
    + intros j a b s ???. apply (Hbefore j a b); eauto.
    + intros j a b ? (s&?&?). by apply (Hbefore j a b s).
Qed.

(** X5: the frontier loop of [topological_sort] ends after at most as many
    pops as the graph has nodes and edges together, so that many
    iterations are enough for [topological_sort] to return, and more
    iterations do not change what it returns. *)
Theorem topological_sort_iterations `{Countable T} (O : py_order)
    (G : gmap T (gset T)) (fuel : nat) :
  size (edge_dict_to_node_set O G) + size (edge_set G) ≤ fuel →
  (∀ a b, (a, b) ∈ edge_set G ↔ ∃ s, G !! a = Some s ∧ b ∈ s) ∧
  (∃ st, frontier_loop O fuel (ts_init O G) = Ret st ∧ frontier st = ∅ ∧
         pops st ≤ size (edge_dict_to_node_set O G) + size (edge_set G)) ∧
  (∃ r, ∀ fuel', fuel ≤ fuel' → topological_sort O fuel' G = Ret r).
Proof.
  intros Hfuel. pose proof (ts_init_work O G) as Hwork.
  destruct (frontier_loop_work O G fuel (ts_init O G))
    as (st&Hloop&Hinv&Hempty&Hpops); [apply ts_init_inv|lia|].
  rewrite ts_init_pops in Hpops. split_and!.
  - apply elem_of_edge_set.
  - exists st. split_and!; [done..|lia].
  - exists (if forallb id (dict_items O (node_to_is_added st)).*2
            then Some (sorted_ordering st) else None).
    intros fuel' Hfuel'. unfold topological_sort.
    rewrite (frontier_loop_more_fuel O fuel fuel' _ st Hloop Hfuel').
    cbn [mbind res_bind]. by destruct (forallb _ _).
Qed.

(** X6: on every graph, cyclic or not, the list the frontier loop has
    built when it ends holds exactly the nodes from which no cycle can be
    reached, each after the members of its dependency set. *)
Theorem frontier_loop_places_cycle_free_nodes `{Countable T} (O : py_order)
    (G : gmap T (gset T)) (fuel : nat) :
  ts_fuel O G ≤ fuel →
  ∃ st, frontier_loop O fuel (ts_init O G) = Ret st ∧
    (∀ x, x ∈ sorted_ordering st
          ↔ x ∈ edge_dict_to_node_set O G ∧
            ¬ ∃ c, rtc (depends_on G) x c ∧ tc (depends_on G) c c) ∧
    (∀ j a b, sorted_ordering st !! j = Some a → depends_on G a b →
              ∃ i, i < j ∧ sorted_ordering st !! i = Some b).
Proof.
  intros Hfuel.
  destruct (frontier_loop_inv O G fuel (ts_init O G)) as (st&Hloop&Hinv&Hempty&_).
  { apply ts_init_inv. }
  { pose proof (ts_init_potential O G). lia. }
  exists st. split_and!; [done| |apply Hinv].
  intros x. split.
  - intros Hx%(elem_of_list_to_set (C:=gset T)). split.
    + by apply (inv_placed_nodes _ _ _ Hinv).
    + intros (c&Hxc&Hc).
      by apply (placed_leads_to_no_cycle O G st x c Hinv Hx Hxc).
  - intros [HxN Hfree].
    destruct (decide (x ∈ placed st)) as [Hx|Hx];
      [by apply elem_of_list_to_set in Hx|].
    destruct Hfree. by apply (unplaced_leads_to_cycle O G st).
Qed.

(** X15: on a graph with a node in which every node has a dependency
    set that is not empty, the frontier is empty on entry to the loop, the
    body of the loop never runs, and [topological_sort] returns [None]. *)
Theorem topological_sort_no_terminal_node `{Countable T} (O : py_order)
    (G : gmap T (gset T)) (fuel : nat) (node : T) :
  node ∈ edge_dict_to_node_set O G →
  (∀ x, x ∈ edge_dict_to_node_set O G → successors G x ≠ ∅) →
  frontier (ts_init O G) = ∅ ∧
  frontier_loop O fuel (ts_init O G) = Ret (ts_init O G) ∧
  topological_sort O fuel G = Ret None.
Proof.
  intros Hnode Hdeps.
  assert (frontier (ts_init O G) = ∅) as Hempty.
  { apply set_eq. intros x. split; [|set_solver].
    intros [HxN Hx]%ts_init_frontier. by destruct (Hdeps x HxN). }
  assert (frontier_loop O fuel (ts_init O G) = Ret (ts_init O G)) as Hloop.
  { destruct fuel; simpl; by rewrite decide_True. }
  split_and!; [done..|]. unfold topological_sort. rewrite Hloop.
  cbn [mbind res_bind].
  destruct (forallb id _) eqn:Hall; [exfalso|done].
  apply (all_added O G _ (ts_init_inv O G)) in Hall.
  apply Hall in Hnode. unfold placed in Hnode.
  rewrite ts_init_sorted_ordering in Hnode. set_solver.
Qed.

(** X7: what [edge_dict_to_node_set] and [invert_edge_dict] return does
    not depend on the order in which the dict and its sets are visited. *)
Theorem helpers_independent_of_order `{Countable T} (O1 O2 : py_order)
    (G : gmap T (gset T)) :
  edge_dict_to_node_set O1 G = edge_dict_to_node_set O2 G ∧
  invert_edge_dict O1 G = invert_edge_dict O2 G.
Proof.
  split.
  - apply set_eq. intros x. by rewrite !elem_of_edge_dict_to_node_set.
  - pose proof (invert_edge_dict_lookup_Some O1 G) as H1.
    pose proof (invert_edge_dict_lookup_Some O2 G) as H2.
    destruct (invert_edge_dict O1 G) as [m1], (invert_edge_dict O2 G) as [m2].
    simpl in *. f_equal. apply map_eq. intros b. apply option_eq. intros s.
    by rewrite H1, H2.
Qed.

(** X8: no set of the dictionary [invert_edge_dict] returns is empty.
    Inverting twice gives the dictionary one started from without the keys
    whose set is empty, so it gives back the dictionary itself exactly when
    none of its sets is empty. *)
Theorem invert_edge_dict_twice `{Countable T} (O : py_order)
    (G : gmap T (gset T)) :
  map_Forall (λ _ s, s ≠ ∅) (dd_items (invert_edge_dict O G)) ∧
  dd_items (invert_edge_dict O (dd_items (invert_edge_dict O G)))
    = filter (λ kv, kv.2 ≠ ∅) G ∧
  (dd_items (invert_edge_dict O (dd_items (invert_edge_dict O G))) = G
   ↔ map_Forall (λ _ s, s ≠ ∅) G).
Proof.
  assert (dd_items (invert_edge_dict O (dd_items (invert_edge_dict O G)))
          = filter (λ kv, kv.2 ≠ ∅) G) as Htwice.
  { apply map_eq. intros a. apply option_eq. intros s.
    rewrite invert_edge_dict_lookup_Some, map_lookup_filter_Some. simpl.
    setoid_rewrite depends_on_invert. unfold depends_on. split.
    - intros [Hne Hmem]. split; [|done].
      apply set_choose_L in Hne as Hb. destruct Hb as [b Hb].
      apply Hmem in Hb as Hb'. destruct Hb' as (s'&Hs'&_). rewrite Hs'.
      f_equal. apply set_eq. intros b'. rewrite Hmem. naive_solver.
    - intros [Hs Hne]. split; [done|]. naive_solver. }
  split_and!; [|done|].
  - intros b s Hs. by apply invert_edge_dict_lookup_Some in Hs as [? _].
  - rewrite Htwice. split.
    + intros Heq a s Hs. rewrite <-Heq in Hs.
      by apply map_lookup_filter_Some in Hs as [_ ?].
    + intros Hne. apply map_filter_id. intros a s Hs. by apply (Hne a s).
Qed.

(** X9: a graph and its inverted dictionary are acyclic together: each of
    the two predicates returns on [invert_edge_dict(G)] what it returns on
    [G]. *)
Theorem inversion_keeps_acyclicity `{Countable T} (O : py_order)
    (G : gmap T (gset T)) (fuel_dfs fuel_loop : nat) :
  dfs_fuel O G ≤ fuel_dfs → ts_fuel O G ≤ fuel_loop →
  is_graph_acylic_DFS O fuel_dfs (dd_items (invert_edge_dict O G))
    = is_graph_acylic_DFS O fuel_dfs G ∧
  is_graph_acyclic_toplogical O fuel_loop (dd_items (invert_edge_dict O G))
    = is_graph_acyclic_toplogical O fuel_loop G.
Proof.
  intros Hdfs Hloop.
  pose proof (subseteq_size _ _ (node_set_invert_subseteq O G)) as Hsize.
  assert (dfs_fuel O (dd_items (invert_edge_dict O G)) ≤ fuel_dfs) as Hdfs'.
  { unfold dfs_fuel in *. lia. }
  assert (ts_fuel O (dd_items (invert_edge_dict O G)) ≤ fuel_loop) as Hloop'.
  { unfold ts_fuel in *. simpl in *. nia. }
  split.
  - destruct (is_graph_acylic_DFS_spec O G fuel_dfs Hdfs) as [[-> Ha]|[-> Hc]];
      destruct (is_graph_acylic_DFS_spec O _ fuel_dfs Hdfs')
        as [[-> Ha']|[-> Hc']]; try done.
    + apply cyclic_invert in Hc'. by apply cyclic_not_acyclic in Hc'.
    + apply acyclic_invert in Ha'. by apply cyclic_not_acyclic in Hc.
  - unfold is_graph_acyclic_toplogical.
    destruct (topological_sort_spec O G fuel_loop Hloop)
      as [(l&->&Ha&_)|[-> Hc]];
      destruct (topological_sort_spec O _ fuel_loop Hloop')
        as [(l'&->&Ha'&_)|[-> Hc']]; try done.
    + by apply (acyclic_invert O) in Ha.
    + by apply acyclic_invert in Ha'.
Qed.

(** X10: [invert_edge_dict] on a dict of the store leaves every object the
    store held as it was and returns a new [defaultdict] that holds the
    inverted graph; each of its sets is a new object, and no two of its
    keys share a set. *)
Theorem invert_edge_dict_builds_new_objects `{Countable T} (O : py_order)
    (h : gmap Heap.loc Heap.pyobj) (g : Heap.loc) (G : gmap T (gset T)) :
  Heap.represents h g G →
  ∃ new_dict h' items,
    Heap.invert_edge_dict O g h = Ret (new_dict, h') ∧
    h ⊆ h' ∧ h !! new_dict = None ∧
    h' !! new_dict = Some (Heap.PyDict true items) ∧
    Heap.items_rep h' items (dd_items (invert_edge_dict O G)) ∧
    (∀ k v, items !! k = Some v → h !! v = None) ∧
    (∀ k k' v, items !! k = Some v → items !! k' = Some v → k = k').
Proof.
  intros (b&items&Hg&Hrep).
  destruct (HeapFacts.invert_edge_dict_inv O h g b items G Hg Hrep)
    as (nd&h'&Hrun&[? ? (nitems&?&?&?&?)]).
  by exists nd, h', nitems.
Qed.

(** X11: [edge_dict_to_node_set] on a dict of the store leaves every object
    the store held as it was and returns a new set that holds the keys of
    the dict and the members of its sets. *)
Theorem edge_dict_to_node_set_builds_new_set `{Countable T} (O : py_order)
    (h : gmap Heap.loc Heap.pyobj) (g : Heap.loc) (G : gmap T (gset T)) :
  Heap.represents h g G →
  ∃ all_nodes h',
    Heap.edge_dict_to_node_set O g h = Ret (all_nodes, h') ∧
    h ⊆ h' ∧ h !! all_nodes = None ∧
    h' !! all_nodes = Some (Heap.PySet (edge_dict_to_node_set O G)).
Proof.
  intros (b&items&Hg&Hrep).
  by apply (HeapFacts.edge_dict_to_node_set_spec O h g b items G).
Qed.

(** * The test suite *)

(** test_topolgical_sort *)
Example test_topolgical_sort :
  topological_sort Tests.order 100 ∅ = Ret (Some []) ∧
  topological_sort Tests.order 100 Tests.chain1 = Ret (Some [1; 0]%Z) ∧
  topological_sort Tests.order 100 Tests.chain2 = Ret (Some [2; 1; 0]%Z) ∧
  topological_sort Tests.order 100 Tests.fork ∈
    [Ret (Some [3; 2; 1; 0]%Z); Ret (Some [2; 3; 1; 0]%Z)] ∧
  topological_sort Tests.order 100 Tests.merge2 ∈
    [Ret (Some [4; 3; 2; 1; 0]%Z); Ret (Some [4; 2; 3; 1; 0]%Z)].
Proof. vm_compute. repeat split; repeat constructor. Qed.

(** The same test when sets and dicts are visited in the opposite order:
    the chains have one ordering, the other graphs have two and the run
    finds the other one. *)
Example test_topolgical_sort_reversed :
  topological_sort Tests.order' 100 Tests.chain2 = Ret (Some [2; 1; 0]%Z) ∧
  topological_sort Tests.order 100 Tests.fork = Ret (Some [3; 2; 1; 0]%Z) ∧
  topological_sort Tests.order' 100 Tests.fork = Ret (Some [2; 3; 1; 0]%Z) ∧
  topological_sort Tests.order 100 Tests.merge2 = Ret (Some [4; 3; 2; 1; 0]%Z) ∧
  topological_sort Tests.order' 100 Tests.merge2 = Ret (Some [4; 2; 3; 1; 0]%Z).
Proof. vm_compute. repeat split. Qed.

(** test_cycle_check *)
Example test_cycle_check :
  Forall (λ G, is_graph_acylic_DFS Tests.order 100 G = Ret true ∧
               is_graph_acyclic_toplogical Tests.order 100 G = Ret true ∧
               is_graph_acylic_DFS Tests.order' 100 G = Ret true ∧
               is_graph_acyclic_toplogical Tests.order' 100 G = Ret true)
         Tests.acyclic_graphs ∧
  Forall (λ G, is_graph_acylic_DFS Tests.order 100 G = Ret false ∧
               is_graph_acyclic_toplogical Tests.order 100 G = Ret false ∧
               is_graph_acylic_DFS Tests.order' 100 G = Ret false ∧
               is_graph_acyclic_toplogical Tests.order' 100 G = Ret false)
         Tests.cyclic_graphs.
Proof. split; repeat constructor. Qed.

(** The recursion depth the helper needs grows with the graph: the chain
    of three nodes needs depth 3, and the cycle of two nodes needs depth 3,
    one more than it has nodes. *)
Example test_recursion_depth :
  is_graph_acylic_DFS Tests.order 2 Tests.chain2 = OutOfFuel ∧
  is_graph_acylic_DFS Tests.order 3 Tests.chain2 = Ret true ∧
  is_graph_acylic_DFS Tests.order 2 Tests.cycle2 = OutOfFuel ∧
  is_graph_acylic_DFS Tests.order 3 Tests.cycle2 = Ret false.
Proof. vm_compute. done. Qed.

(** [topological_sort] on the dict at reference 3 of [chain2_store]. *)
Example test_chain2_store :
  fst <$> Heap.topological_sort Tests.order 100 3%positive Tests.chain2_store
  = Ret (Some [2; 1; 0]%Z).
Proof. vm_compute. reflexivity. Qed.

(** What the wrapper [defaultdict(set, edge_dictionary)] is for: a lookup of
    the node 1, which is no key, in the caller's own defaultdict would add
    a key to it. *)
Example test_lookup_in_callers_defaultdict :
  ∃ v h', Heap.getitem 3%positive 1%Z Tests.defaultdict_store = Ret (v, h') ∧
          h' !! 3%positive ≠ Tests.defaultdict_store !! 3%positive.
Proof. eexists _, _. split; [vm_compute; reflexivity|]. vm_compute. congruence. Qed.

(** X12: the five assertions of [test_topolgical_sort] hold whatever the
    order in which sets and dicts are visited and popped. *)
Theorem test_topolgical_sort_any_order (O : @py_order Z _ _) :
  topological_sort O 100 ∅ = Ret (Some []) ∧
  topological_sort O 100 Tests.chain1 = Ret (Some [1; 0]%Z) ∧
  topological_sort O 100 Tests.chain2 = Ret (Some [2; 1; 0]%Z) ∧
  topological_sort O 100 Tests.fork ∈
    [Ret (Some [3; 2; 1; 0]%Z); Ret (Some [2; 3; 1; 0]%Z)] ∧
  topological_sort O 100 Tests.merge2 ∈
    [Ret (Some [4; 3; 2; 1; 0]%Z); Ret (Some [4; 2; 3; 1; 0]%Z)].
Proof.
  split_and!.
  - destruct (topological_sort_in_valid_orderings O ∅ 100) as (l&->&Hl);
      [vm_compute; reflexivity|vm_compute; lia..|].
    replace (valid_orderings (∅ : gmap Z (gset Z))) with [[] : list Z] in Hl
      by (vm_compute; reflexivity).
    by apply list_elem_of_singleton in Hl as ->.
  - destruct (topological_sort_in_valid_orderings O Tests.chain1 100)
      as (l&->&Hl); [vm_compute; reflexivity|vm_compute; lia..|].
    replace (valid_orderings Tests.chain1) with [[1; 0]%Z] in Hl
      by (vm_compute; reflexivity).
    by apply list_elem_of_singleton in Hl as ->.
  - destruct (topological_sort_in_valid_orderings O Tests.chain2 100)
      as (l&->&Hl); [vm_compute; reflexivity|vm_compute; lia..|].
    replace (valid_orderings Tests.chain2) with [[2; 1; 0]%Z] in Hl
      by (vm_compute; reflexivity).
    by apply list_elem_of_singleton in Hl as ->.
  - destruct (topological_sort_in_valid_orderings O Tests.fork 100)
      as (l&->&Hl); [vm_compute; reflexivity|vm_compute; lia..|].
    replace (valid_orderings Tests.fork)
      with [[3; 2; 1; 0]%Z; [2; 3; 1; 0]%Z] in Hl by (vm_compute; reflexivity).
    apply (list_elem_of_fmap_2 (λ l, Ret (Some l))) in Hl. exact Hl.
  - destruct (topological_sort_in_valid_orderings O Tests.merge2 100)
      as (l&->&Hl); [vm_compute; reflexivity|vm_compute; lia..|].
    replace (valid_orderings Tests.merge2)
      with [[4; 3; 2; 1; 0]%Z; [4; 2; 3; 1; 0]%Z] in Hl
      by (vm_compute; reflexivity).
    apply (list_elem_of_fmap_2 (λ l, Ret (Some l))) in Hl. exact Hl.
Qed.

(** X13: the assertions of [test_cycle_check] hold whatever the order in
    which sets and dicts are visited and popped: both predicates return
    [True] on each of the acyclic graphs and [False] on each of the cyclic
    graphs. *)
Theorem test_cycle_check_any_order (O : @py_order Z _ _) :
  Forall (λ G, is_graph_acylic_DFS O 100 G = Ret true ∧
               is_graph_acyclic_toplogical O 100 G = Ret true)
         Tests.acyclic_graphs ∧
  Forall (λ G, is_graph_acylic_DFS O 100 G = Ret false ∧
               is_graph_acyclic_toplogical O 100 G = Ret false)
         Tests.cyclic_graphs.
Proof.
  unfold Tests.acyclic_graphs, Tests.cyclic_graphs.
  split;
    repeat (apply Forall_cons_2;
            [apply (predicates_by_other_order O Tests.order);
             [vm_compute; lia|vm_compute; lia|vm_compute; reflexivity]|]);
    apply Forall_nil_2.
Qed.

(** X14: every graph with at least one node that [test_cycle_check_random]
    builds has a cycle, whatever numbers the random generator draws below
    the number of nodes: each node gets a dependency set that is not
    empty.  On such a graph both predicates return [False]; the test
    compares [True] with [True] on the graph without nodes only. *)
Theorem test_cycle_check_random_graphs_cyclic (O1 O2 : @py_order nat _ _)
    (randint : nat → nat) (number_of_nodes fuel_dfs fuel_loop : nat) :
  0 < number_of_nodes →
  (∀ k, randint k < number_of_nodes) →
  number_of_nodes + 1 ≤ fuel_dfs →
  (number_of_nodes + 1) * (number_of_nodes + 1) ≤ fuel_loop →
  cyclic (dd_items (RandomTests.random_graph randint number_of_nodes)) ∧
  is_graph_acylic_DFS O1 fuel_dfs
    (dd_items (RandomTests.random_graph randint number_of_nodes)) = Ret false ∧
  is_graph_acyclic_toplogical O2 fuel_loop
    (dd_items (RandomTests.random_graph randint number_of_nodes)) = Ret false.
Proof.
  intros Hn Hrange Hdfs Hloop.
  pose proof (random_graph_cyclic randint number_of_nodes Hrange O1 Hn) as Hcyc.
  split; [done|]. split.
  - destruct (is_graph_acylic_DFS_spec O1
                (dd_items (RandomTests.random_graph randint number_of_nodes))
                fuel_dfs) as [[_ Ha]|[-> _]];
      [|by apply cyclic_not_acyclic in Hcyc|done].
    unfold dfs_fuel. rewrite random_graph_size by done. lia.
  - unfold is_graph_acyclic_toplogical.
    destruct (topological_sort_spec O2
                (dd_items (RandomTests.random_graph randint number_of_nodes))
                fuel_loop) as [(l&_&Ha&_)|[-> _]];
      [|by apply cyclic_not_acyclic in Hcyc|done].
    unfold ts_fuel. rewrite random_graph_size by done. simpl. lia.
Qed.

(** * The properties at concrete graphs *)

Lemma acyclicity_predicates_agree_witness :
  dfs_fuel Tests.order Tests.cycle4_tails ≤ 7 ∧
  ts_fuel Tests.order Tests.cycle4_tails ≤ 49 ∧
  ∃ b, is_graph_acylic_DFS Tests.order 7 Tests.cycle4_tails = Ret b ∧
       is_graph_acyclic_toplogical Tests.order 49 Tests.cycle4_tails = Ret b.
Proof.
  assert (dfs_fuel Tests.order Tests.cycle4_tails ≤ 7) as H1
    by (vm_compute; lia).
  assert (ts_fuel Tests.order Tests.cycle4_tails ≤ 49) as H2
    by (vm_compute; lia).
  split; [exact H1|]. split; [exact H2|].
  exact (acyclicity_predicates_agree Tests.order Tests.order
           Tests.cycle4_tails 7 49 H1 H2).
Defined.

Lemma topological_sort_each_node_once_witness :
  acyclic Tests.merge2 ∧ ts_fuel Tests.order Tests.merge2 ≤ 36 ∧
  ∃ l, topological_sort Tests.order 36 Tests.merge2 = Ret (Some l) ∧
       NoDup l ∧
       (∀ x, x ∈ l ↔ x ∈ dom Tests.merge2
                     ∨ ∃ k s, Tests.merge2 !! k = Some s ∧ x ∈ s) ∧
       (∀ x, x ∈ l ↔ x ∈ edge_dict_to_node_set Tests.order Tests.merge2) ∧
       length l = size (edge_dict_to_node_set Tests.order Tests.merge2).
Proof.
  assert (acyclic Tests.merge2) as H1.
  { apply (acyclic_by_DFS Tests.order Tests.merge2 6);
      [vm_compute; lia|vm_compute; reflexivity]. }
  assert (ts_fuel Tests.order Tests.merge2 ≤ 36) as H2 by (vm_compute; lia).
  split; [exact H1|]. split; [exact H2|].
  exact (topological_sort_each_node_once Tests.order Tests.merge2 36 H1 H2).
Defined.

Lemma topological_sort_dependencies_first_witness :
  acyclic Tests.merge1 ∧ ts_fuel Tests.order Tests.merge1 ≤ 25 ∧
  ∃ l, topological_sort Tests.order 25 Tests.merge1 = Ret (Some l) ∧
       ∀ a b s, Tests.merge1 !! a = Some s → b ∈ s →
                ∃ i j, index b l = Some i ∧ index a l = Some j ∧ i < j.
Proof.
  assert (acyclic Tests.merge1) as H1.
  { apply (acyclic_by_DFS Tests.order Tests.merge1 5);
      [vm_compute; lia|vm_compute; reflexivity]. }
  assert (ts_fuel Tests.order Tests.merge1 ≤ 25) as H2 by (vm_compute; lia).
  split; [exact H1|]. split; [exact H2|].
  exact (topological_sort_dependencies_first Tests.order Tests.merge1 25 H1 H2).
Defined.

Lemma topological_sort_cycle_signal_witness :
  cyclic Tests.cycle1 ∧ ts_fuel Tests.order Tests.cycle1 ≤ 4 ∧
  topological_sort Tests.order 4 Tests.cycle1 = Ret None.
Proof.
  assert (cyclic Tests.cycle1) as H1.
  { apply (cyclic_by_DFS Tests.order Tests.cycle1 2);
      [vm_compute; lia|vm_compute; reflexivity]. }
  assert (ts_fuel Tests.order Tests.cycle1 ≤ 4) as H2 by (vm_compute; lia).
  split; [exact H1|]. split; [exact H2|].
  exact (topological_sort_cycle_signal Tests.order Tests.cycle1 4 H1 H2).
Defined.

Lemma sort_and_search_terminate_witness :
  ts_fuel Tests.order Tests.cycle2_disjoint ≤ 36 ∧
  dfs_fuel Tests.order Tests.cycle2_disjoint ≤ 6 ∧
  (∃ st, frontier_loop Tests.order 36 (ts_init Tests.order Tests.cycle2_disjoint)
           = Ret st ∧
         frontier st = ∅ ∧ NoDup (sorted_ordering st) ∧
         pops st ≤ ts_fuel Tests.order Tests.cycle2_disjoint) ∧
  (∃ r, topological_sort Tests.order 36 Tests.cycle2_disjoint = Ret r) ∧
  (∀ start, start ∈ edge_dict_to_node_set Tests.order Tests.cycle2_disjoint →
     ∃ r, is_graph_acylic_helper Tests.order 6
            (∅, DefaultDict Tests.cycle2_disjoint) start = Ret r) ∧
  (∃ b, is_graph_acylic_DFS Tests.order 6 Tests.cycle2_disjoint = Ret b).
Proof.
  assert (ts_fuel Tests.order Tests.cycle2_disjoint ≤ 36) as H1
    by (vm_compute; lia).
  assert (dfs_fuel Tests.order Tests.cycle2_disjoint ≤ 6) as H2
    by (vm_compute; lia).
  split; [exact H1|]. split; [exact H2|].
  exact (sort_and_search_terminate Tests.order Tests.cycle2_disjoint 36 6 H1 H2).
Defined.

Lemma calls_leave_graph_unchanged_witness :
  Heap.represents Tests.chain2_store 3%positive Tests.chain2 ∧
  ts_fuel Tests.order Tests.chain2 ≤ 16 ∧
  dfs_fuel Tests.order Tests.chain2 ≤ 4 ∧
  (∃ r h', Heap.topological_sort Tests.order 16 3%positive Tests.chain2_store
             = Ret (r, h') ∧
           topological_sort Tests.order 16 Tests.chain2 = Ret r ∧
           Tests.chain2_store ⊆ h' ∧
           Heap.represents h' 3%positive Tests.chain2) ∧
  (∃ b h', Heap.is_graph_acylic_DFS Tests.order 4 3%positive Tests.chain2_store
             = Ret (b, h') ∧
           is_graph_acylic_DFS Tests.order 4 Tests.chain2 = Ret b ∧
           Tests.chain2_store ⊆ h' ∧
           Heap.represents h' 3%positive Tests.chain2) ∧
  (∃ b h', Heap.is_graph_acyclic_toplogical Tests.order 16 3%positive
             Tests.chain2_store = Ret (b, h') ∧
           is_graph_acyclic_toplogical Tests.order 16 Tests.chain2 = Ret b ∧
           Tests.chain2_store ⊆ h' ∧
           Heap.represents h' 3%positive Tests.chain2).
Proof.
  assert (Heap.represents Tests.chain2_store 3%positive Tests.chain2) as H1.
  { exists false, {[ 0%Z := 1%positive; 1%Z := 2%positive ]}.
    split; [vm_compute; reflexivity|].
    apply HeapFacts.items_rep_fmap. vm_compute. reflexivity. }
  assert (ts_fuel Tests.order Tests.chain2 ≤ 16) as H2 by (vm_compute; lia).
  assert (dfs_fuel Tests.order Tests.chain2 ≤ 4) as H3 by (vm_compute; lia).
  split; [exact H1|]. split; [exact H2|]. split; [exact H3|].
  exact (calls_leave_graph_unchanged Tests.order Tests.chain2_store 3%positive
           Tests.chain2 16 4 H1 H2 H3).
Defined.

Lemma is_graph_acylic_DFS_decides_witness :
  dfs_fuel Tests.order Tests.cycle4 ≤ 5 ∧
  (is_graph_acylic_DFS Tests.order 5 Tests.cycle4 = Ret true
   ↔ acyclic Tests.cycle4) ∧
  (is_graph_acylic_DFS Tests.order 5 Tests.cycle4 = Ret false
   ↔ cyclic Tests.cycle4).
Proof.
  assert (dfs_fuel Tests.order Tests.cycle4 ≤ 5) as H1 by (vm_compute; lia).
  split; [exact H1|].
  exact (is_graph_acylic_DFS_decides Tests.order Tests.cycle4 5 H1).
Defined.

Lemma is_graph_acyclic_toplogical_decides_witness :
  ts_fuel Tests.order Tests.merge2_disjoint ≤ 64 ∧
  (is_graph_acyclic_toplogical Tests.order 64 Tests.merge2_disjoint = Ret true
   ↔ acyclic Tests.merge2_disjoint) ∧
  (is_graph_acyclic_toplogical Tests.order 64 Tests.merge2_disjoint = Ret false
   ↔ cyclic Tests.merge2_disjoint).
Proof.
  assert (ts_fuel Tests.order Tests.merge2_disjoint ≤ 64) as H1
    by (vm_compute; lia).
  split; [exact H1|].
  exact (is_graph_acyclic_toplogical_decides Tests.order
           Tests.merge2_disjoint 64 H1).
Defined.

Lemma is_graph_acylic_helper_contract_witness :
  0%Z ∈ edge_dict_to_node_set Tests.order Tests.chain2 ∧
  size (edge_dict_to_node_set Tests.order Tests.chain2 ∖ {[2%Z]}) < 3 ∧
  ∃ b seen' ed',
    is_graph_acylic_helper Tests.order 3 ({[2%Z]}, DefaultDict Tests.chain2) 0%Z
      = Ret (b, (seen', ed')) ∧
    (b = true ↔
       ∀ m, rtc (depends_on Tests.chain2) 0%Z m →
            (m ∉ ({[2%Z]} : gset Z)) ∧ (¬ tc (depends_on Tests.chain2) m m)) ∧
    (b = true → seen' = {[2%Z]}) ∧
    (b = false → {[2%Z]} ⊆ seen').
Proof.
  assert (0%Z ∈ edge_dict_to_node_set Tests.order Tests.chain2) as H1
    by (vm_compute; reflexivity).
  assert (size (edge_dict_to_node_set Tests.order Tests.chain2 ∖ {[2%Z]}) < 3)
    as H2 by (vm_compute; lia).
  split; [exact H1|]. split; [exact H2|].
  exact (is_graph_acylic_helper_contract Tests.order Tests.chain2 3 {[2%Z]} 0%Z
           H1 H2).
Defined.

Lemma topological_sort_iterations_witness :
  size (edge_dict_to_node_set Tests.order Tests.merge2)
    + size (edge_set Tests.merge2) ≤ 10 ∧
  (∀ a b, (a, b) ∈ edge_set Tests.merge2
          ↔ ∃ s, Tests.merge2 !! a = Some s ∧ b ∈ s) ∧
  (∃ st, frontier_loop Tests.order 10 (ts_init Tests.order Tests.merge2)
           = Ret st ∧ frontier st = ∅ ∧
         pops st ≤ size (edge_dict_to_node_set Tests.order Tests.merge2)
                   + size (edge_set Tests.merge2)) ∧
  (∃ r, ∀ fuel', 10 ≤ fuel' →
          topological_sort Tests.order fuel' Tests.merge2 = Ret r).
Proof.
  assert (size (edge_dict_to_node_set Tests.order Tests.merge2)
          + size (edge_set Tests.merge2) ≤ 10) as H1 by (vm_compute; lia).
  split; [exact H1|].
  exact (topological_sort_iterations Tests.order Tests.merge2 10 H1).
Defined.

Lemma frontier_loop_places_cycle_free_nodes_witness :
  ts_fuel Tests.order Tests.cycle4_tails ≤ 49 ∧
  ∃ st, frontier_loop Tests.order 49 (ts_init Tests.order Tests.cycle4_tails)
          = Ret st ∧
    (∀ x, x ∈ sorted_ordering st
          ↔ x ∈ edge_dict_to_node_set Tests.order Tests.cycle4_tails ∧
            ¬ ∃ c, rtc (depends_on Tests.cycle4_tails) x c ∧
                   tc (depends_on Tests.cycle4_tails) c c) ∧
    (∀ j a b, sorted_ordering st !! j = Some a →
              depends_on Tests.cycle4_tails a b →
              ∃ i, i < j ∧ sorted_ordering st !! i = Some b).
Proof.
  assert (ts_fuel Tests.order Tests.cycle4_tails ≤ 49) as H1
    by (vm_compute; lia).
  split; [exact H1|].
  exact (frontier_loop_places_cycle_free_nodes Tests.order
           Tests.cycle4_tails 49 H1).
Defined.

Lemma inversion_keeps_acyclicity_witness :
  dfs_fuel Tests.order Tests.merge1 ≤ 5 ∧
  ts_fuel Tests.order Tests.merge1 ≤ 25 ∧
  is_graph_acylic_DFS Tests.order 5
    (dd_items (invert_edge_dict Tests.order Tests.merge1))
    = is_graph_acylic_DFS Tests.order 5 Tests.merge1 ∧
  is_graph_acyclic_toplogical Tests.order 25
    (dd_items (invert_edge_dict Tests.order Tests.merge1))
    = is_graph_acyclic_toplogical Tests.order 25 Tests.merge1.
Proof.
  assert (dfs_fuel Tests.order Tests.merge1 ≤ 5) as H1 by (vm_compute; lia).
  assert (ts_fuel Tests.order Tests.merge1 ≤ 25) as H2 by (vm_compute; lia).
  split; [exact H1|]. split; [exact H2|].
  exact (inversion_keeps_acyclicity Tests.order Tests.merge1 5 25 H1 H2).
Defined.

Lemma invert_edge_dict_builds_new_objects_witness :
  Heap.represents Tests.chain2_store 3%positive Tests.chain2 ∧
  ∃ new_dict h' items,
    Heap.invert_edge_dict Tests.order 3%positive Tests.chain2_store
      = Ret (new_dict, h') ∧
    Tests.chain2_store ⊆ h' ∧ Tests.chain2_store !! new_dict = None ∧
    h' !! new_dict = Some (Heap.PyDict true items) ∧
    Heap.items_rep h' items
      (dd_items (invert_edge_dict Tests.order Tests.chain2)) ∧
    (∀ k v, items !! k = Some v → Tests.chain2_store !! v = None) ∧
    (∀ k k' v, items !! k = Some v → items !! k' = Some v → k = k').
Proof.
  assert (Heap.represents Tests.chain2_store 3%positive Tests.chain2) as H1.
  { exists false, {[ 0%Z := 1%positive; 1%Z := 2%positive ]}.
    split; [vm_compute; reflexivity|].
    apply HeapFacts.items_rep_fmap. vm_compute. reflexivity. }
  split; [exact H1|].
  exact (invert_edge_dict_builds_new_objects Tests.order Tests.chain2_store
           3%positive Tests.chain2 H1).
Defined.

Lemma edge_dict_to_node_set_builds_new_set_witness :
  Heap.represents Tests.chain2_store 3%positive Tests.chain2 ∧
  ∃ all_nodes h',
    Heap.edge_dict_to_node_set Tests.order 3%positive Tests.chain2_store
      = Ret (all_nodes, h') ∧
    Tests.chain2_store ⊆ h' ∧ Tests.chain2_store !! all_nodes = None ∧
    h' !! all_nodes
      = Some (Heap.PySet (edge_dict_to_node_set Tests.order Tests.chain2)).
Proof.
  assert (Heap.represents Tests.chain2_store 3%positive Tests.chain2) as H1.
  { exists false, {[ 0%Z := 1%positive; 1%Z := 2%positive ]}.
    split; [vm_compute; reflexivity|].
    apply HeapFacts.items_rep_fmap. vm_compute. reflexivity. }
  split; [exact H1|].
  exact (edge_dict_to_node_set_builds_new_set Tests.order Tests.chain2_store
           3%positive Tests.chain2 H1).
Defined.

Lemma test_cycle_check_random_graphs_cyclic_witness :
  0 < 3 ∧ (∀ k : nat, (λ _ : nat, 1) k < 3) ∧ 3 + 1 ≤ 4 ∧
  (3 + 1) * (3 + 1) ≤ 16 ∧
  cyclic (dd_items (RandomTests.random_graph (λ _, 1) 3)) ∧
  is_graph_acylic_DFS canonical_order 4
    (dd_items (RandomTests.random_graph (λ _, 1) 3)) = Ret false ∧
  is_graph_acyclic_toplogical reversed_order 16
    (dd_items (RandomTests.random_graph (λ _, 1) 3)) = Ret false.
Proof.
  assert (0 < 3) as H1 by lia.
  assert (∀ k : nat, (λ _ : nat, 1) k < 3) as H2 by (simpl; lia).
  assert (3 + 1 ≤ 4) as H3 by lia.
  assert ((3 + 1) * (3 + 1) ≤ 16) as H4 by lia.
  split; [exact H1|]. split; [exact H2|]. split; [exact H3|].
  split; [exact H4|].
  exact (test_cycle_check_random_graphs_cyclic canonical_order reversed_order
           (λ _, 1) 3 4 16 H1 H2 H3 H4).
Defined.

Lemma topological_sort_no_terminal_node_witness :
  0%Z ∈ edge_dict_to_node_set Tests.order Tests.cycle4 ∧
  (∀ x, x ∈ edge_dict_to_node_set Tests.order Tests.cycle4 →
        successors Tests.cycle4 x ≠ ∅) ∧
  frontier (ts_init Tests.order Tests.cycle4) = ∅ ∧
  frontier_loop Tests.order 0 (ts_init Tests.order Tests.cycle4)
    = Ret (ts_init Tests.order Tests.cycle4) ∧
  topological_sort Tests.order 0 Tests.cycle4 = Ret None.
Proof.
  assert (0%Z ∈ edge_dict_to_node_set Tests.order Tests.cycle4) as H1
    by (vm_compute; reflexivity).
  assert (set_Forall (λ x, successors Tests.cycle4 x ≠ ∅)
            (edge_dict_to_node_set Tests.order Tests.cycle4)) as H2
    by (apply (bool_decide_unpack _); vm_compute; exact I).
  split; [exact H1|]. split; [exact H2|].
  exact (topological_sort_no_terminal_node Tests.order Tests.cycle4 0 0%Z H1 H2).
Defined.
